(** * Frostbite runtime: segmented bump allocator and soft-float engine

    A shallow embedding of [lib/frostbite_alloc.c] and
    [lib/frostbite_softfloat.c] (target RV64: [size_t], [uintptr_t] and
    [u64] are 64 bits wide, [uint32_t], [u32] and [int] are 32 bits wide).
    Machine integers are values of [Z] with the wrap-around written out;
    a [float] or [double] argument is its bit pattern. *)

From Stdlib Require Import ZArith Lia List String Bool QArith.
From coqutil Require Import Z.bitblast.
Import ListNotations.
Local Open Scope Z_scope.

(** ** Machine integers *)

Definition wrap32 (z : Z) : Z := z mod 2 ^ 32.
Definition wrap64 (z : Z) : Z := z mod 2 ^ 64.

(** Conversion of a 32-bit pattern to [int] (two's complement). *)
Definition to_i32 (z : Z) : Z :=
  let u := wrap32 z in if u <? 2 ^ 31 then u else u - 2 ^ 32.

Definition is_u32 (z : Z) : Prop := 0 <= z < 2 ^ 32.
Definition is_u64 (z : Z) : Prop := 0 <= z < 2 ^ 64.

(** ** The allocator, [frostbite_alloc.c] *)

Module Alloc.

(** Compiled-in defaults ([#ifndef] blocks at the top of the file). *)
Definition FB_HEAP_SEGMENT : Z := 1.
Definition FB_HEAP_OFFSET : Z := 0.
Definition FB_RAM_BYTES : Z := 4 * 1024 * 1024.
Definition FB_HEAP_SEGMENT_COUNT : Z := 1.

Definition FB_SEGMENT_ADDR (seg offset : Z) : Z :=
  Z.lor (wrap64 (Z.shiftl seg 28)) (Z.land offset 0x0FFFFFFF).

Definition NULL : Z := 0.

(** The file's static variables. *)
Record heap : Type := mkHeap {
  fb_heap_ptr : Z;
  fb_heap_end : Z;
  fb_heap_segment_start : Z;
  fb_heap_segment_count : Z;
  fb_heap_segment_index : Z;
  fb_heap_segment_bytes : Z;
  fb_heap_segment_offset : Z;
  fb_heap_use_segments : bool
}.

(** Their initial values at program start. *)
Definition heap_at_start : heap :=
  mkHeap NULL NULL FB_HEAP_SEGMENT FB_HEAP_SEGMENT_COUNT 0 FB_RAM_BYTES
         FB_HEAP_OFFSET true.

Definition set_bounds (p e : Z) (h : heap) : heap :=
  mkHeap p e (fb_heap_segment_start h) (fb_heap_segment_count h)
         (fb_heap_segment_index h) (fb_heap_segment_bytes h)
         (fb_heap_segment_offset h) (fb_heap_use_segments h).

Definition set_index (i : Z) (h : heap) : heap :=
  mkHeap (fb_heap_ptr h) (fb_heap_end h) (fb_heap_segment_start h)
         (fb_heap_segment_count h) i (fb_heap_segment_bytes h)
         (fb_heap_segment_offset h) (fb_heap_use_segments h).

Definition set_use_segments (u : bool) (h : heap) : heap :=
  mkHeap (fb_heap_ptr h) (fb_heap_end h) (fb_heap_segment_start h)
         (fb_heap_segment_count h) (fb_heap_segment_index h)
         (fb_heap_segment_bytes h) (fb_heap_segment_offset h) u.

Definition set_config (start count index bytes offset : Z) (h : heap) : heap :=
  mkHeap (fb_heap_ptr h) (fb_heap_end h) start count index bytes offset true.

(** A call either returns a value in a new heap state, or ends the
    process through [fb_alloc_panic] (diagnostic, then [fb_exit(1)]), or,
    for the [goto retry] loop only, uses up the iteration bound of the
    model ([fb_malloc_total] shows that this never happens). *)
Inductive outcome (A : Type) : Type :=
| Done (a : A) (h : heap)
| Panic (msg : string)
| OutOfFuel.
Arguments Done {A} a h.
Arguments Panic {A} msg.
Arguments OutOfFuel {A}.

Definition M (A : Type) : Type := heap -> outcome A.

Definition ret {A} (a : A) : M A := fun h => Done a h.

Definition bind {A B} (m : M A) (k : A -> M B) : M B :=
  fun h => match m h with
           | Done a h' => k a h'
           | Panic msg => Panic msg
           | OutOfFuel => OutOfFuel
           end.

Notation "x <- m ;; k" := (bind m (fun x => k))
  (at level 61, m at next level, right associativity).
Notation "m ;;; k" := (bind m (fun _ => k))
  (at level 61, right associativity).

Definition fb_alloc_panic {A} (msg : string) : M A := fun _ => Panic msg.
Definition modify (f : heap -> heap) : M unit := fun h => Done tt (f h).
Definition get : M heap := fun h => Done h h.

(** The four diagnostics; each ends with a line feed. *)
Definition line (s : string) : string :=
  (s ++ String (Ascii.ascii_of_nat 10) EmptyString)%string.
Definition msg_not_configured : string :=
  line "fb_malloc: RAM heap not configured. Pass RAM accounts and set FB_HEAP_SEGMENT>0 (default=1).".
Definition msg_offset : string :=
  line "fb_malloc: RAM heap offset exceeds RAM size. Check FB_HEAP_OFFSET and FB_RAM_BYTES.".
Definition msg_base : string :=
  line "fb_heap_init: base must be a RAM segment address. Use FB_SEGMENT_ADDR(seg, offset).".
Definition msg_segments : string :=
  line "fb_heap_init_segments: invalid RAM segment configuration.".

Definition fb_align_up (value align : Z) : Z :=
  Z.land (wrap64 (value + align - 1)) (wrap64 (Z.lnot (wrap64 (align - 1)))).

Definition fb_is_segment_addr (addr : Z) : bool :=
  negb (Z.land (Z.shiftr addr 28) 0x0F =? 0).

(** The segment identifier of an address under
    [address = (segment_id << 28) | (offset & 0x0FFFFFFF)], and the four
    bits of it that [fb_is_segment_addr] looks at. *)
Definition segment_id (addr : Z) : Z := Z.shiftr addr 28.
Definition segment_field (addr : Z) : Z := Z.land (Z.shiftr addr 28) 0x0F.

Definition fb_heap_set_segment (index : Z) : M unit :=
  h <- get ;;
  if (fb_heap_segment_start h =? 0) || (fb_heap_segment_count h =? 0)
  then fb_alloc_panic msg_not_configured
  else if fb_heap_segment_count h <=? index
  then modify (set_bounds NULL NULL)
  else
    let segment := wrap32 (fb_heap_segment_start h + index) in
    let offset := if index =? 0 then fb_heap_segment_offset h else 0 in
    if fb_heap_segment_bytes h <=? offset
    then fb_alloc_panic msg_offset
    else
      let base := FB_SEGMENT_ADDR segment offset in
      modify (set_bounds base (wrap64 (base + (fb_heap_segment_bytes h - offset)))).

Definition fb_heap_init_default : M unit :=
  h <- get ;;
  if (fb_heap_ptr h =? NULL) || (fb_heap_end h =? NULL)
  then
    modify (set_config FB_HEAP_SEGMENT FB_HEAP_SEGMENT_COUNT 0 FB_RAM_BYTES
                       FB_HEAP_OFFSET) ;;;
    fb_heap_set_segment 0
  else ret tt.

Definition fb_heap_init (base size : Z) : M unit :=
  if negb (base =? NULL) && negb (size =? 0)
  then
    (if negb (fb_is_segment_addr base)
     then fb_alloc_panic msg_base
     else
       modify (set_use_segments false) ;;;
       modify (set_bounds base (wrap64 (base + size))))
  else
    modify (set_use_segments true) ;;;
    modify (set_bounds NULL NULL).

Definition fb_heap_init_segments (start_segment count offset bytes_per_segment : Z)
  : M unit :=
  if (start_segment =? 0) || (count =? 0) || (bytes_per_segment =? 0)
  then fb_alloc_panic msg_segments
  else
    modify (set_config start_segment count 0 bytes_per_segment offset) ;;;
    fb_heap_set_segment 0.

(** The [retry:] loop of [fb_malloc]; [size] is already rounded.  Each
    pass through the label either returns or moves to the next segment. *)
Fixpoint fb_malloc_retry (fuel : nat) (size : Z) : M Z :=
  fun h =>
    let ptr := fb_heap_ptr h in
    let end_ := fb_heap_end h in
    if end_ <? wrap64 (ptr + size) then
      if fb_heap_use_segments h
         && (wrap32 (fb_heap_segment_index h + 1) <? fb_heap_segment_count h)
      then
        match fuel with
        | O => OutOfFuel
        | S fuel' =>
            (modify (set_index (wrap32 (fb_heap_segment_index h + 1))) ;;;
             h1 <- get ;;
             fb_heap_set_segment (fb_heap_segment_index h1) ;;;
             fb_malloc_retry fuel' size) h
        end
      else Done NULL h
    else Done ptr (set_bounds (wrap64 (ptr + size)) end_ h).

(** Number of segments the loop can still move to: the variant of the
    loop, also when the index is (abnormally) past the count. *)
Definition segments_left (h : heap) : nat :=
  Z.to_nat (wrap32 (fb_heap_segment_count h - 1 - fb_heap_segment_index h)).

Definition fb_malloc (size : Z) : M Z :=
  if size =? 0 then ret NULL
  else
    fb_heap_init_default ;;;
    h <- get ;;
    fb_malloc_retry (segments_left h) (fb_align_up size 8).

Definition fb_free (ptr : Z) : M unit := ret tt.

(** *** Runs of the allocator

    A configuration is the argument list of [fb_heap_init_segments]; a
    run is a configuration followed by a sequence of [fb_malloc] calls,
    or such a sequence on the heap as it is at program start. *)

Record config : Type := mkConfig {
  cfg_start : Z;
  cfg_count : Z;
  cfg_offset : Z;
  cfg_bytes : Z
}.

Definition configure (c : config) : M unit :=
  fb_heap_init_segments (cfg_start c) (cfg_count c) (cfg_offset c) (cfg_bytes c).

(** Bounds of segment number [k] of the configuration, as
    [fb_heap_set_segment] computes them. *)
Definition segment_offset (c : config) (k : Z) : Z :=
  if k =? 0 then cfg_offset c else 0.
Definition segment_base (c : config) (k : Z) : Z :=
  FB_SEGMENT_ADDR (wrap32 (cfg_start c + k)) (segment_offset c k).
Definition segment_end (c : config) (k : Z) : Z :=
  wrap64 (segment_base c k + (cfg_bytes c - segment_offset c k)).

Definition capacity (c : config) : Z :=
  cfg_count c * cfg_bytes c - cfg_offset c.

(** One [fb_malloc] call of a run: what was returned, the rounded size,
    and the heap state before and after the call. *)
Record alloc : Type := mkAlloc {
  a_ptr : Z;
  a_size : Z;
  a_before : heap;
  a_after : heap
}.

Fixpoint fb_malloc_seq (sizes : list Z) : M (list alloc) :=
  match sizes with
  | [] => ret []
  | size :: rest =>
      h <- get ;;
      p <- fb_malloc size ;;
      h' <- get ;;
      l <- fb_malloc_seq rest ;;
      ret (mkAlloc p (fb_align_up size 8) h h' :: l)
  end.

Definition overlap (a b : alloc) : Prop :=
  a_ptr a < a_ptr b + a_size b /\ a_ptr b < a_ptr a + a_size a.

Definition in_segment (c : config) (k : Z) (a : alloc) : Prop :=
  0 <= k < cfg_count c /\
  segment_base c k <= a_ptr a /\ a_ptr a + a_size a <= segment_end c k.

Definition no_overlap (tr : list alloc) : Prop :=
  forall i j a b, i <> j ->
    nth_error tr i = Some a -> nth_error tr j = Some b ->
    a_ptr a <> NULL -> a_ptr b <> NULL -> ~ overlap a b.

Definition in_one_segment (c : config) (tr : list alloc) : Prop :=
  forall a, In a tr -> a_ptr a <> NULL ->
    exists k, in_segment c k a /\ forall k', in_segment c k' a -> k' = k.

(** The order on heap states: a later segment, or the same segment and
    a cursor that did not move back. *)
Definition heap_le (h h' : heap) : Prop :=
  fb_heap_segment_index h <= fb_heap_segment_index h' /\
  (fb_heap_segment_index h = fb_heap_segment_index h' ->
   fb_heap_ptr h <= fb_heap_ptr h').

Definition cursor_monotone (tr : list alloc) : Prop :=
  forall i j a b, (i <= j)%nat ->
    nth_error tr i = Some a -> nth_error tr j = Some b ->
    heap_le (a_before a) (a_after b).

Definition allocator_invariants (c : config) (tr : list alloc) : Prop :=
  no_overlap tr /\ in_one_segment c tr /\ cursor_monotone tr.

(** A configuration that fits the address encoding: segment numbers
    from 1 that do not wrap, and segments no larger than the 28-bit
    offset field. *)
Definition well_formed (c : config) : Prop :=
  1 <= cfg_start c /\ 1 <= cfg_count c /\
  cfg_start c + cfg_count c <= 2 ^ 32 /\
  0 <= cfg_offset c < cfg_bytes c /\ cfg_bytes c <= 2 ^ 28.

(** The largest request for which cursor + rounded size cannot wrap. *)
Definition max_request : Z := 2 ^ 64 - 2 ^ 60 - 8.
Definition request_ok (size : Z) : Prop := 0 <= size <= max_request.

(** Bytes handed out by a run: the rounded sizes of the calls that
    returned an address; and bytes asked for, whatever was returned. *)
Definition granted (tr : list alloc) : Z :=
  fold_right (fun a s => (if a_ptr a =? NULL then 0 else a_size a) + s) 0 tr.
Definition requested (tr : list alloc) : Z :=
  fold_right (fun a s => a_size a + s) 0 tr.

Definition two_small_segments : config := mkConfig 1 2 0 64.

(** The configuration that [fb_heap_init_default] applies on the first
    request when nothing was configured. *)
Definition default_config : config :=
  mkConfig FB_HEAP_SEGMENT FB_HEAP_SEGMENT_COUNT FB_HEAP_OFFSET FB_RAM_BYTES.

(** *** The state of a configured heap

    Definitions for the proofs: the invariant that holds between two
    calls, the bytes of the capacity behind the cursor, the effect of
    one call, and runs as chains of calls. *)

Section Configured.

Variable c : config.

Record Inv (h : heap) : Prop := {
  inv_use : fb_heap_use_segments h = true;
  inv_start : fb_heap_segment_start h = cfg_start c;
  inv_count : fb_heap_segment_count h = cfg_count c;
  inv_bytes : fb_heap_segment_bytes h = cfg_bytes c;
  inv_offset : fb_heap_segment_offset h = cfg_offset c;
  inv_index : 0 <= fb_heap_segment_index h < cfg_count c;
  inv_ptr : segment_base c (fb_heap_segment_index h) <= fb_heap_ptr h
            <= fb_heap_end h;
  inv_end : fb_heap_end h = segment_end c (fb_heap_segment_index h)
}.

(** A heap on which a run can go on: configured, or still as at program
    start when the configuration is the default one. *)
Definition ready (h : heap) : Prop :=
  Inv h \/ (c = default_config /\ h = heap_at_start).

(** The heap after [fb_malloc] has moved to the next segment. *)
Definition next_segment (h : heap) : heap :=
  let k := fb_heap_segment_index h + 1 in
  set_bounds (segment_base c k) (segment_end c k) (set_index k h).

(** Bytes of the configured capacity that lie behind the cursor (none
    while the cursor is still [NULL]). *)
Definition used (h : heap) : Z :=
  if fb_heap_ptr h =? NULL then 0
  else
    fb_heap_segment_index h * cfg_bytes c - cfg_offset c
    + (fb_heap_ptr h - (cfg_start c + fb_heap_segment_index h) * 2 ^ 28).

(** What one call of size [size] (rounded) that returns [p] does. *)
Record step_ok (size : Z) (h : heap) (p : Z) (h' : heap) : Prop := {
  st_ready : ready h';
  st_index : fb_heap_segment_index h <= fb_heap_segment_index h';
  st_cursor : fb_heap_ptr h <= fb_heap_ptr h';
  st_used : used h + (if p =? NULL then 0 else size) <= used h';
  st_size : p <> NULL -> 0 < size;
  st_from : p <> NULL -> fb_heap_ptr h <= p;
  st_base : p <> NULL -> segment_base c (fb_heap_segment_index h') <= p;
  st_to : p <> NULL -> p + size = fb_heap_ptr h'
}.

Inductive chain : heap -> list alloc -> heap -> Prop :=
| chain_nil h : chain h [] h
| chain_cons h a tr hf :
    a_before a = h ->
    step_ok (a_size a) h (a_ptr a) (a_after a) ->
    chain (a_after a) tr hf ->
    chain h (a :: tr) hf.

End Configured.

(** *** Memory helpers and the heap of [fb_heap_init]

    Memory is a map from addresses to bytes; the [for] loops of
    [fb_memcpy] and [fb_memset] run [n] times, with [i] from 0. *)

Definition memory : Type := Z -> Z.

Definition store (m : memory) (addr v : Z) : memory :=
  fun x => if x =? addr then v else m x.

Fixpoint fb_memcpy_loop (left : nat) (i d s : Z) (m : memory) : memory :=
  match left with
  | O => m
  | S left' =>
      fb_memcpy_loop left' (wrap64 (i + 1)) d s
        (store m (wrap64 (d + i)) (m (wrap64 (s + i))))
  end.

(** [fb_memcpy] returns [dst] and the memory after the copy. *)
Definition fb_memcpy (dst src n : Z) (m : memory) : Z * memory :=
  (dst, fb_memcpy_loop (Z.to_nat n) 0 dst src m).

Fixpoint fb_memset_loop (left : nat) (i d value : Z) (m : memory) : memory :=
  match left with
  | O => m
  | S left' =>
      fb_memset_loop left' (wrap64 (i + 1)) d value
        (store m (wrap64 (d + i)) value)
  end.

(** [value] is [(uint8_t)c], for the [int] [c]. *)
Definition fb_memset (dst c n : Z) (m : memory) : Z * memory :=
  let value := c mod 2 ^ 8 in
  (dst, fb_memset_loop (Z.to_nat n) 0 dst value m).



End Alloc.

(** ** The soft-float engine, [frostbite_softfloat.c]

    A [float] or [double] is its bit pattern ([f32_to_bits] and
    [bits_to_f32] are reinterpretations through a union); [int]
    variables that hold exponents stay far from the bounds of [int] and
    are plain integers. *)

Module SoftFloat.

(** [(u32)x << n] and [(u64)x << n]. *)
Definition shl32 (x n : Z) : Z := wrap32 (Z.shiftl (wrap32 x) n).
Definition shl64 (x n : Z) : Z := wrap64 (Z.shiftl (wrap64 x) n).

(** A [while] loop, run for at most [fuel] iterations; [None] when the
    bound is used up before the condition turns false. *)
Fixpoint while {S : Type} (fuel : nat) (cond : S -> bool) (body : S -> S)
    (s : S) : option S :=
  if cond s then
    match fuel with
    | O => None
    | Datatypes.S fuel' => while fuel' cond body (body s)
    end
  else Some s.

(** *** float (f32) *)

Definition f32_to_bits (f : Z) : Z := f.
Definition bits_to_f32 (u : Z) : Z := u.

Definition f32_sign (a : Z) : Z := Z.land (Z.shiftr a 31) 1.
Definition f32_exp (a : Z) : Z := Z.land (Z.shiftr a 23) 0xFF.
Definition f32_frac (a : Z) : Z := Z.land a 0x7FFFFF.
Definition f32_is_nan (a : Z) : bool :=
  (f32_exp a =? 0xFF) && negb (f32_frac a =? 0).

(** [f32_cmp] returns its result and the value left in [*unordered]. *)
Definition f32_cmp (a b : Z) (unordered : Z) : Z * Z :=
  let ua := f32_to_bits a in
  let ub := f32_to_bits b in
  if f32_is_nan ua || f32_is_nan ub then (0, 1)
  else if (Z.land ua 0x7FFFFFFF =? 0) && (Z.land ub 0x7FFFFFFF =? 0)
  then (0, unordered)
  else
    let sa := to_i32 ua in
    let sb := to_i32 ub in
    let sa := if sa <? 0 then to_i32 (wrap32 (0x80000000 - sa)) else sa in
    let sb := if sb <? 0 then to_i32 (wrap32 (0x80000000 - sb)) else sb in
    if sa <? sb then (-1, unordered)
    else if sb <? sa then (1, unordered)
    else (0, unordered).

Definition __gtsf2 (a b : Z) : Z :=
  let '(cmp, unordered) := f32_cmp a b 0 in
  if negb (unordered =? 0) then -1 else cmp.
Definition __gesf2 (a b : Z) : Z :=
  let '(cmp, unordered) := f32_cmp a b 0 in
  if negb (unordered =? 0) then -1 else cmp.
Definition __ltsf2 (a b : Z) : Z :=
  let '(cmp, unordered) := f32_cmp a b 0 in
  if negb (unordered =? 0) then 1 else cmp.
Definition __lesf2 (a b : Z) : Z :=
  let '(cmp, unordered) := f32_cmp a b 0 in
  if negb (unordered =? 0) then 1 else cmp.
Definition __eqsf2 (a b : Z) : Z :=
  let '(cmp, unordered) := f32_cmp a b 0 in
  if negb (unordered =? 0) then 1
  else if cmp =? 0 then 0 else 1.
Definition __nesf2 (a b : Z) : Z :=
  let '(cmp, unordered) := f32_cmp a b 0 in
  if negb (unordered =? 0) then 1
  else if cmp =? 0 then 0 else 1.
Definition __unordsf2 (a b : Z) : Z :=
  let ua := f32_to_bits a in
  let ub := f32_to_bits b in
  if ((f32_exp ua =? 0xFF) && negb (f32_frac ua =? 0))
     || ((f32_exp ub =? 0xFF) && negb (f32_frac ub =? 0))
  then 1 else 0.

(** The two normalisation loops of [__addsf3] and [__divsf3]:
    [while (fr >= 0x1000000) { fr >>= 1; er++; }] on a [u64], then
    [while (fr < 0x800000 && er > 0) { fr <<= 1; er--; }]. *)
Definition f32_shift_down (fr er : Z) : option (Z * Z) :=
  while 64 (fun s => 0x1000000 <=? fst s)
           (fun s => (Z.shiftr (fst s) 1, snd s + 1)) (fr, er).
Definition f32_shift_up (fr er : Z) : option (Z * Z) :=
  while (Z.to_nat er) (fun s => (fst s <? 0x800000) && (0 <? snd s))
        (fun s => (wrap64 (Z.shiftl (fst s) 1), snd s - 1)) (fr, er).

(** The exponent alignment of [__addsf3]: an early return, or the new
    [fa], [fb], [ea], [eb]. *)
Definition f32_align (a b fa fb ea eb : Z) : Z + (Z * Z * Z * Z) :=
  let diff := ea - eb in
  if 0 <? diff then
    if 24 <? diff then inl a
    else inr (fa, Z.shiftr fb diff, ea, ea)
  else if diff <? 0 then
    let diff := - diff in
    if 24 <? diff then inl b
    else inr (Z.shiftr fa diff, fb, eb, eb)
  else inr (fa, fb, ea, eb).

Definition __addsf3 (a b : Z) : option Z :=
  let ua := f32_to_bits a in
  let ub := f32_to_bits b in
  if Z.land ua 0x7FFFFFFF =? 0 then Some b
  else if Z.land ub 0x7FFFFFFF =? 0 then Some a
  else
    let sa := f32_sign ua in
    let sb := f32_sign ub in
    let ea := f32_exp ua in
    let eb := f32_exp ub in
    let fa := Z.lor (f32_frac ua) 0x800000 in
    let fb := Z.lor (f32_frac ub) 0x800000 in
    if ea =? 0 then Some b
    else if eb =? 0 then Some a
    else
      match f32_align a b fa fb ea eb with
      | inl r => Some r
      | inr (fa, fb, ea, eb) =>
          let '(fr, sr) :=
            if sa =? sb then (wrap64 (fa + fb), sa)
            else if fb <=? fa then (wrap32 (fa - fb), sa)
            else (wrap32 (fb - fa), sb) in
          if fr =? 0 then Some (bits_to_f32 0)
          else
            match f32_shift_down fr ea with
            | None => None
            | Some (fr, er) =>
                match f32_shift_up fr er with
                | None => None
                | Some (fr, er) =>
                    if 255 <=? er
                    then Some (bits_to_f32
                                 (if negb (sr =? 0) then 0xFF800000 else 0x7F800000))
                    else if er <=? 0 then Some (bits_to_f32 (shl32 sr 31))
                    else Some (bits_to_f32
                                 (Z.lor (Z.lor (shl32 sr 31) (shl32 er 23))
                                        (Z.land (wrap32 fr) 0x7FFFFF)))
                end
            end
      end.

Definition __subsf3 (a b : Z) : option Z :=
  let ub := f32_to_bits b in
  __addsf3 a (bits_to_f32 (Z.lxor ub 0x80000000)).

Definition __mulsf3 (a b : Z) : Z :=
  let ua := f32_to_bits a in
  let ub := f32_to_bits b in
  let sa := f32_sign ua in
  let sb := f32_sign ub in
  let ea := f32_exp ua in
  let eb := f32_exp ub in
  let fa := f32_frac ua in
  let fb := f32_frac ub in
  let sr := Z.lxor sa sb in
  if (Z.land ua 0x7FFFFFFF =? 0) || (Z.land ub 0x7FFFFFFF =? 0)
  then bits_to_f32 (shl32 sr 31)
  else if (ea =? 255) || (eb =? 255)
  then bits_to_f32 (Z.lor (shl32 sr 31) 0x7F800000)
  else
    let fa := Z.lor fa 0x800000 in
    let fb := Z.lor fb 0x800000 in
    let fr := wrap64 (fa * fb) in
    let er := ea + eb - 127 in
    let fr := Z.shiftr fr 23 in
    let '(fr, er) :=
      if 0x1000000 <=? fr then (Z.shiftr fr 1, er + 1) else (fr, er) in
    if 255 <=? er then bits_to_f32 (Z.lor (shl32 sr 31) 0x7F800000)
    else if er <=? 0 then bits_to_f32 (shl32 sr 31)
    else bits_to_f32 (Z.lor (Z.lor (shl32 sr 31) (shl32 er 23))
                            (Z.land (wrap32 fr) 0x7FFFFF)).

Definition __divsf3 (a b : Z) : option Z :=
  let ua := f32_to_bits a in
  let ub := f32_to_bits b in
  let sa := f32_sign ua in
  let sb := f32_sign ub in
  let ea := f32_exp ua in
  let eb := f32_exp ub in
  let fa := f32_frac ua in
  let fb := f32_frac ub in
  let sr := Z.lxor sa sb in
  if Z.land ub 0x7FFFFFFF =? 0
  then Some (bits_to_f32 (Z.lor (shl32 sr 31) 0x7F800000))
  else if Z.land ua 0x7FFFFFFF =? 0
  then Some (bits_to_f32 (shl32 sr 31))
  else
    let fa := Z.lor fa 0x800000 in
    let fb := Z.lor fb 0x800000 in
    let fr := shl64 fa 24 / fb in
    let er := ea - eb + 127 in
    match f32_shift_down fr er with
    | None => None
    | Some (fr, er) =>
        match f32_shift_up fr er with
        | None => None
        | Some (fr, er) =>
            if 255 <=? er
            then Some (bits_to_f32 (Z.lor (shl32 sr 31) 0x7F800000))
            else if er <=? 0 then Some (bits_to_f32 (shl32 sr 31))
            else Some (bits_to_f32
                         (Z.lor (Z.lor (shl32 sr 31) (shl32 er 23))
                                (Z.land (wrap32 fr) 0x7FFFFF)))
        end
    end.

(** [while ((ua & 0x80000000) == 0) { ua <<= 1; e--; }] on a [u32]. *)
Definition f32_count_zeros (ua e : Z) : option (Z * Z) :=
  while 32 (fun s => Z.land (fst s) 0x80000000 =? 0)
        (fun s => (wrap32 (Z.shiftl (fst s) 1), snd s - 1)) (ua, e).

(** The argument is the value of the [int]. *)
Definition __floatsisf (a : Z) : option Z :=
  if a =? 0 then Some (bits_to_f32 0)
  else
    let '(s, ua) := if a <? 0 then (1, wrap32 (- a)) else (0, wrap32 a) in
    let e := 127 + 31 in
    match f32_count_zeros ua e with
    | None => None
    | Some (ua, e) =>
        Some (bits_to_f32 (Z.lor (Z.lor (shl32 s 31) (shl32 e 23))
                                 (Z.land (Z.shiftr ua 8) 0x7FFFFF)))
    end.

Definition __fixunssfsi (a : Z) : Z :=
  let ua := f32_to_bits a in
  if negb (f32_sign ua =? 0) then 0
  else
    let e := f32_exp ua in
    let f := Z.lor (f32_frac ua) 0x800000 in
    if e <? 127 then 0
    else if 127 + 32 <=? e then 0xFFFFFFFF
    else
      let shift := e - 127 - 23 in
      if 0 <=? shift then wrap32 (Z.shiftl f shift) else Z.shiftr f (- shift).

Definition __negsf2 (a : Z) : Z :=
  bits_to_f32 (Z.lxor (f32_to_bits a) 0x80000000).

(** *** double (f64) *)

Definition f64_to_bits (f : Z) : Z := f.
Definition bits_to_f64 (u : Z) : Z := u.

Definition f64_sign (a : Z) : Z := Z.land (Z.shiftr a 63) 1.
Definition f64_exp (a : Z) : Z := Z.land (Z.shiftr a 52) 0x7FF.
Definition f64_frac (a : Z) : Z := Z.land a 0xFFFFFFFFFFFFF.
Definition f64_is_nan (a : Z) : bool :=
  (f64_exp a =? 0x7FF) && negb (f64_frac a =? 0).

Definition f64_cmp (a b : Z) (unordered : Z) : Z * Z :=
  let ua := f64_to_bits a in
  let ub := f64_to_bits b in
  if f64_is_nan ua || f64_is_nan ub then (0, 1)
  else if (Z.land ua 0x7FFFFFFFFFFFFFFF =? 0)
          && (Z.land ub 0x7FFFFFFFFFFFFFFF =? 0)
  then (0, unordered)
  else
    let sa := f64_sign ua in
    let sb := f64_sign ub in
    if negb (sa =? sb) then (if negb (sa =? 0) then -1 else 1, unordered)
    else
      let ma := Z.land ua 0x7FFFFFFFFFFFFFFF in
      let mb := Z.land ub 0x7FFFFFFFFFFFFFFF in
      if ma =? mb then (0, unordered)
      else if sa =? 0 then (if ma <? mb then -1 else 1, unordered)
      else (if ma <? mb then 1 else -1, unordered).

Definition __gtdf2 (a b : Z) : Z :=
  let '(cmp, unordered) := f64_cmp a b 0 in
  if negb (unordered =? 0) then -1 else cmp.
Definition __gedf2 (a b : Z) : Z :=
  let '(cmp, unordered) := f64_cmp a b 0 in
  if negb (unordered =? 0) then -1 else cmp.
Definition __ltdf2 (a b : Z) : Z :=
  let '(cmp, unordered) := f64_cmp a b 0 in
  if negb (unordered =? 0) then 1 else cmp.
Definition __ledf2 (a b : Z) : Z :=
  let '(cmp, unordered) := f64_cmp a b 0 in
  if negb (unordered =? 0) then 1 else cmp.
Definition __eqdf2 (a b : Z) : Z :=
  let '(cmp, unordered) := f64_cmp a b 0 in
  if negb (unordered =? 0) then 1
  else if cmp =? 0 then 0 else 1.
Definition __nedf2 (a b : Z) : Z :=
  let '(cmp, unordered) := f64_cmp a b 0 in
  if negb (unordered =? 0) then 1
  else if cmp =? 0 then 0 else 1.
Definition __unorddf2 (a b : Z) : Z :=
  let ua := f64_to_bits a in
  let ub := f64_to_bits b in
  if ((f64_exp ua =? 0x7FF) && negb (f64_frac ua =? 0))
     || ((f64_exp ub =? 0x7FF) && negb (f64_frac ub =? 0))
  then 1 else 0.

(** [mul_u64] returns [( *hi, *lo )]. *)
Definition mul_u64 (a b : Z) : Z * Z :=
  let a_lo := Z.land a 0xFFFFFFFF in
  let a_hi := Z.shiftr a 32 in
  let b_lo := Z.land b 0xFFFFFFFF in
  let b_hi := Z.shiftr b 32 in
  let p0 := wrap64 (a_lo * b_lo) in
  let p1 := wrap64 (a_lo * b_hi) in
  let p2 := wrap64 (a_hi * b_lo) in
  let p3 := wrap64 (a_hi * b_hi) in
  let mid := wrap64 (Z.land p1 0xFFFFFFFF + Z.land p2 0xFFFFFFFF + Z.shiftr p0 32) in
  let hi := wrap64 (p3 + Z.shiftr p1 32 + Z.shiftr p2 32 + Z.shiftr mid 32) in
  let lo := Z.lor (shl64 mid 32) (Z.land p0 0xFFFFFFFF) in
  (hi, lo).

(** One iteration of the loop of [div_u128_u64], on [(q, r, hi, lo)]. *)
Definition div_u128_u64_step (d : Z) (s : Z * Z * Z * Z) : Z * Z * Z * Z :=
  let '(q, r, hi, lo) := s in
  let r := Z.lor (shl64 r 1) (Z.shiftr hi 63) in
  let hi := Z.lor (shl64 hi 1) (Z.shiftr lo 63) in
  let lo := shl64 lo 1 in
  let q := shl64 q 1 in
  if d <=? r then (Z.lor q 1, wrap64 (r - d), hi, lo) else (q, r, hi, lo).

Definition div_u128_u64 (hi lo d : Z) : Z :=
  let '(q, _, _, _) := Nat.iter 128 (div_u128_u64_step d) (0, 0, hi, lo) in q.

(** [while ((a & (1ULL << 63)) == 0) { a <<= 1; e--; }] *)
Definition f64_count_zeros (a e : Z) : option (Z * Z) :=
  while 64 (fun s => Z.land (fst s) (shl64 1 63) =? 0)
        (fun s => (shl64 (fst s) 1, snd s - 1)) (a, e).

Definition u64_to_f64_bits (a sign : Z) : option Z :=
  if a =? 0 then Some (shl64 sign 63)
  else
    let e := 1023 + 63 in
    match f64_count_zeros a e with
    | None => None
    | Some (a, e) =>
        let frac := Z.land (Z.shiftr a 11) 0xFFFFFFFFFFFFF in
        Some (Z.lor (Z.lor (shl64 sign 63) (shl64 e 52)) frac)
    end.

(** The normalisation loops of [__adddf3] and [__divdf3]. *)
Definition f64_shift_down (fr er : Z) : option (Z * Z) :=
  while 64 (fun s => shl64 1 53 <=? fst s)
           (fun s => (Z.shiftr (fst s) 1, snd s + 1)) (fr, er).
Definition f64_shift_up (fr er : Z) : option (Z * Z) :=
  while (Z.to_nat er) (fun s => (fst s <? shl64 1 52) && (0 <? snd s))
        (fun s => (shl64 (fst s) 1, snd s - 1)) (fr, er).

Definition f64_align (a b fa fb ea eb : Z) : Z + (Z * Z * Z * Z) :=
  let diff := ea - eb in
  if 0 <? diff then
    if 60 <? diff then inl a
    else inr (fa, Z.shiftr fb diff, ea, ea)
  else if diff <? 0 then
    let diff := - diff in
    if 60 <? diff then inl b
    else inr (Z.shiftr fa diff, fb, eb, eb)
  else inr (fa, fb, ea, eb).

Definition __adddf3 (a b : Z) : option Z :=
  let ua := f64_to_bits a in
  let ub := f64_to_bits b in
  if Z.land ua 0x7FFFFFFFFFFFFFFF =? 0 then Some b
  else if Z.land ub 0x7FFFFFFFFFFFFFFF =? 0 then Some a
  else
    let sa := f64_sign ua in
    let sb := f64_sign ub in
    let ea := f64_exp ua in
    let eb := f64_exp ub in
    let fa := f64_frac ua in
    let fb := f64_frac ub in
    if ea =? 0 then Some b
    else if eb =? 0 then Some a
    else if ea =? 0x7FF then Some a
    else if eb =? 0x7FF then Some b
    else
      let fa := Z.lor fa (shl64 1 52) in
      let fb := Z.lor fb (shl64 1 52) in
      match f64_align a b fa fb ea eb with
      | inl r => Some r
      | inr (fa, fb, ea, eb) =>
          let '(fr, sr) :=
            if sa =? sb then (wrap64 (fa + fb), sa)
            else if fb <=? fa then (wrap64 (fa - fb), sa)
            else (wrap64 (fb - fa), sb) in
          if fr =? 0 then Some (bits_to_f64 0)
          else
            match f64_shift_down fr ea with
            | None => None
            | Some (fr, er) =>
                match f64_shift_up fr er with
                | None => None
                | Some (fr, er) =>
                    if 0x7FF <=? er
                    then Some (bits_to_f64 (Z.lor (shl64 sr 63) (shl64 0x7FF 52)))
                    else if er <=? 0 then Some (bits_to_f64 (shl64 sr 63))
                    else Some (bits_to_f64
                                 (Z.lor (Z.lor (shl64 sr 63) (shl64 er 52))
                                        (Z.land fr 0xFFFFFFFFFFFFF)))
                end
            end
      end.

Definition __subdf3 (a b : Z) : option Z :=
  let ub := f64_to_bits b in
  __adddf3 a (bits_to_f64 (Z.lxor ub (shl64 1 63))).

Definition __muldf3 (a b : Z) : Z :=
  let ua := f64_to_bits a in
  let ub := f64_to_bits b in
  let sa := f64_sign ua in
  let sb := f64_sign ub in
  let ea := f64_exp ua in
  let eb := f64_exp ub in
  let fa := f64_frac ua in
  let fb := f64_frac ub in
  let sr := Z.lxor sa sb in
  if (Z.land ua 0x7FFFFFFFFFFFFFFF =? 0) || (Z.land ub 0x7FFFFFFFFFFFFFFF =? 0)
  then bits_to_f64 (shl64 sr 63)
  else if (ea =? 0x7FF) || (eb =? 0x7FF)
  then bits_to_f64 (Z.lor (shl64 sr 63) (shl64 0x7FF 52))
  else
    let fa := Z.lor fa (shl64 1 52) in
    let fb := Z.lor fb (shl64 1 52) in
    let '(hi, lo) := mul_u64 fa fb in
    let er := ea + eb - 1023 in
    let fr := Z.lor (shl64 hi 12) (Z.shiftr lo 52) in
    let '(fr, er) :=
      if shl64 1 53 <=? fr then (Z.shiftr fr 1, er + 1) else (fr, er) in
    if 0x7FF <=? er then bits_to_f64 (Z.lor (shl64 sr 63) (shl64 0x7FF 52))
    else if er <=? 0 then bits_to_f64 (shl64 sr 63)
    else bits_to_f64 (Z.lor (Z.lor (shl64 sr 63) (shl64 er 52))
                            (Z.land fr 0xFFFFFFFFFFFFF)).

Definition __divdf3 (a b : Z) : option Z :=
  let ua := f64_to_bits a in
  let ub := f64_to_bits b in
  let sa := f64_sign ua in
  let sb := f64_sign ub in
  let ea := f64_exp ua in
  let eb := f64_exp ub in
  let fa := f64_frac ua in
  let fb := f64_frac ub in
  let sr := Z.lxor sa sb in
  if Z.land ub 0x7FFFFFFFFFFFFFFF =? 0
  then Some (bits_to_f64 (Z.lor (shl64 sr 63) (shl64 0x7FF 52)))
  else if Z.land ua 0x7FFFFFFFFFFFFFFF =? 0
  then Some (bits_to_f64 (shl64 sr 63))
  else if (ea =? 0x7FF) || (eb =? 0x7FF)
  then Some (bits_to_f64 (Z.lor (shl64 sr 63) (shl64 0x7FF 52)))
  else
    let fa := Z.lor fa (shl64 1 52) in
    let fb := Z.lor fb (shl64 1 52) in
    let er := ea - eb + 1023 in
    let num_hi := Z.shiftr fa 11 in
    let num_lo := shl64 fa 53 in
    let fr := div_u128_u64 num_hi num_lo fb in
    match f64_shift_down fr er with
    | None => None
    | Some (fr, er) =>
        match f64_shift_up fr er with
        | None => None
        | Some (fr, er) =>
            if 0x7FF <=? er
            then Some (bits_to_f64 (Z.lor (shl64 sr 63) (shl64 0x7FF 52)))
            else if er <=? 0 then Some (bits_to_f64 (shl64 sr 63))
            else Some (bits_to_f64
                         (Z.lor (Z.lor (shl64 sr 63) (shl64 er 52))
                                (Z.land fr 0xFFFFFFFFFFFFF)))
        end
    end.

Definition __negdf2 (a : Z) : Z :=
  bits_to_f64 (Z.lxor (f64_to_bits a) (shl64 1 63)).

(** The argument is the value of the [int]; [(u64)(unsigned int)a] is
    its 32-bit pattern, zero-extended. *)
Definition __floatsidf (a : Z) : option Z :=
  let sign := 0 in
  let ua := wrap64 (wrap32 a) in
  let '(sign, ua) :=
    if a <? 0 then (1, wrap64 (wrap64 (Z.lnot ua) + 1)) else (sign, ua) in
  match u64_to_f64_bits ua sign with
  | None => None
  | Some r => Some (bits_to_f64 r)
  end.

Definition __fixunsdfsi (a : Z) : Z :=
  let ua := f64_to_bits a in
  if negb (f64_sign ua =? 0) then 0
  else
    let exp := f64_exp ua in
    let frac := Z.lor (f64_frac ua) (shl64 1 52) in
    if exp <? 1023 then 0
    else if 1023 + 32 <=? exp then 0xFFFFFFFF
    else
      let shift := exp - 1023 - 52 in
      let result :=
        if 0 <=? shift then wrap64 (Z.shiftl frac shift)
        else Z.shiftr frac (- shift) in
      wrap32 result.

Definition __fixunsdfdi (a : Z) : Z :=
  let ua := f64_to_bits a in
  if negb (f64_sign ua =? 0) then 0
  else
    let exp := f64_exp ua in
    let frac := Z.lor (f64_frac ua) (shl64 1 52) in
    if exp <? 1023 then 0
    else if 1023 + 64 <=? exp then wrap64 (Z.lnot 0)
    else
      let shift := exp - 1023 - 52 in
      let result :=
        if 0 <=? shift then wrap64 (Z.shiftl frac shift)
        else Z.shiftr frac (- shift) in
      result.

(** *** Categories and values of bit patterns *)

Definition is_i32 (x : Z) : Prop := - 2 ^ 31 <= x < 2 ^ 31.

(** Zero magnitude, finite (exponent field below its maximum), and
    infinity (maximal exponent field, zero fraction). *)
Definition f32_is_zero (a : Z) : bool := Z.land a 0x7FFFFFFF =? 0.
Definition f32_finite (a : Z) : bool := negb (f32_exp a =? 0xFF).
Definition f32_is_inf (a : Z) : bool := (f32_exp a =? 0xFF) && (f32_frac a =? 0).

Definition f64_is_zero (a : Z) : bool := Z.land a 0x7FFFFFFFFFFFFFFF =? 0.
Definition f64_finite (a : Z) : bool := negb (f64_exp a =? 0x7FF).
Definition f64_is_inf (a : Z) : bool := (f64_exp a =? 0x7FF) && (f64_frac a =? 0).

(** A zero, and an infinity, of sign [s]. *)
Definition f32_signed_zero (s r : Z) : Prop :=
  f32_is_zero r = true /\ f32_sign r = s.
Definition f32_signed_inf (s r : Z) : Prop :=
  f32_is_inf r = true /\ f32_sign r = s.
Definition f64_signed_zero (s r : Z) : Prop :=
  f64_is_zero r = true /\ f64_sign r = s.
Definition f64_signed_inf (s r : Z) : Prop :=
  f64_is_inf r = true /\ f64_sign r = s.

(** The pairs on which addition short-circuits to its second operand
    whichever way round: two zeros, or two nonzero subnormals. *)
Definition f32_both_tiny (a b : Z) : bool :=
  (f32_exp a =? 0) && (f32_exp b =? 0) && Bool.eqb (f32_is_zero a) (f32_is_zero b).
Definition f64_both_tiny (a b : Z) : bool :=
  (f64_exp a =? 0) && (f64_exp b =? 0) && Bool.eqb (f64_is_zero a) (f64_is_zero b).

(** The value of a finite pattern, as the integer [f32_scaled] over the
    fixed denominator 2^149 (2^1074 for a double): a normal pattern is
    (-1)^s * (2^23 + frac) * 2^(exp - 150), a subnormal one
    (-1)^s * frac * 2^(-149). *)
Definition f32_scaled (u : Z) : Z :=
  (if f32_sign u =? 0 then 1 else -1)
  * (if f32_exp u =? 0 then f32_frac u
     else (2 ^ 23 + f32_frac u) * 2 ^ (f32_exp u - 1)).
Definition f32_value (u : Z) : Q := f32_scaled u # (2 ^ 149).

Definition f64_scaled (u : Z) : Z :=
  (if f64_sign u =? 0 then 1 else -1)
  * (if f64_exp u =? 0 then f64_frac u
     else (2 ^ 52 + f64_frac u) * 2 ^ (f64_exp u - 1)).
Definition f64_value (u : Z) : Q := f64_scaled u # (2 ^ 1074).

(** The body of [__addsf3] after the alignment of the exponents. *)
Definition f32_add_rest (sa sb fa fb ea : Z) : option Z :=
  let '(fr, sr) :=
    if sa =? sb then (wrap64 (fa + fb), sa)
    else if fb <=? fa then (wrap32 (fa - fb), sa)
    else (wrap32 (fb - fa), sb) in
  if fr =? 0 then Some (bits_to_f32 0)
  else
    match f32_shift_down fr ea with
    | None => None
    | Some (fr, er) =>
        match f32_shift_up fr er with
        | None => None
        | Some (fr, er) =>
            if 255 <=? er
            then Some (bits_to_f32
                         (if negb (sr =? 0) then 0xFF800000 else 0x7F800000))
            else if er <=? 0 then Some (bits_to_f32 (shl32 sr 31))
            else Some (bits_to_f32
                         (Z.lor (Z.lor (shl32 sr 31) (shl32 er 23))
                                (Z.land (wrap32 fr) 0x7FFFFF)))
        end
    end.

Definition f64_add_rest (sa sb fa fb ea : Z) : option Z :=
  let '(fr, sr) :=
    if sa =? sb then (wrap64 (fa + fb), sa)
    else if fb <=? fa then (wrap64 (fa - fb), sa)
    else (wrap64 (fb - fa), sb) in
  if fr =? 0 then Some (bits_to_f64 0)
  else
    match f64_shift_down fr ea with
    | None => None
    | Some (fr, er) =>
        match f64_shift_up fr er with
        | None => None
        | Some (fr, er) =>
            if 0x7FF <=? er
            then Some (bits_to_f64 (Z.lor (shl64 sr 63) (shl64 0x7FF 52)))
            else if er <=? 0 then Some (bits_to_f64 (shl64 sr 63))
            else Some (bits_to_f64
                         (Z.lor (Z.lor (shl64 sr 63) (shl64 er 52))
                                (Z.land fr 0xFFFFFFFFFFFFF)))
        end
    end.

(** *** The remaining conversions *)

(** Conversion of a 64-bit pattern to [long long]. *)
Definition to_i64 (z : Z) : Z :=
  let u := wrap64 z in if u <? 2 ^ 63 then u else u - 2 ^ 64.

Definition is_i64 (x : Z) : Prop := - 2 ^ 63 <= x < 2 ^ 63.

(** The result is the value of the returned [int]. *)
Definition __fixsfsi (a : Z) : Z :=
  let ua := f32_to_bits a in
  let s := f32_sign ua in
  let e := f32_exp ua in
  let f := Z.lor (f32_frac ua) 0x800000 in
  if e <? 127 then 0
  else if 127 + 31 <=? e
  then (if negb (s =? 0) then -2147483647 - 1 else 2147483647)
  else
    let shift := e - 127 - 23 in
    let result :=
      if 0 <=? shift then to_i32 (wrap32 (Z.shiftl f shift))
      else to_i32 (Z.shiftr f (- shift)) in
    if negb (s =? 0) then to_i32 (- result) else result.

Definition __floatunsisf (a : Z) : option Z :=
  if a =? 0 then Some (bits_to_f32 0)
  else
    let e := 127 + 31 in
    let ua := a in
    match f32_count_zeros ua e with
    | None => None
    | Some (ua, e) =>
        Some (bits_to_f32 (Z.lor (shl32 e 23) (Z.land (Z.shiftr ua 8) 0x7FFFFF)))
    end.

Definition __floatunsidf (a : Z) : option Z :=
  match u64_to_f64_bits (wrap64 a) 0 with
  | None => None
  | Some r => Some (bits_to_f64 r)
  end.

(** The argument is the value of the [long long]. *)
Definition __floatdidf (a : Z) : option Z :=
  let sign := 0 in
  let ua := wrap64 a in
  let '(sign, ua) :=
    if a <? 0 then (1, wrap64 (wrap64 (Z.lnot ua) + 1)) else (sign, ua) in
  match u64_to_f64_bits ua sign with
  | None => None
  | Some r => Some (bits_to_f64 r)
  end.

Definition __floatundidf (a : Z) : option Z :=
  match u64_to_f64_bits (wrap64 a) 0 with
  | None => None
  | Some r => Some (bits_to_f64 r)
  end.

Definition __fixdfsi (a : Z) : Z :=
  let ua := f64_to_bits a in
  let sign := f64_sign ua in
  let exp := f64_exp ua in
  let frac := Z.lor (f64_frac ua) (shl64 1 52) in
  if exp <? 1023 then 0
  else if 1023 + 31 <=? exp
  then (if negb (sign =? 0) then -2147483647 - 1 else 2147483647)
  else
    let shift := exp - 1023 - 52 in
    let result :=
      if 0 <=? shift then wrap64 (Z.shiftl frac shift)
      else Z.shiftr frac (- shift) in
    if negb (sign =? 0) then to_i32 (- to_i32 result) else to_i32 result.

Definition __fixdfdi (a : Z) : Z :=
  let ua := f64_to_bits a in
  let sign := f64_sign ua in
  let exp := f64_exp ua in
  let frac := Z.lor (f64_frac ua) (shl64 1 52) in
  if exp <? 1023 then 0
  else if 1023 + 63 <=? exp
  then (if negb (sign =? 0) then to_i64 (shl64 1 63)
        else to_i64 (wrap64 (shl64 1 63 - 1)))
  else
    let shift := exp - 1023 - 52 in
    let result :=
      if 0 <=? shift then wrap64 (Z.shiftl frac shift)
      else Z.shiftr frac (- shift) in
    if negb (sign =? 0) then to_i64 (- to_i64 result) else to_i64 result.

(** The magnitude of a pattern (all bits but the sign), and the integer
    part of a value given over the denominator [2 ^ d], truncated
    toward zero. *)
Definition f32_mag (a : Z) : Z := Z.land a 0x7FFFFFFF.
Definition f64_mag (a : Z) : Z := Z.land a 0x7FFFFFFFFFFFFFFF.
Definition truncate (scaled d : Z) : Z := Z.quot scaled (2 ^ d).

(** The integer [a] with all but its [bits] leading binary digits
    cleared. *)
Definition keep_leading (bits a : Z) : Z :=
  let t := Z.max 0 (Z.log2 a + 1 - bits) in a / 2 ^ t * 2 ^ t.

End SoftFloat.

(** ** Facts on bit operations *)

Lemma testbit_high (x n i : Z) :
  0 <= x < 2 ^ n -> 0 <= n <= i -> Z.testbit x i = false.
Proof.
  intros Hx Hi. rewrite <- (Z.mod_small x (2 ^ n)) by assumption.
  apply Z.mod_pow2_bits_high. assumption.
Qed.

Lemma lor_shift_add (hi lo n : Z) :
  0 <= n -> 0 <= lo < 2 ^ n -> Z.lor (hi * 2 ^ n) lo = hi * 2 ^ n + lo.
Proof.
  intros Hn Hlo.
  assert (Hdisj : Z.land (hi * 2 ^ n) lo = 0).
  { apply Z.bits_inj'. intros i Hi.
    rewrite Z.land_spec, Z.bits_0.
    destruct (Z.lt_ge_cases i n) as [Hlt | Hge].
    - rewrite Z.mul_pow2_bits_low by assumption. reflexivity.
    - rewrite (testbit_high lo n) by lia. apply Bool.andb_false_r. }
  rewrite <- Z.lxor_lor by assumption.
  symmetry. apply Z.add_nocarry_lxor. assumption.
Qed.

Lemma land_clear_low3 (x : Z) :
  0 <= x < 2 ^ 64 -> Z.land x (2 ^ 64 - 8) = x - x mod 8.
Proof.
  intros Hx.
  replace (x - x mod 8) with (Z.shiftl (Z.shiftr x 3) 3).
  2:{ rewrite Z.shiftl_mul_pow2, Z.shiftr_div_pow2 by lia.
      change (2 ^ 3) with 8. pose proof (Z.div_mod x 8). lia. }
  change (2 ^ 64 - 8) with (Z.shiftl (Z.ones 61) 3).
  Z.bitblast.
  rewrite (testbit_high x 64) by lia. reflexivity.
Qed.

(** ** The allocator: proofs *)

Module AllocFacts.
Import Alloc.

(** Unfolds the monad and the field updates. *)
Ltac run :=
  unfold bind, get, modify, ret, fb_alloc_panic in *;
  cbn [fb_heap_ptr fb_heap_end fb_heap_segment_start fb_heap_segment_count
       fb_heap_segment_index fb_heap_segment_bytes fb_heap_segment_offset
       fb_heap_use_segments set_bounds set_index set_config set_use_segments]
    in *.

Lemma fb_align_up_8 (size : Z) :
  0 <= size <= 2 ^ 64 - 8 ->
  fb_align_up size 8 = size + 7 - (size + 7) mod 8.
Proof.
  intros H. unfold fb_align_up.
  change (wrap64 (Z.lnot (wrap64 (8 - 1)))) with (2 ^ 64 - 8).
  replace (size + 8 - 1) with (size + 7) by lia.
  unfold wrap64. rewrite (Z.mod_small (size + 7)) by lia.
  apply land_clear_low3. lia.
Qed.

Lemma fb_align_up_8_bounds (size : Z) :
  0 < size <= 2 ^ 64 - 8 ->
  size <= fb_align_up size 8 < size + 8 /\ 8 <= fb_align_up size 8 /\
  fb_align_up size 8 mod 8 = 0.
Proof.
  intros H. rewrite fb_align_up_8 by lia.
  pose proof (Z.mod_pos_bound (size + 7) 8 ltac:(lia)) as Hm.
  pose proof (Z.div_mod (size + 7) 8 ltac:(lia)) as Hd.
  replace (size + 7 - (size + 7) mod 8) with (((size + 7) / 8) * 8) by lia.
  rewrite Z.mod_mul by lia. lia.
Qed.

Lemma segment_addr_eq (seg off : Z) :
  0 <= seg < 2 ^ 32 -> 0 <= off < 2 ^ 28 ->
  FB_SEGMENT_ADDR seg off = seg * 2 ^ 28 + off.
Proof.
  intros Hs Ho. unfold FB_SEGMENT_ADDR, wrap64.
  rewrite Z.shiftl_mul_pow2 by lia.
  rewrite Z.mod_small by lia.
  change 0x0FFFFFFF with (Z.ones 28).
  rewrite Z.land_ones, (Z.mod_small off) by lia.
  apply lor_shift_add; lia.
Qed.

Section WithConfig.

Variable c : config.
Hypothesis WF : well_formed c.

Local Abbreviation Inv := (Alloc.Inv c).
Local Abbreviation ready := (Alloc.ready c).
Local Abbreviation used := (Alloc.used c).
Local Abbreviation next_segment := (Alloc.next_segment c).
Local Abbreviation step_ok := (Alloc.step_ok c).
Local Abbreviation chain := (Alloc.chain c).

Lemma segment_offset_bounds k : 0 <= segment_offset c k < cfg_bytes c.
Proof.
  unfold segment_offset. destruct WF as (? & ? & ? & ? & ?).
  destruct (k =? 0); lia.
Qed.

Lemma segment_base_eq k :
  0 <= k < cfg_count c ->
  segment_base c k = (cfg_start c + k) * 2 ^ 28 + segment_offset c k.
Proof.
  intros Hk. pose proof (segment_offset_bounds k).
  destruct WF as (? & ? & ? & ? & ?).
  unfold segment_base, wrap32. rewrite Z.mod_small by lia.
  apply segment_addr_eq; lia.
Qed.

Lemma segment_end_eq k :
  0 <= k < cfg_count c ->
  segment_end c k = (cfg_start c + k) * 2 ^ 28 + cfg_bytes c.
Proof.
  intros Hk. pose proof (segment_offset_bounds k).
  destruct WF as (? & ? & ? & ? & ?).
  unfold segment_end, wrap64. rewrite segment_base_eq by assumption.
  rewrite Z.mod_small by lia. lia.
Qed.

Lemma Inv_ptr_bounds h :
  Inv h ->
  2 ^ 28 <= fb_heap_ptr h <= fb_heap_end h /\ fb_heap_end h <= 2 ^ 60.
Proof.
  intros [].
  pose proof (segment_offset_bounds (fb_heap_segment_index h)).
  rewrite segment_base_eq in inv_ptr0 by assumption.
  rewrite inv_end0 in *. rewrite segment_end_eq in * by assumption.
  destruct WF as (? & ? & ? & ? & ?). lia.
Qed.

Lemma used_eq h :
  Inv h ->
  used h = fb_heap_segment_index h * cfg_bytes c - cfg_offset c
           + (fb_heap_ptr h - (cfg_start c + fb_heap_segment_index h) * 2 ^ 28).
Proof.
  intros HI. pose proof (Inv_ptr_bounds h HI). unfold Alloc.used, NULL.
  destruct (Z.eqb_spec (fb_heap_ptr h) 0); [lia|reflexivity].
Qed.

Lemma set_segment_ok h k :
  fb_heap_segment_start h = cfg_start c ->
  fb_heap_segment_count h = cfg_count c ->
  fb_heap_segment_bytes h = cfg_bytes c ->
  fb_heap_segment_offset h = cfg_offset c ->
  0 <= k < cfg_count c ->
  fb_heap_set_segment k h
  = Done tt (set_bounds (segment_base c k) (segment_end c k) h).
Proof.
  intros Hs Hc Hb Ho Hk. pose proof (segment_offset_bounds k) as Hoff.
  destruct WF as (? & ? & ? & ? & ?).
  unfold fb_heap_set_segment. run. rewrite Hs, Hc, Hb, Ho.
  destruct (Z.eqb_spec (cfg_start c) 0); [lia|].
  destruct (Z.eqb_spec (cfg_count c) 0); [lia|]. cbn [orb].
  destruct (Z.leb_spec (cfg_count c) k); [lia|].
  fold (segment_offset c k).
  destruct (Z.leb_spec (cfg_bytes c) (segment_offset c k)); [lia|].
  reflexivity.
Qed.

Lemma configure_ok h :
  exists h0, configure c h = Done tt h0 /\ Inv h0 /\
             fb_heap_segment_index h0 = 0 /\ fb_heap_ptr h0 = segment_base c 0.
Proof.
  pose proof WF as (? & ? & ? & ? & ?).
  unfold configure, fb_heap_init_segments.
  destruct (Z.eqb_spec (cfg_start c) 0); [lia|].
  destruct (Z.eqb_spec (cfg_count c) 0); [lia|].
  destruct (Z.eqb_spec (cfg_bytes c) 0); [lia|]. cbn [orb].
  unfold bind at 1. unfold modify at 1.
  rewrite set_segment_ok by (cbn; lia).
  eexists; split; [reflexivity|].
  pose proof (segment_base_eq 0 ltac:(lia)). pose proof (segment_end_eq 0 ltac:(lia)).
  pose proof (segment_offset_bounds 0).
  split; [|split; reflexivity].
  constructor; cbn; try reflexivity; lia.
Qed.

Lemma retry_unfold fuel size h :
  fb_malloc_retry fuel size h =
  if fb_heap_end h <? wrap64 (fb_heap_ptr h + size) then
    if fb_heap_use_segments h
       && (wrap32 (fb_heap_segment_index h + 1) <? fb_heap_segment_count h)
    then match fuel with
         | O => OutOfFuel
         | S fuel' =>
             match fb_heap_set_segment (wrap32 (fb_heap_segment_index h + 1))
                     (set_index (wrap32 (fb_heap_segment_index h + 1)) h) with
             | Done _ h2 => fb_malloc_retry fuel' size h2
             | Panic msg => Panic msg
             | OutOfFuel => OutOfFuel
             end
         end
    else Done NULL h
  else Done (fb_heap_ptr h)
            (set_bounds (wrap64 (fb_heap_ptr h + size)) (fb_heap_end h) h).
Proof. destruct fuel; reflexivity. Qed.

Lemma retry_fits fuel size h :
  Inv h -> 0 <= size <= max_request ->
  fb_heap_ptr h + size <= fb_heap_end h ->
  fb_malloc_retry fuel size h
  = Done (fb_heap_ptr h) (set_bounds (fb_heap_ptr h + size) (fb_heap_end h) h).
Proof.
  intros HI Hs Hfit. pose proof (Inv_ptr_bounds h HI).
  rewrite retry_unfold. unfold wrap64. rewrite Z.mod_small by lia.
  destruct (Z.ltb_spec (fb_heap_end h) (fb_heap_ptr h + size)); [lia|reflexivity].
Qed.

Lemma retry_advance fuel size h :
  Inv h -> 0 <= size <= max_request ->
  fb_heap_end h < fb_heap_ptr h + size ->
  fb_heap_segment_index h + 1 < cfg_count c ->
  fb_malloc_retry (S fuel) size h = fb_malloc_retry fuel size (next_segment h).
Proof.
  intros HI Hs Hfit Hk. pose proof (Inv_ptr_bounds h HI).
  pose proof WF as (? & ? & ? & ? & ?). pose proof HI as [].
  rewrite retry_unfold. unfold wrap64, wrap32, max_request in *.
  rewrite !Z.mod_small by lia.
  destruct (Z.ltb_spec (fb_heap_end h) (fb_heap_ptr h + size)); [|lia].
  rewrite inv_use0, inv_count0.
  destruct (Z.ltb_spec (fb_heap_segment_index h + 1) (cfg_count c)); [|lia].
  cbn [andb]. rewrite set_segment_ok by (cbn; lia). reflexivity.
Qed.

Lemma retry_exhausted fuel size h :
  Inv h -> 0 <= size <= max_request ->
  fb_heap_end h < fb_heap_ptr h + size ->
  fb_heap_segment_index h + 1 = cfg_count c ->
  fb_malloc_retry fuel size h = Done NULL h.
Proof.
  intros HI Hs Hfit Hk. pose proof (Inv_ptr_bounds h HI).
  pose proof WF as (? & ? & ? & ? & ?). pose proof HI as [].
  rewrite retry_unfold. unfold wrap64, wrap32, max_request in *.
  rewrite !Z.mod_small by lia.
  destruct (Z.ltb_spec (fb_heap_end h) (fb_heap_ptr h + size)); [|lia].
  rewrite inv_use0, inv_count0.
  destruct (Z.ltb_spec (fb_heap_segment_index h + 1) (cfg_count c)); [lia|].
  reflexivity.
Qed.

Lemma Inv_next_segment h :
  Inv h -> fb_heap_segment_index h + 1 < cfg_count c -> Inv (next_segment h).
Proof.
  intros [] Hk. pose proof (segment_offset_bounds (fb_heap_segment_index h + 1)).
  pose proof (segment_base_eq (fb_heap_segment_index h + 1) ltac:(lia)).
  pose proof (segment_end_eq (fb_heap_segment_index h + 1) ltac:(lia)).
  constructor; cbn; try assumption; try reflexivity; lia.
Qed.

Lemma Inv_bump h size :
  Inv h -> 0 <= size -> fb_heap_ptr h + size <= fb_heap_end h ->
  Inv (set_bounds (fb_heap_ptr h + size) (fb_heap_end h) h).
Proof. intros [] Hs Hfit. constructor; cbn; try assumption; lia. Qed.

Lemma used_next_segment h :
  Inv h -> fb_heap_segment_index h + 1 < cfg_count c ->
  used h <= used (next_segment h).
Proof.
  intros HI Hk. pose proof HI as [].
  pose proof (segment_base_eq (fb_heap_segment_index h + 1) ltac:(lia)) as Hb.
  pose proof (segment_end_eq (fb_heap_segment_index h) ltac:(lia)) as He.
  rewrite (used_eq h HI), (used_eq _ (Inv_next_segment h HI Hk)).
  cbn. rewrite Hb. unfold segment_offset.
  destruct (Z.eqb_spec (fb_heap_segment_index h + 1) 0); [lia|]. lia.
Qed.

Lemma retry_fits_ok size h :
  Inv h -> 8 <= size <= max_request ->
  fb_heap_ptr h + size <= fb_heap_end h ->
  step_ok size h (fb_heap_ptr h)
          (set_bounds (fb_heap_ptr h + size) (fb_heap_end h) h).
Proof.
  intros HI Hs Hfit. pose proof (Inv_ptr_bounds h HI) as Hb.
  assert (HI' : Inv (set_bounds (fb_heap_ptr h + size) (fb_heap_end h) h))
    by (apply Inv_bump; assumption || lia).
  constructor; cbn; unfold NULL; try lia.
  - left. exact HI'.
  - rewrite (used_eq h HI), (used_eq _ HI'). cbn.
    destruct (Z.eqb_spec (fb_heap_ptr h) 0); lia.
  - pose proof HI as []. lia.
Qed.

Lemma retry_null_ok size h : Inv h -> step_ok size h NULL h.
Proof.
  intros HI. constructor; unfold NULL; cbn; try lia.
  left. exact HI.
Qed.

Lemma retry_spec size fuel : forall h,
  Inv h -> 8 <= size <= max_request ->
  cfg_count c - 1 - fb_heap_segment_index h <= Z.of_nat fuel ->
  exists p h', fb_malloc_retry fuel size h = Done p h' /\ step_ok size h p h'.
Proof.
  induction fuel as [|fuel IH]; intros h HI Hs Hfuel;
    pose proof (Inv_ptr_bounds h HI) as Hb; pose proof HI as [].
  - destruct (Z.le_gt_cases (fb_heap_ptr h + size) (fb_heap_end h)) as [Hfit|Hfit].
    + rewrite retry_fits by (assumption || lia).
      do 2 eexists; split; [reflexivity|]. apply retry_fits_ok; assumption.
    + rewrite retry_exhausted by (assumption || lia).
      do 2 eexists; split; [reflexivity|]. apply retry_null_ok; assumption.
  - destruct (Z.le_gt_cases (fb_heap_ptr h + size) (fb_heap_end h)) as [Hfit|Hfit].
    + rewrite retry_fits by (assumption || lia).
      do 2 eexists; split; [reflexivity|]. apply retry_fits_ok; assumption.
    + destruct (Z.eq_dec (fb_heap_segment_index h + 1) (cfg_count c)) as [Hk|Hk].
      * rewrite retry_exhausted by (assumption || lia).
        do 2 eexists; split; [reflexivity|]. apply retry_null_ok; assumption.
      * assert (Hlt : fb_heap_segment_index h + 1 < cfg_count c) by lia.
        rewrite retry_advance by (assumption || lia).
        pose proof (Inv_next_segment h HI Hlt) as HI'.
        pose proof (used_next_segment h HI Hlt) as Hu.
        destruct (IH (next_segment h) HI' Hs) as (p & h' & Heq & []).
        { cbn. lia. }
        exists p, h'. split; [assumption|].
        assert (Hp : fb_heap_ptr h <= fb_heap_ptr (next_segment h)).
        { cbn. rewrite segment_base_eq by lia.
          rewrite inv_end0, segment_end_eq in Hb by lia.
          pose proof (segment_offset_bounds (fb_heap_segment_index h + 1)).
          pose proof WF as (? & ? & ? & ? & ?). lia. }
        cbn in st_index0.
        constructor; try assumption; lia.
Qed.

Lemma segments_left_eq h :
  Inv h -> Z.of_nat (segments_left h) = cfg_count c - 1 - fb_heap_segment_index h.
Proof.
  intros []. pose proof WF as (? & ? & ? & ? & ?).
  unfold segments_left, wrap32. rewrite inv_count0.
  rewrite Z.mod_small by lia. lia.
Qed.

Lemma fb_malloc_eq size h :
  Inv h -> 0 < size ->
  fb_malloc size h = fb_malloc_retry (segments_left h) (fb_align_up size 8) h.
Proof.
  intros HI Hs. pose proof (Inv_ptr_bounds h HI).
  unfold fb_malloc. destruct (Z.eqb_spec size 0); [lia|].
  unfold fb_heap_init_default. run. unfold NULL.
  destruct (Z.eqb_spec (fb_heap_ptr h) 0); [lia|].
  destruct (Z.eqb_spec (fb_heap_end h) 0); [lia|]. reflexivity.
Qed.

Lemma fb_malloc_spec size h :
  Inv h -> request_ok size ->
  exists p h', fb_malloc size h = Done p h' /\
               step_ok (fb_align_up size 8) h p h'.
Proof.
  intros HI Hs. unfold request_ok, max_request in Hs.
  destruct (Z.eq_dec size 0) as [->|Hnz].
  - exists NULL, h. split; [reflexivity|]. apply retry_null_ok; assumption.
  - rewrite fb_malloc_eq by (assumption || lia).
    pose proof (fb_align_up_8_bounds size ltac:(lia)) as (Ha & Hb & Hc).
    apply retry_spec; [assumption| |rewrite segments_left_eq by assumption; lia].
    split; [lia|]. unfold max_request.
    pose proof (Z.div_mod (fb_align_up size 8) 8 ltac:(lia)). lia.
Qed.

(** The first request on an unconfigured heap applies the default
    configuration and goes on as on the configured heap. *)
Lemma fb_malloc_at_start size :
  c = default_config -> size <> 0 ->
  exists h0, Inv h0 /\ fb_heap_segment_index h0 = 0 /\ used h0 = 0 /\
             fb_malloc size heap_at_start = fb_malloc size h0.
Proof.
  intros Hc Hnz.
  destruct (configure_ok heap_at_start) as (h0 & Hcfg & HI & Hidx & Hptr).
  exists h0. split; [assumption|]. split; [assumption|].
  pose proof (Inv_ptr_bounds h0 HI). pose proof WF as (? & ? & ? & ? & ?).
  split.
  { rewrite (used_eq h0 HI), Hidx, Hptr, segment_base_eq by lia. cbn. lia. }
  assert (Hinit : fb_heap_init_default heap_at_start = Done tt h0)
    by (rewrite <- Hcfg, Hc; reflexivity).
  unfold fb_malloc. destruct (Z.eqb_spec size 0); [contradiction|].
  unfold bind at 1. rewrite Hinit.
  unfold bind at 2. unfold fb_heap_init_default, bind, get, ret, NULL.
  destruct (Z.eqb_spec (fb_heap_ptr h0) 0); [lia|].
  destruct (Z.eqb_spec (fb_heap_end h0) 0); [lia|]. reflexivity.
Qed.

Lemma fb_malloc_ready size h :
  ready h -> request_ok size ->
  exists p h', fb_malloc size h = Done p h' /\
               step_ok (fb_align_up size 8) h p h'.
Proof.
  intros [HI|[Hc ->]] Hs; [apply fb_malloc_spec; assumption|].
  destruct (Z.eq_dec size 0) as [->|Hnz].
  - exists NULL, heap_at_start. split; [reflexivity|].
    constructor; unfold NULL; cbn; try lia. right. auto.
  - destruct (fb_malloc_at_start size Hc Hnz) as (h0 & HI & Hidx & Hu & ->).
    destruct (fb_malloc_spec size h0 HI Hs) as (p & h' & Hm & []).
    pose proof (Inv_ptr_bounds h0 HI).
    exists p, h'. split; [assumption|].
    constructor; try assumption.
    + change (fb_heap_segment_index heap_at_start) with 0. lia.
    + change (fb_heap_ptr heap_at_start) with 0. lia.
    + change (used heap_at_start) with 0. lia.
    + intros Hp. specialize (st_from0 Hp).
      change (fb_heap_ptr heap_at_start) with 0. lia.
Qed.

Lemma seq_spec sizes : forall h,
  ready h -> Forall request_ok sizes ->
  exists tr hf, fb_malloc_seq sizes h = Done tr hf /\ chain h tr hf.
Proof.
  induction sizes as [|size rest IH]; intros h HI Hs.
  - exists [], h. split; [reflexivity|constructor].
  - inversion Hs as [|? ? Hsize Hrest]; subst.
    destruct (fb_malloc_ready size h HI Hsize) as (p & h' & Hm & Hstep).
    destruct (IH h' (st_ready _ _ _ _ _ Hstep) Hrest) as (tr & hf & Hseq & Hch).
    exists (mkAlloc p (fb_align_up size 8) h h' :: tr), hf.
    split.
    + cbn [fb_malloc_seq]. unfold bind, get, ret. rewrite Hm, Hseq. reflexivity.
    + constructor; cbn; auto.
Qed.

Lemma chain_ready h tr hf : ready h -> chain h tr hf -> ready hf.
Proof.
  intros HI Hch. induction Hch as [|h a tr hf _ Hstep _ IH]; [assumption|].
  apply IH. exact (st_ready _ _ _ _ _ Hstep).
Qed.

Lemma chain_used h tr hf : chain h tr hf -> used h + granted tr <= used hf.
Proof.
  induction 1 as [|h a tr hf _ Hstep _ IH]; cbn [granted fold_right]; [lia|].
  pose proof (st_used _ _ _ _ _ Hstep). fold (granted tr). lia.
Qed.

(** Every call of the chain starts at or after the chain's first state,
    and satisfies the one-call specification. *)
Lemma chain_In h tr hf a :
  chain h tr hf -> In a tr ->
  fb_heap_segment_index h <= fb_heap_segment_index (a_before a) /\
  fb_heap_ptr h <= fb_heap_ptr (a_before a) /\
  step_ok (a_size a) (a_before a) (a_ptr a) (a_after a).
Proof.
  induction 1 as [|h b tr hf Hb Hstep _ IH]; intros Hin; [destruct Hin|].
  destruct Hin as [->|Hin].
  - rewrite Hb. split; [lia|split; [lia|assumption]].
  - destruct (IH Hin) as (? & ? & ?).
    pose proof (st_index _ _ _ _ _ Hstep). pose proof (st_cursor _ _ _ _ _ Hstep).
    split; [lia|split; [lia|assumption]].
Qed.

Lemma chain_ordered h tr hf : chain h tr hf ->
  forall i j a b, (i < j)%nat ->
    nth_error tr i = Some a -> nth_error tr j = Some b ->
    fb_heap_segment_index (a_after a) <= fb_heap_segment_index (a_before b) /\
    fb_heap_ptr (a_after a) <= fb_heap_ptr (a_before b).
Proof.
  induction 1 as [|h x tr hf Hb Hstep Hch IH]; intros i j a b Hij Ha Hbj.
  - destruct i; discriminate.
  - destruct j as [|j]; [lia|]. cbn in Hbj.
    destruct i as [|i]; cbn in Ha.
    + injection Ha as <-.
      destruct (chain_In _ _ _ b Hch (nth_error_In _ _ Hbj)) as (? & ? & _).
      split; assumption.
    + apply (IH i j); [lia|assumption..].
Qed.

Lemma chain_no_overlap h tr hf : chain h tr hf -> no_overlap tr.
Proof.
  intros Hch.
  assert (Hlt : forall i j a b, (i < j)%nat ->
            nth_error tr i = Some a -> nth_error tr j = Some b ->
            a_ptr a <> NULL -> a_ptr b <> NULL ->
            a_ptr a + a_size a <= a_ptr b).
  { intros i j a b Hij Ha Hb Hna Hnb.
    destruct (chain_ordered _ _ _ Hch i j a b Hij Ha Hb) as (_ & Hp).
    destruct (chain_In _ _ _ a Hch (nth_error_In _ _ Ha)) as (_ & _ & Hsa).
    destruct (chain_In _ _ _ b Hch (nth_error_In _ _ Hb)) as (_ & _ & Hsb).
    pose proof (st_to _ _ _ _ _ Hsa Hna). pose proof (st_from _ _ _ _ _ Hsb Hnb). lia. }
  intros i j a b Hij Ha Hb Hna Hnb [Ho1 Ho2].
  destruct (Nat.lt_total i j) as [Hl|[He|Hl]]; [|contradiction|].
  - pose proof (Hlt i j a b Hl Ha Hb Hna Hnb). lia.
  - pose proof (Hlt j i b a Hl Hb Ha Hnb Hna). lia.
Qed.

Lemma chain_cursor_monotone h tr hf : chain h tr hf -> cursor_monotone tr.
Proof.
  intros Hch i j a b Hij Ha Hb.
  destruct (chain_In _ _ _ a Hch (nth_error_In _ _ Ha)) as (_ & _ & Hsa).
  destruct (chain_In _ _ _ b Hch (nth_error_In _ _ Hb)) as (_ & _ & Hsb).
  pose proof (st_index _ _ _ _ _ Hsa). pose proof (st_cursor _ _ _ _ _ Hsa).
  pose proof (st_index _ _ _ _ _ Hsb). pose proof (st_cursor _ _ _ _ _ Hsb).
  destruct (Nat.eq_dec i j) as [->|Hne].
  - rewrite Ha in Hb. injection Hb as <-. split; lia.
  - destruct (chain_ordered _ _ _ Hch i j a b ltac:(lia) Ha Hb). split; lia.
Qed.

Lemma chain_in_one_segment h tr hf : chain h tr hf -> in_one_segment c tr.
Proof.
  intros Hch a Hin Hnn.
  destruct (chain_In _ _ _ a Hch Hin) as (_ & _ & []).
  specialize (st_size0 Hnn). specialize (st_base0 Hnn). specialize (st_to0 Hnn).
  destruct st_ready0 as [[]|[Hc Hstart]].
  2:{ rewrite Hstart in st_base0, st_to0. rewrite Hc in st_base0.
      change (segment_base default_config (fb_heap_segment_index heap_at_start))
        with 268435456 in st_base0.
      change (fb_heap_ptr heap_at_start) with 0 in st_to0. lia. }
  exists (fb_heap_segment_index (a_after a)). split.
  - repeat split; lia.
  - intros k' (Hk' & Hlo & Hhi).
    pose proof (segment_offset_bounds k').
    pose proof (segment_offset_bounds (fb_heap_segment_index (a_after a))).
    rewrite segment_base_eq in * by assumption.
    rewrite inv_end0 in *. rewrite segment_end_eq in * by assumption.
    pose proof WF as (? & ? & ? & ? & ?). lia.
Qed.

(** Once the bytes handed out reach the capacity, the heap is full and
    stays as it is: every call returns [NULL]. *)
Lemma used_le_capacity h : Inv h -> used h <= capacity c.
Proof.
  intros HI. rewrite (used_eq h HI). destruct HI.
  pose proof WF as (? & ? & ? & ? & ?).
  rewrite inv_end0, segment_end_eq in inv_ptr0 by assumption.
  unfold capacity.
  assert ((fb_heap_segment_index h + 1) * cfg_bytes c <= cfg_count c * cfg_bytes c)
    by (apply Z.mul_le_mono_nonneg_r; lia).
  lia.
Qed.

Lemma full_heap h :
  Inv h -> capacity c <= used h ->
  fb_heap_segment_index h + 1 = cfg_count c /\ fb_heap_ptr h = fb_heap_end h.
Proof.
  intros HI. rewrite (used_eq h HI). destruct HI.
  pose proof WF as (? & ? & ? & ? & ?).
  rewrite inv_end0 in *. rewrite segment_end_eq in * by assumption.
  unfold capacity. intros Hcap.
  destruct (Z.eq_dec (fb_heap_segment_index h + 1) (cfg_count c)) as [He|Hne].
  - split; [assumption|]. rewrite <- He in Hcap. lia.
  - assert ((fb_heap_segment_index h + 2) * cfg_bytes c <= cfg_count c * cfg_bytes c)
      by (apply Z.mul_le_mono_nonneg_r; lia).
    lia.
Qed.

(** A heap on which the capacity is used up is a configured one. *)
Lemma full_heap_Inv h : ready h -> capacity c <= used h -> Inv h.
Proof.
  intros [HI|[Hc ->]] Hcap; [assumption|].
  rewrite Hc in Hcap. vm_compute in Hcap. contradiction Hcap. reflexivity.
Qed.

Lemma full_heap_null size h :
  Inv h -> capacity c <= used h -> request_ok size ->
  fb_malloc size h = Done NULL h.
Proof.
  intros HI Hfull Hs. destruct (full_heap h HI Hfull) as [Hk Hp].
  unfold request_ok, max_request in Hs.
  destruct (Z.eq_dec size 0) as [->|Hnz]; [reflexivity|].
  rewrite fb_malloc_eq by (assumption || lia).
  pose proof (fb_align_up_8_bounds size ltac:(lia)) as (Ha & Hb & Hc).
  apply retry_exhausted; try assumption; try lia.
  unfold max_request.
  pose proof (Z.div_mod (fb_align_up size 8) 8 ltac:(lia)). lia.
Qed.

Lemma full_heap_seq sizes h :
  Inv h -> capacity c <= used h -> Forall request_ok sizes ->
  exists tr, fb_malloc_seq sizes h = Done tr h /\
             Forall (fun a => a_ptr a = NULL) tr /\ List.length tr = List.length sizes.
Proof.
  intros HI Hfull. induction 1 as [|size rest Hs _ (tr & Hseq & Hall & Hlen)].
  - exists []. repeat split. constructor.
  - eexists. cbn [fb_malloc_seq]. unfold bind, get, ret.
    rewrite (full_heap_null size h HI Hfull Hs), Hseq.
    split; [reflexivity|]. split; [constructor; [reflexivity|assumption]|].
    cbn. congruence.
Qed.

Lemma configure_eq h :
  configure c h
  = Done tt (mkHeap (segment_base c 0) (segment_end c 0) (cfg_start c)
                    (cfg_count c) 0 (cfg_bytes c) (cfg_offset c) true).
Proof.
  pose proof WF as (? & ? & ? & ? & ?).
  unfold configure, fb_heap_init_segments.
  destruct (Z.eqb_spec (cfg_start c) 0); [lia|].
  destruct (Z.eqb_spec (cfg_count c) 0); [lia|].
  destruct (Z.eqb_spec (cfg_bytes c) 0); [lia|]. cbn [orb].
  unfold bind at 1. unfold modify at 1.
  rewrite set_segment_ok by (cbn; lia). reflexivity.
Qed.

Lemma used_configured h h0 : configure c h = Done tt h0 -> used h0 = 0.
Proof.
  intros Hc. destruct (configure_ok h) as (h1 & Hc1 & HI & Hidx & Hptr).
  rewrite Hc1 in Hc. injection Hc as <-.
  pose proof WF as (? & ? & ? & ? & ?).
  rewrite (used_eq h1 HI), Hidx, Hptr, segment_base_eq by lia. cbn. lia.
Qed.

Lemma run_spec h sizes :
  Forall request_ok sizes ->
  exists h0 tr hf,
    configure c h = Done tt h0 /\ Inv h0 /\
    (configure c ;;; fb_malloc_seq sizes) h = Done tr hf /\ chain h0 tr hf.
Proof.
  intros Hs. destruct (configure_ok h) as (h0 & Hc & HI & _).
  destruct (seq_spec sizes h0 (or_introl HI) Hs) as (tr & hf & Hseq & Hch).
  exists h0, tr, hf.
  split; [assumption|]. split; [assumption|]. split; [|assumption].
  unfold bind. rewrite Hc. assumption.
Qed.

(** Once the bytes handed out by a run reach the capacity, every later
    call returns [NULL]. *)
Lemma chain_full h tr hf more :
  ready h -> used h = 0 -> chain h tr hf ->
  capacity c <= granted tr -> Forall request_ok more ->
  exists tr', fb_malloc_seq more hf = Done tr' hf /\
              Forall (fun a => a_ptr a = NULL) tr' /\
              List.length tr' = List.length more.
Proof.
  intros Hr Hu Hch Hcap Hmore.
  pose proof (chain_used _ _ _ Hch) as Hused. rewrite Hu in Hused.
  apply full_heap_seq; [|lia|assumption].
  apply full_heap_Inv; [exact (chain_ready _ _ _ Hr Hch)|lia].
Qed.

Lemma aligned_request size :
  0 < size -> request_ok size ->
  8 <= fb_align_up size 8 <= max_request.
Proof.
  unfold request_ok, max_request. intros Hpos Hs.
  pose proof (fb_align_up_8_bounds size ltac:(lia)) as (Ha & Hb & Hc).
  pose proof (Z.div_mod (fb_align_up size 8) 8 ltac:(lia)). lia.
Qed.

(** The three ways a call on a configured heap can go. *)
Lemma fb_malloc_fits size h :
  Inv h -> 0 < size -> request_ok size ->
  fb_heap_ptr h + fb_align_up size 8 <= fb_heap_end h ->
  fb_malloc size h
  = Done (fb_heap_ptr h)
         (set_bounds (fb_heap_ptr h + fb_align_up size 8) (fb_heap_end h) h).
Proof.
  intros HI Hpos Hs Hfit. pose proof (aligned_request size Hpos Hs).
  rewrite fb_malloc_eq by assumption. apply retry_fits; (assumption || lia).
Qed.

Lemma fb_malloc_next size h :
  Inv h -> 0 < size -> request_ok size ->
  fb_heap_end h < fb_heap_ptr h + fb_align_up size 8 ->
  fb_heap_segment_index h + 1 < cfg_count c ->
  segment_base c (fb_heap_segment_index h + 1) + fb_align_up size 8
    <= segment_end c (fb_heap_segment_index h + 1) ->
  fb_malloc size h
  = Done (segment_base c (fb_heap_segment_index h + 1))
         (set_bounds (segment_base c (fb_heap_segment_index h + 1)
                      + fb_align_up size 8)
                     (segment_end c (fb_heap_segment_index h + 1))
                     (next_segment h)).
Proof.
  intros HI Hpos Hs Hfull Hk Hfit. pose proof (aligned_request size Hpos Hs).
  rewrite fb_malloc_eq by assumption.
  pose proof (segments_left_eq h HI) as Hleft.
  destruct (segments_left h) as [|fuel]; [lia|].
  rewrite retry_advance by (assumption || lia).
  rewrite retry_fits; [reflexivity| |lia|exact Hfit].
  apply Inv_next_segment; assumption.
Qed.

Lemma fb_malloc_none size h :
  Inv h -> 0 < size -> request_ok size ->
  fb_heap_end h < fb_heap_ptr h + fb_align_up size 8 ->
  fb_heap_segment_index h + 1 = cfg_count c ->
  fb_malloc size h = Done NULL h.
Proof.
  intros HI Hpos Hs Hfull Hk. pose proof (aligned_request size Hpos Hs).
  rewrite fb_malloc_eq by assumption. apply retry_exhausted; (assumption || lia).
Qed.

End WithConfig.

(** The two-segment scenario of 64 bytes each, from any first segment. *)
Lemma two_segment_scenario (start : Z) (h : heap) :
  1 <= start <= 2 ^ 32 - 2 ->
  exists a1 a2 a3 hf,
    (fb_heap_init_segments start 2 0 64 ;;; fb_malloc_seq [48; 48; 48]) h
    = Done [a1; a2; a3] hf /\
    a_ptr a1 = FB_SEGMENT_ADDR start 0 /\
    a_ptr a2 = FB_SEGMENT_ADDR (start + 1) 0 /\
    a_ptr a3 = NULL /\
    a_ptr a1 <> NULL /\ a_ptr a2 <> NULL /\ ~ overlap a1 a2.
Proof.
  intros Hstart. set (c := mkConfig start 2 0 64).
  assert (WF : well_formed c) by (unfold well_formed; cbn; lia).
  assert (Hreq : request_ok 48) by (unfold request_ok, max_request; lia).
  pose proof (segment_base_eq c WF 0 ltac:(cbn; lia)) as Hb0.
  pose proof (segment_end_eq c WF 0 ltac:(cbn; lia)) as He0.
  pose proof (segment_base_eq c WF 1 ltac:(cbn; lia)) as Hb1.
  pose proof (segment_end_eq c WF 1 ltac:(cbn; lia)) as He1.
  cbn in Hb0, He0, Hb1, He1.
  change (fb_heap_init_segments start 2 0 64) with (configure c).
  unfold bind at 1. rewrite (configure_eq c WF).
  set (h0 := mkHeap _ _ _ _ _ _ _ _).
  assert (I0 : Inv c h0) by (constructor; cbn; try reflexivity; lia).
  cbn [fb_malloc_seq]. unfold bind, get, ret.
  assert (Ha : fb_align_up 48 8 = 48) by reflexivity.
  rewrite (fb_malloc_fits c WF 48 h0 I0) by (assumption || (rewrite ?Ha; cbn; lia)).
  set (h1 := set_bounds _ _ h0).
  assert (I1 : Inv c h1) by (apply Inv_bump; (assumption || (rewrite ?Ha; cbn; lia))).
  rewrite (fb_malloc_next c WF 48 h1 I1) by (assumption || (rewrite ?Ha; cbn; lia)).
  set (h2 := set_bounds _ _ (next_segment c h1)).
  assert (I2 : Inv c h2).
  { apply (Inv_bump c (next_segment c h1)); rewrite ?Ha; cbn; try lia.
    apply Inv_next_segment; [assumption..|cbn; lia]. }
  rewrite (fb_malloc_none c WF 48 h2 I2) by (assumption || (rewrite ?Ha; cbn; lia)).
  do 4 eexists. split; [reflexivity|]. cbn [a_ptr a_size].
  change (segment_base c (fb_heap_segment_index h1 + 1)) with (segment_base c 1).
  change (fb_heap_ptr h0) with (segment_base c 0).
  rewrite !segment_addr_eq by lia. rewrite Ha. unfold overlap, NULL. cbn [a_ptr a_size].
  repeat split; lia.
Qed.

(** *** Termination of the retry loop *)

Lemma set_segment_fields k h h2 :
  fb_heap_set_segment k h = Done tt h2 ->
  fb_heap_segment_count h2 = fb_heap_segment_count h /\
  fb_heap_segment_index h2 = fb_heap_segment_index h.
Proof.
  unfold fb_heap_set_segment. run.
  destruct (_ || _); [discriminate|].
  destruct (_ <=? _); [intros [= <-]; split; reflexivity|].
  destruct (_ <=? _); [discriminate|].
  intros [= <-]; split; reflexivity.
Qed.

Lemma set_segment_fuel k h : fb_heap_set_segment k h <> OutOfFuel.
Proof.
  unfold fb_heap_set_segment. run.
  destruct (_ || _); [discriminate|].
  destruct (_ <=? _); [discriminate|].
  destruct (_ <=? _); discriminate.
Qed.

Lemma retry_total size fuel : forall h,
  is_u32 (fb_heap_segment_count h) -> is_u32 (fb_heap_segment_index h) ->
  wrap32 (fb_heap_segment_count h - 1 - fb_heap_segment_index h) <= Z.of_nat fuel ->
  fb_malloc_retry fuel size h <> OutOfFuel.
Proof.
  unfold is_u32.
  induction fuel as [|fuel IH]; intros h Hc Hi Hf; rewrite retry_unfold;
    (destruct (_ <? _); [|discriminate]);
    (destruct (fb_heap_use_segments h); cbn [andb]; [|discriminate]);
    (destruct (Z.ltb_spec (wrap32 (fb_heap_segment_index h + 1))
                          (fb_heap_segment_count h)) as [Hlt|Hge]; [|discriminate]);
    unfold wrap32 in *;
    assert (Hvar : (fb_heap_segment_count h - 1 - fb_heap_segment_index h) mod 2 ^ 32
                   = fb_heap_segment_count h - (fb_heap_segment_index h + 1) mod 2 ^ 32).
  1,3: destruct (Z.eq_dec (fb_heap_segment_index h + 1) (2 ^ 32)) as [He|Hne];
       [ replace (fb_heap_segment_index h + 1) with (2 ^ 32) by lia;
         replace (fb_heap_segment_count h - 1 - fb_heap_segment_index h)
           with (fb_heap_segment_count h + (-1) * 2 ^ 32) by lia;
         rewrite Z.mod_add, Z.mod_same, Z.mod_small by lia; lia
       | rewrite (Z.mod_small (fb_heap_segment_index h + 1)) in * by lia;
         rewrite Z.mod_small by lia; lia ].
  - lia.
  - pose proof (Z.mod_pos_bound (fb_heap_segment_index h + 1) (2 ^ 32) ltac:(lia)).
    destruct (fb_heap_set_segment _ _) as [[] h2| |] eqn:Hset; try discriminate.
    + destruct (set_segment_fields _ _ _ Hset) as [Hc2 Hi2].
      cbn [set_index fb_heap_segment_count fb_heap_segment_index] in Hc2, Hi2.
      apply IH; rewrite ?Hc2, ?Hi2; try lia.
      rewrite (Z.mod_small (_ - 1 - _)) by lia. lia.
    + exfalso. exact (set_segment_fuel _ _ Hset).
Qed.

(** The iteration bound of the model is never reached, whatever the
    state of the heap. *)
Lemma fb_malloc_total size h :
  is_u32 (fb_heap_segment_count h) -> is_u32 (fb_heap_segment_index h) ->
  fb_malloc size h <> OutOfFuel.
Proof.
  intros Hc Hi. unfold fb_malloc. destruct (size =? 0); [discriminate|].
  unfold fb_heap_init_default. unfold bind at 1 2. unfold get at 1.
  destruct (_ || _).
  - unfold bind at 1. unfold modify at 1.
    destruct (fb_heap_set_segment 0 _) as [[] h2| |] eqn:Hset; try discriminate.
    destruct (set_segment_fields _ _ _ Hset) as [Hc2 Hi2]. cbn in Hc2, Hi2.
    unfold bind, get. apply retry_total; unfold segments_left;
      rewrite ?Hc2, ?Hi2; unfold is_u32, FB_HEAP_SEGMENT_COUNT; cbn; lia.
  - unfold ret, bind, get. apply retry_total; try assumption.
    unfold segments_left. pose proof (Z.mod_pos_bound
      (fb_heap_segment_count h - 1 - fb_heap_segment_index h) (2 ^ 32) ltac:(lia)).
    unfold wrap32 in *. lia.
Qed.

(** *** Claims on the allocator *)

Lemma default_config_well_formed : well_formed default_config.
Proof.
  unfold well_formed, default_config, FB_HEAP_SEGMENT, FB_HEAP_SEGMENT_COUNT,
    FB_HEAP_OFFSET, FB_RAM_BYTES.
  cbn [cfg_start cfg_count cfg_offset cfg_bytes]. lia.
Qed.

Lemma chain_invariants c h tr hf :
  well_formed c -> chain c h tr hf -> allocator_invariants c tr.
Proof.
  intros WF Hch. split; [|split].
  - exact (chain_no_overlap c _ _ _ Hch).
  - exact (chain_in_one_segment c WF _ _ _ Hch).
  - exact (chain_cursor_monotone c _ _ _ Hch).
Qed.

(** A run on the heap as it is at program start, where the first
    nonzero request applies the default configuration. *)
Lemma default_run_spec sizes :
  Forall request_ok sizes ->
  exists tr hf, fb_malloc_seq sizes heap_at_start = Done tr hf /\
                chain default_config heap_at_start tr hf.
Proof.
  apply (seq_spec default_config default_config_well_formed).
  right. split; reflexivity.
Qed.

(** C1 (corrected).  For every configuration given to
    [fb_heap_init_segments] that fits the address encoding (segment
    numbers from 1 that do not wrap, segments of at most 2^28 bytes,
    first offset below the segment size), as for the default
    configuration applied by the first request, and for every sequence
    of requests of at most [max_request] bytes: every call returns, no
    two non-null allocations overlap, each lies within exactly one
    configured segment, and the (segment index, cursor) pair never
    moves back. *)
Theorem C1_allocator_invariants (c : config) (h : heap) (sizes : list Z) :
  well_formed c -> Forall request_ok sizes ->
  (exists tr hf,
     (configure c ;;; fb_malloc_seq sizes) h = Done tr hf /\
     allocator_invariants c tr) /\
  (exists tr hf,
     fb_malloc_seq sizes heap_at_start = Done tr hf /\
     allocator_invariants default_config tr).
Proof.
  intros WF Hs. split.
  - destruct (run_spec c WF h sizes Hs) as (h0 & tr & hf & _ & _ & Hrun & Hch).
    exists tr, hf. split; [assumption|]. exact (chain_invariants c _ _ _ WF Hch).
  - destruct (default_run_spec sizes Hs) as (tr & hf & Hrun & Hch).
    exists tr, hf. split; [assumption|].
    exact (chain_invariants _ _ _ _ default_config_well_formed Hch).
Qed.

Lemma two_small_segments_well_formed : well_formed two_small_segments.
Proof. unfold well_formed; cbn; lia. Qed.

Lemma C1_allocator_invariants_witness :
  well_formed two_small_segments /\ Forall request_ok [48; 48; 48] /\
  (exists tr hf,
     (configure two_small_segments ;;; fb_malloc_seq [48; 48; 48]) heap_at_start
     = Done tr hf /\
     allocator_invariants two_small_segments tr) /\
  (exists tr hf,
     fb_malloc_seq [48; 48; 48] heap_at_start = Done tr hf /\
     allocator_invariants default_config tr).
Proof.
  assert (Hs : Forall request_ok [48; 48; 48])
    by (repeat constructor; unfold max_request; lia).
  split; [exact two_small_segments_well_formed|].
  split; [exact Hs|].
  exact (C1_allocator_invariants two_small_segments heap_at_start [48; 48; 48]
           two_small_segments_well_formed Hs).
Defined.

(** C1 as stated fails: with segments larger than the 28-bit offset
    field two allocations overlap, and a request close to 2^64 wraps
    the cursor, which moves back into an earlier allocation. *)
Lemma C1_counterexample :
  (exists tr hf,
     (configure (mkConfig 1 2 0 (2 ^ 29)) ;;;
      fb_malloc_seq [3 * 2 ^ 27; 3 * 2 ^ 27]) heap_at_start = Done tr hf /\
     ~ allocator_invariants (mkConfig 1 2 0 (2 ^ 29)) tr) /\
  (exists tr hf,
     (configure (mkConfig 1 1 0 64) ;;;
      fb_malloc_seq [16; 2 ^ 64 - 8; 8]) heap_at_start = Done tr hf /\
     ~ no_overlap tr /\ ~ cursor_monotone tr).
Proof.
  split.
  - eexists. eexists. split; [vm_compute; reflexivity|].
    intros (Hno & _ & _).
    refine (Hno 0%nat 1%nat _ _ _ eq_refl eq_refl _ _ _); try discriminate.
    unfold overlap; cbn; lia.
  - eexists. eexists. split; [vm_compute; reflexivity|]. split.
    + intros Hno.
      refine (Hno 0%nat 2%nat _ _ _ eq_refl eq_refl _ _ _); try discriminate.
      unfold overlap; cbn; lia.
    + intros Hmono.
      destruct (Hmono 1%nat 1%nat _ _ (le_n _) eq_refl eq_refl) as [_ Hp].
      cbn in Hp. specialize (Hp eq_refl). lia.
Qed.

(** C4 (corrected).  For a configuration given to
    [fb_heap_init_segments] that fits the address encoding, as for the
    default configuration, and requests of at most [max_request] bytes:
    once the bytes handed out (rounded sizes of the calls that returned
    an address) reach the configured capacity, every later call returns
    [NULL] and leaves the heap as it is.  In the scenario of two
    64-byte segments, requests of 48 and 48 bytes succeed, the second
    at offset 0 of the second segment, and a third request of 48 bytes
    returns [NULL]. *)
Theorem C4_exhaustion (c : config) (h : heap) (sizes more : list Z)
    (start : Z) (h2 : heap) :
  well_formed c -> Forall request_ok sizes -> Forall request_ok more ->
  1 <= start <= 2 ^ 32 - 2 ->
  (exists tr hf,
     (configure c ;;; fb_malloc_seq sizes) h = Done tr hf /\
     (capacity c <= granted tr ->
      exists tr',
        fb_malloc_seq more hf = Done tr' hf /\
        Forall (fun a => a_ptr a = NULL) tr' /\
        List.length tr' = List.length more)) /\
  (exists tr hf,
     fb_malloc_seq sizes heap_at_start = Done tr hf /\
     (capacity default_config <= granted tr ->
      exists tr',
        fb_malloc_seq more hf = Done tr' hf /\
        Forall (fun a => a_ptr a = NULL) tr' /\
        List.length tr' = List.length more)) /\
  (exists a1 a2 a3 hf,
     (fb_heap_init_segments start 2 0 64 ;;; fb_malloc_seq [48; 48; 48]) h2
     = Done [a1; a2; a3] hf /\
     a_ptr a1 = FB_SEGMENT_ADDR start 0 /\
     a_ptr a2 = FB_SEGMENT_ADDR (start + 1) 0 /\
     a_ptr a3 = NULL /\
     a_ptr a1 <> NULL /\ a_ptr a2 <> NULL /\ ~ overlap a1 a2).
Proof.
  intros WF Hs Hmore Hstart.
  split; [|split; [|apply two_segment_scenario; assumption]].
  - destruct (run_spec c WF h sizes Hs) as (h0 & tr & hf & Hc & HI & Hrun & Hch).
    exists tr, hf. split; [assumption|]. intros Hcap.
    apply (chain_full c WF h0 tr); try assumption.
    + left. assumption.
    + exact (used_configured c WF h h0 Hc).
  - destruct (default_run_spec sizes Hs) as (tr & hf & Hrun & Hch).
    exists tr, hf. split; [assumption|]. intros Hcap.
    apply (chain_full default_config default_config_well_formed heap_at_start tr);
      try assumption.
    + right. split; reflexivity.
    + reflexivity.
Qed.

Lemma C4_exhaustion_witness :
  well_formed two_small_segments /\
  Forall request_ok [48; 16; 64] /\ Forall request_ok [8; 48] /\
  1 <= 1 <= 2 ^ 32 - 2 /\
  (exists tr hf,
     (configure two_small_segments ;;; fb_malloc_seq [48; 16; 64]) heap_at_start
     = Done tr hf /\
     (capacity two_small_segments <= granted tr ->
      exists tr',
        fb_malloc_seq [8; 48] hf = Done tr' hf /\
        Forall (fun a => a_ptr a = NULL) tr' /\
        List.length tr' = List.length [8; 48])) /\
  (exists tr hf,
     fb_malloc_seq [48; 16; 64] heap_at_start = Done tr hf /\
     (capacity default_config <= granted tr ->
      exists tr',
        fb_malloc_seq [8; 48] hf = Done tr' hf /\
        Forall (fun a => a_ptr a = NULL) tr' /\
        List.length tr' = List.length [8; 48])) /\
  (exists a1 a2 a3 hf,
     (fb_heap_init_segments 1 2 0 64 ;;; fb_malloc_seq [48; 48; 48]) heap_at_start
     = Done [a1; a2; a3] hf /\
     a_ptr a1 = FB_SEGMENT_ADDR 1 0 /\
     a_ptr a2 = FB_SEGMENT_ADDR (1 + 1) 0 /\
     a_ptr a3 = NULL /\
     a_ptr a1 <> NULL /\ a_ptr a2 <> NULL /\ ~ overlap a1 a2).
Proof.
  assert (H1 : Forall request_ok [48; 16; 64])
    by (repeat constructor; unfold max_request; lia).
  assert (H2 : Forall request_ok [8; 48])
    by (repeat constructor; unfold max_request; lia).
  assert (H3 : 1 <= 1 <= 2 ^ 32 - 2) by lia.
  split; [exact two_small_segments_well_formed|].
  split; [exact H1|]. split; [exact H2|]. split; [exact H3|].
  exact (C4_exhaustion two_small_segments heap_at_start [48; 16; 64] [8; 48] 1
           heap_at_start two_small_segments_well_formed H1 H2 H3).
Defined.

(** C4 as stated fails.  Counting the bytes asked for: a refused
    request of 128 bytes reaches the capacity of two 64-byte segments,
    and the next request of 8 bytes is served.  And whatever is
    counted: on a full 64-byte heap a request of 2^64 - 8 bytes wraps
    the cursor and returns an address. *)
Lemma C4_counterexample :
  (exists tr hf p hf',
     (configure two_small_segments ;;; fb_malloc_seq [128]) heap_at_start
     = Done tr hf /\
     capacity two_small_segments <= requested tr /\
     fb_malloc 8 hf = Done p hf' /\ p <> NULL) /\
  (exists tr hf p hf',
     (configure (mkConfig 1 1 0 64) ;;; fb_malloc_seq [64]) heap_at_start
     = Done tr hf /\
     capacity (mkConfig 1 1 0 64) <= granted tr /\
     fb_malloc (2 ^ 64 - 8) hf = Done p hf' /\ p <> NULL).
Proof.
  split; do 4 eexists.
  - split; [vm_compute; reflexivity|].
    split; [vm_compute; discriminate|].
    split; [vm_compute; reflexivity|discriminate].
  - split; [vm_compute; reflexivity|].
    split; [vm_compute; discriminate|].
    split; [vm_compute; reflexivity|discriminate].
Qed.

Lemma segment_id_of_addr (seg off : Z) :
  0 <= seg < 2 ^ 32 -> 0 <= off < 2 ^ 28 ->
  segment_id (FB_SEGMENT_ADDR seg off) = seg.
Proof.
  intros Hs Ho. rewrite segment_addr_eq by assumption.
  unfold segment_id. rewrite Z.shiftr_div_pow2 by lia.
  rewrite Z.div_add_l by lia. rewrite Z.div_small by lia. lia.
Qed.

(** C5 (corrected).  [fb_heap_init] with a non-null base and a nonzero
    size ends in the diagnostic and process exit exactly when bits 28
    to 31 of the base are all zero; every other base is accepted and
    sets the cursor to [base] and the end to [base + size] (64-bit
    pointer arithmetic).  For a base below 2^32 these four bits are the
    decoded segment identifier. *)
Theorem C5_heap_init (base size : Z) (h : heap) :
  0 <= base -> base <> NULL -> size <> 0 ->
  (segment_field base = 0 <-> fb_heap_init base size h = Panic msg_base) /\
  (segment_field base <> 0 ->
   fb_heap_init base size h
   = Done tt (mkHeap base (wrap64 (base + size)) (fb_heap_segment_start h)
                     (fb_heap_segment_count h) (fb_heap_segment_index h)
                     (fb_heap_segment_bytes h) (fb_heap_segment_offset h) false)) /\
  (base < 2 ^ 32 -> segment_field base = segment_id base).
Proof.
  intros Hb Hnn Hsz. unfold fb_heap_init, fb_is_segment_addr.
  fold (segment_field base).
  destruct (Z.eqb_spec base NULL); [contradiction|].
  destruct (Z.eqb_spec size 0); [contradiction|]. cbn [negb andb].
  split; [|split].
  - destruct (Z.eqb_spec (segment_field base) 0) as [He|Hne]; cbn [negb].
    + split; [reflexivity|intros _; assumption].
    + split; [contradiction|discriminate].
  - intros Hne. destruct (Z.eqb_spec (segment_field base) 0); [contradiction|].
    reflexivity.
  - intros Hlt. unfold segment_field, segment_id.
    change 15 with (Z.ones 4). rewrite Z.land_ones by lia.
    rewrite Z.shiftr_div_pow2 by lia. apply Z.mod_small.
    split; [apply Z.div_pos; lia|].
    apply Z.div_lt_upper_bound; lia.
Qed.

Lemma C5_heap_init_witness :
  0 <= FB_SEGMENT_ADDR 1 128 /\ FB_SEGMENT_ADDR 1 128 <> NULL /\ 4096 <> 0 /\
  (segment_field (FB_SEGMENT_ADDR 1 128) = 0 <->
   fb_heap_init (FB_SEGMENT_ADDR 1 128) 4096 heap_at_start = Panic msg_base) /\
  (segment_field (FB_SEGMENT_ADDR 1 128) <> 0 ->
   fb_heap_init (FB_SEGMENT_ADDR 1 128) 4096 heap_at_start
   = Done tt (mkHeap (FB_SEGMENT_ADDR 1 128)
                     (wrap64 (FB_SEGMENT_ADDR 1 128 + 4096))
                     (fb_heap_segment_start heap_at_start)
                     (fb_heap_segment_count heap_at_start)
                     (fb_heap_segment_index heap_at_start)
                     (fb_heap_segment_bytes heap_at_start)
                     (fb_heap_segment_offset heap_at_start) false)) /\
  (FB_SEGMENT_ADDR 1 128 < 2 ^ 32 ->
   segment_field (FB_SEGMENT_ADDR 1 128) = segment_id (FB_SEGMENT_ADDR 1 128)).
Proof.
  assert (H1 : 0 <= FB_SEGMENT_ADDR 1 128) by (vm_compute; discriminate).
  assert (H2 : FB_SEGMENT_ADDR 1 128 <> NULL) by (vm_compute; discriminate).
  assert (H3 : 4096 <> 0) by lia.
  split; [exact H1|]. split; [exact H2|]. split; [exact H3|].
  exact (C5_heap_init (FB_SEGMENT_ADDR 1 128) 4096 heap_at_start H1 H2 H3).
Defined.

(** C5 as stated fails: the address of segment 16 decodes to a nonzero
    segment identifier and is refused. *)
Lemma C5_counterexample :
  segment_id (FB_SEGMENT_ADDR 16 0) = 16 /\
  FB_SEGMENT_ADDR 16 0 <> NULL /\
  fb_heap_init (FB_SEGMENT_ADDR 16 0) 64 heap_at_start = Panic msg_base.
Proof.
  split; [reflexivity|]. split; [vm_compute; discriminate|].
  vm_compute. reflexivity.
Qed.

End AllocFacts.

(** ** The soft-float engine: proofs *)

Module SoftFloatFacts.
Import SoftFloat.

(** *** Signs and comparisons *)

Lemma land_1_mod (x : Z) : Z.land x 1 = x mod 2.
Proof. exact (Z.land_ones x 1 ltac:(lia)). Qed.

Lemma land_1_cases (x : Z) : Z.land x 1 = 0 \/ Z.land x 1 = 1.
Proof.
  rewrite land_1_mod. pose proof (Z.mod_pos_bound x 2 ltac:(lia)). lia.
Qed.

Lemma sign_of_testbit (x n : Z) :
  0 <= n -> Z.land (Z.shiftr x n) 1 = Z.b2z (Z.testbit x n).
Proof.
  intros Hn. rewrite land_1_mod, <- Z.bit0_mod, Z.shiftr_spec by lia.
  reflexivity.
Qed.

Lemma f32_sign_cases a : f32_sign a = 0 \/ f32_sign a = 1.
Proof. apply land_1_cases. Qed.

Lemma f64_sign_cases a : f64_sign a = 0 \/ f64_sign a = 1.
Proof. apply land_1_cases. Qed.

(** C9.  When an operand is a NaN: the unordered predicates return 1,
    greater-than and greater-or-equal return -1, less-than and
    less-or-equal return 1, and equality and inequality both return a
    nonzero result (not equal); for floats and for doubles. *)
Theorem C9_nan_comparisons (a b x y : Z) :
  f32_is_nan a = true \/ f32_is_nan b = true ->
  f64_is_nan x = true \/ f64_is_nan y = true ->
  (__unordsf2 a b = 1 /\ __gtsf2 a b = -1 /\ __gesf2 a b = -1 /\
   __ltsf2 a b = 1 /\ __lesf2 a b = 1 /\
   __eqsf2 a b <> 0 /\ __nesf2 a b <> 0) /\
  (__unorddf2 x y = 1 /\ __gtdf2 x y = -1 /\ __gedf2 x y = -1 /\
   __ltdf2 x y = 1 /\ __ledf2 x y = 1 /\
   __eqdf2 x y <> 0 /\ __nedf2 x y <> 0).
Proof.
  intros H32 H64.
  assert (E32 : f32_is_nan a || f32_is_nan b = true)
    by (apply Bool.orb_true_iff; assumption).
  assert (E64 : f64_is_nan x || f64_is_nan y = true)
    by (apply Bool.orb_true_iff; assumption).
  split.
  - unfold __unordsf2, __gtsf2, __gesf2, __ltsf2, __lesf2, __eqsf2, __nesf2,
      f32_cmp, f32_to_bits.
    rewrite E32. unfold f32_is_nan in E32. rewrite E32. cbn.
    repeat split; discriminate.
  - unfold __unorddf2, __gtdf2, __gedf2, __ltdf2, __ledf2, __eqdf2, __nedf2,
      f64_cmp, f64_to_bits.
    rewrite E64. unfold f64_is_nan in E64. rewrite E64. cbn.
    repeat split; discriminate.
Qed.

Lemma C9_nan_comparisons_witness :
  (f32_is_nan 0x7FC00000 = true \/ f32_is_nan 0x3F800000 = true) /\
  (f64_is_nan 0x3FF0000000000000 = true \/ f64_is_nan 0xFFF0000000000001 = true) /\
  (__unordsf2 0x7FC00000 0x3F800000 = 1 /\ __gtsf2 0x7FC00000 0x3F800000 = -1 /\
   __gesf2 0x7FC00000 0x3F800000 = -1 /\
   __ltsf2 0x7FC00000 0x3F800000 = 1 /\ __lesf2 0x7FC00000 0x3F800000 = 1 /\
   __eqsf2 0x7FC00000 0x3F800000 <> 0 /\ __nesf2 0x7FC00000 0x3F800000 <> 0) /\
  (__unorddf2 0x3FF0000000000000 0xFFF0000000000001 = 1 /\
   __gtdf2 0x3FF0000000000000 0xFFF0000000000001 = -1 /\
   __gedf2 0x3FF0000000000000 0xFFF0000000000001 = -1 /\
   __ltdf2 0x3FF0000000000000 0xFFF0000000000001 = 1 /\
   __ledf2 0x3FF0000000000000 0xFFF0000000000001 = 1 /\
   __eqdf2 0x3FF0000000000000 0xFFF0000000000001 <> 0 /\
   __nedf2 0x3FF0000000000000 0xFFF0000000000001 <> 0).
Proof.
  assert (H1 : f32_is_nan 0x7FC00000 = true \/ f32_is_nan 0x3F800000 = true)
    by (left; reflexivity).
  assert (H2 : f64_is_nan 0x3FF0000000000000 = true
               \/ f64_is_nan 0xFFF0000000000001 = true)
    by (right; reflexivity).
  split; [exact H1|]. split; [exact H2|].
  exact (C9_nan_comparisons 0x7FC00000 0x3F800000
           0x3FF0000000000000 0xFFF0000000000001 H1 H2).
Defined.

(** C10.  A pattern whose sign bit is set converts to 0 under the three
    unsigned conversions. *)
Theorem C10_unsigned_of_negative (a x : Z) :
  Z.testbit a 31 = true -> Z.testbit x 63 = true ->
  __fixunssfsi a = 0 /\ __fixunsdfsi x = 0 /\ __fixunsdfdi x = 0.
Proof.
  intros Ha Hx.
  unfold __fixunssfsi, __fixunsdfsi, __fixunsdfdi, f32_to_bits, f64_to_bits,
    f32_sign, f64_sign.
  rewrite !sign_of_testbit by lia. rewrite Ha, Hx. cbn. repeat split.
Qed.

Lemma C10_unsigned_of_negative_witness :
  Z.testbit 0xC0400000 31 = true /\ Z.testbit 0xFFF8000000000000 63 = true /\
  __fixunssfsi 0xC0400000 = 0 /\ __fixunsdfsi 0xFFF8000000000000 = 0 /\
  __fixunsdfdi 0xFFF8000000000000 = 0.
Proof.
  split; [reflexivity|]. split; [reflexivity|].
  exact (C10_unsigned_of_negative 0xC0400000 0xFFF8000000000000 eq_refl eq_refl).
Defined.

(** *** Special operands of multiplication and division *)

Lemma f32_zero_of_sign (a b : Z) :
  f32_signed_zero (Z.lxor (f32_sign a) (f32_sign b))
                  (shl32 (Z.lxor (f32_sign a) (f32_sign b)) 31).
Proof.
  destruct (f32_sign_cases a) as [-> | ->], (f32_sign_cases b) as [-> | ->];
    split; reflexivity.
Qed.

Lemma f32_inf_of_sign (a b : Z) :
  f32_signed_inf (Z.lxor (f32_sign a) (f32_sign b))
                 (Z.lor (shl32 (Z.lxor (f32_sign a) (f32_sign b)) 31) 0x7F800000).
Proof.
  destruct (f32_sign_cases a) as [-> | ->], (f32_sign_cases b) as [-> | ->];
    split; reflexivity.
Qed.

Lemma f64_zero_of_sign (a b : Z) :
  f64_signed_zero (Z.lxor (f64_sign a) (f64_sign b))
                  (shl64 (Z.lxor (f64_sign a) (f64_sign b)) 63).
Proof.
  destruct (f64_sign_cases a) as [-> | ->], (f64_sign_cases b) as [-> | ->];
    split; reflexivity.
Qed.

Lemma f64_inf_of_sign (a b : Z) :
  f64_signed_inf (Z.lxor (f64_sign a) (f64_sign b))
                 (Z.lor (shl64 (Z.lxor (f64_sign a) (f64_sign b)) 63)
                        (shl64 0x7FF 52)).
Proof.
  destruct (f64_sign_cases a) as [-> | ->], (f64_sign_cases b) as [-> | ->];
    split; reflexivity.
Qed.

(** C7.  If an operand of a multiplication is a zero, the product is
    the zero whose sign is the XOR of the operand signs; otherwise, if
    an operand has the maximal exponent field (infinity or NaN), the
    product is the infinity of that sign; for floats and doubles. *)
Theorem C7_mul_special (a b x y : Z) :
  (f32_is_zero a = true \/ f32_is_zero b = true ->
   f32_signed_zero (Z.lxor (f32_sign a) (f32_sign b)) (__mulsf3 a b)) /\
  (f32_is_zero a = false -> f32_is_zero b = false ->
   f32_exp a = 0xFF \/ f32_exp b = 0xFF ->
   f32_signed_inf (Z.lxor (f32_sign a) (f32_sign b)) (__mulsf3 a b)) /\
  (f64_is_zero x = true \/ f64_is_zero y = true ->
   f64_signed_zero (Z.lxor (f64_sign x) (f64_sign y)) (__muldf3 x y)) /\
  (f64_is_zero x = false -> f64_is_zero y = false ->
   f64_exp x = 0x7FF \/ f64_exp y = 0x7FF ->
   f64_signed_inf (Z.lxor (f64_sign x) (f64_sign y)) (__muldf3 x y)).
Proof.
  split; [|split; [|split]].
  - intros H. apply Bool.orb_true_iff in H.
    unfold __mulsf3, f32_to_bits, bits_to_f32.
    change (Z.land a 0x7FFFFFFF =? 0) with (f32_is_zero a).
    change (Z.land b 0x7FFFFFFF =? 0) with (f32_is_zero b).
    rewrite H. apply f32_zero_of_sign.
  - intros Ha Hb H.
    assert (E : (f32_exp a =? 255) || (f32_exp b =? 255) = true)
      by (apply Bool.orb_true_iff; rewrite !Z.eqb_eq; exact H).
    unfold __mulsf3, f32_to_bits, bits_to_f32.
    change (Z.land a 0x7FFFFFFF =? 0) with (f32_is_zero a).
    change (Z.land b 0x7FFFFFFF =? 0) with (f32_is_zero b).
    rewrite Ha, Hb, E. apply f32_inf_of_sign.
  - intros H. apply Bool.orb_true_iff in H.
    unfold __muldf3, f64_to_bits, bits_to_f64.
    change (Z.land x 0x7FFFFFFFFFFFFFFF =? 0) with (f64_is_zero x).
    change (Z.land y 0x7FFFFFFFFFFFFFFF =? 0) with (f64_is_zero y).
    rewrite H. apply f64_zero_of_sign.
  - intros Hx Hy H.
    assert (E : (f64_exp x =? 0x7FF) || (f64_exp y =? 0x7FF) = true)
      by (apply Bool.orb_true_iff; rewrite !Z.eqb_eq; exact H).
    unfold __muldf3, f64_to_bits, bits_to_f64.
    change (Z.land x 0x7FFFFFFFFFFFFFFF =? 0) with (f64_is_zero x).
    change (Z.land y 0x7FFFFFFFFFFFFFFF =? 0) with (f64_is_zero y).
    rewrite Hx, Hy, E. apply f64_inf_of_sign.
Qed.

(** Instances: -0 * 1.0, NaN * -2.0, 0 * -inf, and inf * NaN as doubles. *)
Lemma C7_mul_special_witness :
  (f32_is_zero 0x80000000 = true \/ f32_is_zero 0x3F800000 = true) /\
  f32_signed_zero 1 (__mulsf3 0x80000000 0x3F800000) /\
  f32_is_zero 0x7FC00001 = false /\ f32_is_zero 0xC0000000 = false /\
  (f32_exp 0x7FC00001 = 0xFF \/ f32_exp 0xC0000000 = 0xFF) /\
  f32_signed_inf 1 (__mulsf3 0x7FC00001 0xC0000000) /\
  (f64_is_zero 0 = true \/ f64_is_zero 0xFFF0000000000000 = true) /\
  f64_signed_zero 1 (__muldf3 0 0xFFF0000000000000) /\
  f64_is_zero 0x7FF0000000000000 = false /\
  f64_is_zero 0x7FF8000000000000 = false /\
  (f64_exp 0x7FF0000000000000 = 0x7FF \/ f64_exp 0x7FF8000000000000 = 0x7FF) /\
  f64_signed_inf 0 (__muldf3 0x7FF0000000000000 0x7FF8000000000000).
Proof.
  pose proof (C7_mul_special 0x80000000 0x3F800000 0 0xFFF0000000000000)
    as (Hz32 & _ & Hz64 & _).
  pose proof (C7_mul_special 0x7FC00001 0xC0000000
                0x7FF0000000000000 0x7FF8000000000000)
    as (_ & Hi32 & _ & Hi64).
  split; [left; reflexivity|].
  split; [exact (Hz32 (or_introl eq_refl))|].
  split; [reflexivity|]. split; [reflexivity|].
  split; [left; reflexivity|].
  split; [exact (Hi32 eq_refl eq_refl (or_introl eq_refl))|].
  split; [left; reflexivity|].
  split; [exact (Hz64 (or_introl eq_refl))|].
  split; [reflexivity|]. split; [reflexivity|].
  split; [left; reflexivity|].
  exact (Hi64 eq_refl eq_refl (or_introl eq_refl)).
Defined.

(** C8 (corrected).  A division by a zero yields the infinity whose
    sign is the XOR of the operand signs, whatever the dividend (a
    zero included); a zero divided by a nonzero divisor yields the
    zero of that sign; and 1.0f / 0.0f is 0x7F800000. *)
Theorem C8_div_special (a b x y : Z) :
  (f32_is_zero b = true ->
   exists r, __divsf3 a b = Some r /\
             f32_signed_inf (Z.lxor (f32_sign a) (f32_sign b)) r) /\
  (f32_is_zero b = false -> f32_is_zero a = true ->
   exists r, __divsf3 a b = Some r /\
             f32_signed_zero (Z.lxor (f32_sign a) (f32_sign b)) r) /\
  (f64_is_zero y = true ->
   exists r, __divdf3 x y = Some r /\
             f64_signed_inf (Z.lxor (f64_sign x) (f64_sign y)) r) /\
  (f64_is_zero y = false -> f64_is_zero x = true ->
   exists r, __divdf3 x y = Some r /\
             f64_signed_zero (Z.lxor (f64_sign x) (f64_sign y)) r) /\
  __divsf3 0x3F800000 0 = Some 0x7F800000.
Proof.
  split; [|split; [|split; [|split]]].
  - intros Hb. unfold __divsf3, f32_to_bits, bits_to_f32.
    change (Z.land b 0x7FFFFFFF =? 0) with (f32_is_zero b). rewrite Hb.
    eexists; split; [reflexivity|apply f32_inf_of_sign].
  - intros Hb Ha. unfold __divsf3, f32_to_bits, bits_to_f32.
    change (Z.land b 0x7FFFFFFF =? 0) with (f32_is_zero b).
    change (Z.land a 0x7FFFFFFF =? 0) with (f32_is_zero a). rewrite Hb, Ha.
    eexists; split; [reflexivity|apply f32_zero_of_sign].
  - intros Hy. unfold __divdf3, f64_to_bits, bits_to_f64.
    change (Z.land y 0x7FFFFFFFFFFFFFFF =? 0) with (f64_is_zero y). rewrite Hy.
    eexists; split; [reflexivity|apply f64_inf_of_sign].
  - intros Hy Hx. unfold __divdf3, f64_to_bits, bits_to_f64.
    change (Z.land y 0x7FFFFFFFFFFFFFFF =? 0) with (f64_is_zero y).
    change (Z.land x 0x7FFFFFFFFFFFFFFF =? 0) with (f64_is_zero x).
    rewrite Hy, Hx.
    eexists; split; [reflexivity|apply f64_zero_of_sign].
  - reflexivity.
Qed.

(** Instances: -1.0f / 0.0f, 0.0f / -2.0f, 0.0 / -0.0 and -0.0 / 1.0. *)
Lemma C8_div_special_witness :
  f32_is_zero 0 = true /\
  (exists r, __divsf3 0xBF800000 0 = Some r /\ f32_signed_inf 1 r) /\
  f32_is_zero 0xC0000000 = false /\
  (exists r, __divsf3 0 0xC0000000 = Some r /\ f32_signed_zero 1 r) /\
  f64_is_zero 0x8000000000000000 = true /\
  (exists r, __divdf3 0 0x8000000000000000 = Some r /\ f64_signed_inf 1 r) /\
  f64_is_zero 0x3FF0000000000000 = false /\
  (exists r, __divdf3 0x8000000000000000 0x3FF0000000000000 = Some r /\
             f64_signed_zero 1 r).
Proof.
  pose proof (C8_div_special 0xBF800000 0 0 0x8000000000000000)
    as (Hi32 & _ & Hi64 & _).
  pose proof (C8_div_special 0 0xC0000000 0x8000000000000000 0x3FF0000000000000)
    as (_ & Hz32 & _ & Hz64 & _).
  split; [reflexivity|]. split; [exact (Hi32 eq_refl)|].
  split; [reflexivity|]. split; [exact (Hz32 eq_refl eq_refl)|].
  split; [reflexivity|]. split; [exact (Hi64 eq_refl)|].
  split; [reflexivity|]. exact (Hz64 eq_refl eq_refl).
Defined.

(** C8 as stated fails: the dividend of 0.0f / 0.0f has zero magnitude
    and the quotient is positive infinity, not a zero (the same for
    doubles). *)
Lemma C8_counterexample :
  f32_is_zero 0 = true /\ __divsf3 0 0 = Some 0x7F800000 /\
  f32_is_zero 0x7F800000 = false /\
  f64_is_zero 0 = true /\ __divdf3 0 0 = Some 0x7FF0000000000000 /\
  f64_is_zero 0x7FF0000000000000 = false.
Proof. repeat split; reflexivity. Qed.

(** *** Loops *)

(** A loop with an invariant and a variant that its body decreases
    runs to its exit within the bound. *)
Lemma while_inv {S : Type} (cond : S -> bool) (body : S -> S)
    (I : S -> Prop) (m : S -> Z) :
  (forall s, I s -> cond s = true -> I (body s) /\ 0 < m s /\ m (body s) < m s) ->
  forall fuel s, I s -> m s <= Z.of_nat fuel ->
  exists s', while fuel cond body s = Some s' /\ I s' /\ cond s' = false.
Proof.
  intros Hstep. induction fuel as [|fuel IH]; intros s HI Hm.
  - cbn. destruct (cond s) eqn:Hc.
    + destruct (Hstep s HI Hc) as (_ & Hpos & _). lia.
    + exists s. auto.
  - cbn. destruct (cond s) eqn:Hc.
    + destruct (Hstep s HI Hc) as (HI' & Hpos & Hdec).
      apply IH; [assumption|lia].
    + exists s. auto.
Qed.

Lemma shift_down_total (t fr er : Z) :
  0 < t -> 0 <= fr < 2 ^ 64 ->
  exists s', while 64 (fun s => t <=? fst s)
               (fun s => (Z.shiftr (fst s) 1, snd s + 1)) (fr, er) = Some s'.
Proof.
  intros Ht Hfr.
  destruct (while_inv (fun s => t <=? fst s)
              (fun s => (Z.shiftr (fst s) 1, snd s + 1))
              (fun s => 0 <= fst s < 2 ^ 64)
              (fun s => if fst s =? 0 then 0 else Z.log2 (fst s) + 1))
    with (fuel := 64%nat) (s := (fr, er)) as (s' & Hs' & _).
  - intros [f e] Hf Hc. cbn [fst snd] in *. apply Z.leb_le in Hc.
    rewrite Z.shiftr_div_pow2 by lia. change (2 ^ 1) with 2.
    assert (0 <= f / 2 <= f)
      by (split; [apply Z.div_pos|apply Z.div_le_upper_bound]; lia).
    split; [lia|].
    destruct (Z.eqb_spec f 0); [lia|].
    pose proof (Z.log2_nonneg f).
    destruct (Z.eqb_spec (f / 2) 0) as [E|E]; [lia|].
    assert (2 <= f)
      by (destruct (Z.lt_ge_cases f 2); [rewrite Z.div_small in E by lia|]; lia).
    assert (1 <= Z.log2 f)
      by (apply Z.log2_le_pow2; [lia|change (2 ^ 1) with 2; lia]).
    rewrite <- Z.div2_div, Z.div2_spec, Z.log2_shiftr by lia. lia.
  - cbn [fst]. exact Hfr.
  - cbn [fst]. destruct (Z.eqb_spec fr 0); [lia|].
    assert (Z.log2 fr < 64) by (apply Z.log2_lt_pow2; lia). lia.
  - exists s'. exact Hs'.
Qed.

Lemma shift_up_total (t fr er : Z) (up : Z -> Z) :
  exists s', while (Z.to_nat er) (fun s => (fst s <? t) && (0 <? snd s))
               (fun s => (up (fst s), snd s - 1)) (fr, er) = Some s'.
Proof.
  destruct (while_inv (fun s => (fst s <? t) && (0 <? snd s))
              (fun s => (up (fst s), snd s - 1))
              (fun _ => True) (fun s => snd s))
    with (fuel := Z.to_nat er) (s := (fr, er)) as (s' & Hs' & _).
  - intros [f e] _ Hc. cbn [fst snd] in *.
    apply Bool.andb_true_iff in Hc. destruct Hc as [_ Hc]. apply Z.ltb_lt in Hc.
    split; [exact I|lia].
  - exact I.
  - cbn [snd]. lia.
  - exists s'. exact Hs'.
Qed.

Lemma f32_add_rest_total sa sb fa fb ea :
  exists r, f32_add_rest sa sb fa fb ea = Some r.
Proof.
  unfold f32_add_rest.
  set (p := if sa =? sb then _ else _).
  assert (Hp : 0 <= fst p < 2 ^ 64).
  { subst p. unfold wrap64, wrap32.
    destruct (sa =? sb); [|destruct (fb <=? fa)]; cbn [fst].
    - apply Z.mod_pos_bound; lia.
    - pose proof (Z.mod_pos_bound (fa - fb) (2 ^ 32) ltac:(lia)). lia.
    - pose proof (Z.mod_pos_bound (fb - fa) (2 ^ 32) ltac:(lia)). lia. }
  destruct p as [fr sr]. cbn [fst] in Hp.
  destruct (fr =? 0); [eexists; reflexivity|].
  unfold f32_shift_down, f32_shift_up.
  destruct (shift_down_total 0x1000000 fr ea ltac:(lia) Hp) as ([fr1 er1] & ->).
  destruct (shift_up_total 0x800000 fr1 er1 (fun f => wrap64 (Z.shiftl f 1)))
    as ([fr2 er2] & ->).
  destruct (255 <=? er2); [eexists; reflexivity|].
  destruct (er2 <=? 0); eexists; reflexivity.
Qed.

Lemma f64_add_rest_total sa sb fa fb ea :
  exists r, f64_add_rest sa sb fa fb ea = Some r.
Proof.
  unfold f64_add_rest.
  set (p := if sa =? sb then _ else _).
  assert (Hp : 0 <= fst p < 2 ^ 64).
  { subst p. unfold wrap64.
    destruct (sa =? sb); [|destruct (fb <=? fa)]; cbn [fst];
      apply Z.mod_pos_bound; lia. }
  destruct p as [fr sr]. cbn [fst] in Hp.
  destruct (fr =? 0); [eexists; reflexivity|].
  unfold f64_shift_down, f64_shift_up.
  destruct (shift_down_total (shl64 1 53) fr ea ltac:(reflexivity) Hp)
    as ([fr1 er1] & ->).
  destruct (shift_up_total (shl64 1 52) fr1 er1 (fun f => shl64 f 1))
    as ([fr2 er2] & ->).
  destruct (0x7FF <=? er2); [eexists; reflexivity|].
  destruct (er2 <=? 0); eexists; reflexivity.
Qed.

(** *** Addition *)

Lemma addsf3_unfold (a b : Z) :
  __addsf3 a b =
  if f32_is_zero a then Some b
  else if f32_is_zero b then Some a
  else if f32_exp a =? 0 then Some b
  else if f32_exp b =? 0 then Some a
  else
    match f32_align a b (Z.lor (f32_frac a) 0x800000)
            (Z.lor (f32_frac b) 0x800000) (f32_exp a) (f32_exp b) with
    | inl r => Some r
    | inr (fa, fb, ea, eb) => f32_add_rest (f32_sign a) (f32_sign b) fa fb ea
    end.
Proof. reflexivity. Qed.

Lemma adddf3_unfold (a b : Z) :
  __adddf3 a b =
  if f64_is_zero a then Some b
  else if f64_is_zero b then Some a
  else if f64_exp a =? 0 then Some b
  else if f64_exp b =? 0 then Some a
  else if f64_exp a =? 0x7FF then Some a
  else if f64_exp b =? 0x7FF then Some b
  else
    match f64_align a b (Z.lor (f64_frac a) (shl64 1 52))
            (Z.lor (f64_frac b) (shl64 1 52)) (f64_exp a) (f64_exp b) with
    | inl r => Some r
    | inr (fa, fb, ea, eb) => f64_add_rest (f64_sign a) (f64_sign b) fa fb ea
    end.
Proof. reflexivity. Qed.

Lemma f32_align_swap a b fa fb ea eb :
  f32_align b a fb fa eb ea =
  match f32_align a b fa fb ea eb with
  | inl r => inl r
  | inr (fa', fb', ea', _) => inr (fb', fa', ea', ea')
  end.
Proof.
  unfold f32_align.
  destruct (Z.ltb_spec 0 (ea - eb)), (Z.ltb_spec 0 (eb - ea)); try lia;
    destruct (Z.ltb_spec (ea - eb) 0), (Z.ltb_spec (eb - ea) 0); try lia.
  - replace (- (eb - ea)) with (ea - eb) by lia.
    destruct (24 <? ea - eb); reflexivity.
  - replace (- (ea - eb)) with (eb - ea) by lia.
    destruct (24 <? eb - ea); reflexivity.
  - replace eb with ea by lia. reflexivity.
Qed.

Lemma f64_align_swap a b fa fb ea eb :
  f64_align b a fb fa eb ea =
  match f64_align a b fa fb ea eb with
  | inl r => inl r
  | inr (fa', fb', ea', _) => inr (fb', fa', ea', ea')
  end.
Proof.
  unfold f64_align.
  destruct (Z.ltb_spec 0 (ea - eb)), (Z.ltb_spec 0 (eb - ea)); try lia;
    destruct (Z.ltb_spec (ea - eb) 0), (Z.ltb_spec (eb - ea) 0); try lia.
  - replace (- (eb - ea)) with (ea - eb) by lia.
    destruct (60 <? ea - eb); reflexivity.
  - replace (- (ea - eb)) with (eb - ea) by lia.
    destruct (60 <? eb - ea); reflexivity.
  - replace eb with ea by lia. reflexivity.
Qed.

Lemma f32_add_rest_comm sa sb fa fb ea :
  f32_add_rest sb sa fb fa ea = f32_add_rest sa sb fa fb ea.
Proof.
  unfold f32_add_rest. rewrite (Z.eqb_sym sb sa).
  destruct (Z.eqb_spec sa sb) as [->|Hs].
  - rewrite (Z.add_comm fb fa). reflexivity.
  - destruct (Z.leb_spec fb fa), (Z.leb_spec fa fb); try lia; try reflexivity.
    replace fb with fa by lia. rewrite Z.sub_diag. reflexivity.
Qed.

Lemma f64_add_rest_comm sa sb fa fb ea :
  f64_add_rest sb sa fb fa ea = f64_add_rest sa sb fa fb ea.
Proof.
  unfold f64_add_rest. rewrite (Z.eqb_sym sb sa).
  destruct (Z.eqb_spec sa sb) as [->|Hs].
  - rewrite (Z.add_comm fb fa). reflexivity.
  - destruct (Z.leb_spec fb fa), (Z.leb_spec fa fb); try lia; try reflexivity.
    replace fb with fa by lia. rewrite Z.sub_diag. reflexivity.
Qed.

(** A zero has a zero exponent field. *)
Lemma f32_zero_exp a : f32_is_zero a = true -> f32_exp a = 0.
Proof.
  unfold f32_is_zero, f32_exp. intros H. apply Z.eqb_eq in H.
  change 0x7FFFFFFF with (Z.ones 31) in H. rewrite Z.land_ones in H by lia.
  change 0xFF with (Z.ones 8). rewrite Z.land_ones, Z.shiftr_div_pow2 by lia.
  pose proof (Z.div_mod a (2 ^ 31) ltac:(lia)) as Hd. rewrite H in Hd.
  replace a with (2 ^ 8 * (a / 2 ^ 31) * 2 ^ 23) at 1 by lia.
  rewrite Z.div_mul by lia. rewrite (Z.mul_comm (2 ^ 8)). apply Z.mod_mul. lia.
Qed.

Lemma f64_zero_exp a : f64_is_zero a = true -> f64_exp a = 0.
Proof.
  unfold f64_is_zero, f64_exp. intros H. apply Z.eqb_eq in H.
  change 0x7FFFFFFFFFFFFFFF with (Z.ones 63) in H.
  rewrite Z.land_ones in H by lia.
  change 0x7FF with (Z.ones 11). rewrite Z.land_ones, Z.shiftr_div_pow2 by lia.
  pose proof (Z.div_mod a (2 ^ 63) ltac:(lia)) as Hd. rewrite H in Hd.
  replace a with (2 ^ 11 * (a / 2 ^ 63) * 2 ^ 52) at 1 by lia.
  rewrite Z.div_mul by lia. rewrite (Z.mul_comm (2 ^ 11)). apply Z.mod_mul. lia.
Qed.

Lemma addsf3_comm (a b : Z) :
  (f32_both_tiny a b = true -> a = b) ->
  exists r, __addsf3 a b = Some r /\ __addsf3 b a = Some r.
Proof.
  intros Htiny. rewrite !addsf3_unfold. unfold f32_both_tiny in Htiny.
  destruct (f32_is_zero a) eqn:Za, (f32_is_zero b) eqn:Zb.
  - rewrite (f32_zero_exp a Za), (f32_zero_exp b Zb) in Htiny.
    rewrite (Htiny eq_refl). eexists; split; reflexivity.
  - eexists; split; reflexivity.
  - eexists; split; reflexivity.
  - destruct (Z.eqb_spec (f32_exp a) 0) as [Ea|Ea],
             (Z.eqb_spec (f32_exp b) 0) as [Eb|Eb].
    + rewrite (Htiny eq_refl). eexists; split; reflexivity.
    + eexists; split; reflexivity.
    + eexists; split; reflexivity.
    + rewrite (f32_align_swap a b).
      destruct (f32_align a b _ _ _ _) as [r|[[[fa fb] ea] eb]].
      * eexists; split; reflexivity.
      * cbn iota. rewrite (f32_add_rest_comm (f32_sign a) (f32_sign b) fa fb ea).
        destruct (f32_add_rest_total (f32_sign a) (f32_sign b) fa fb ea) as (r & ->).
        exists r; split; reflexivity.
Qed.

Lemma adddf3_comm (a b : Z) :
  f64_finite a = true -> f64_finite b = true ->
  (f64_both_tiny a b = true -> a = b) ->
  exists r, __adddf3 a b = Some r /\ __adddf3 b a = Some r.
Proof.
  unfold f64_finite. intros Fa Fb Htiny.
  apply Bool.negb_true_iff in Fa, Fb.
  rewrite !adddf3_unfold, Fa, Fb. unfold f64_both_tiny in Htiny.
  destruct (f64_is_zero a) eqn:Za, (f64_is_zero b) eqn:Zb.
  - rewrite (f64_zero_exp a Za), (f64_zero_exp b Zb) in Htiny.
    rewrite (Htiny eq_refl). eexists; split; reflexivity.
  - eexists; split; reflexivity.
  - eexists; split; reflexivity.
  - destruct (Z.eqb_spec (f64_exp a) 0) as [Ea|Ea],
             (Z.eqb_spec (f64_exp b) 0) as [Eb|Eb].
    + rewrite (Htiny eq_refl). eexists; split; reflexivity.
    + eexists; split; reflexivity.
    + eexists; split; reflexivity.
    + rewrite (f64_align_swap a b).
      destruct (f64_align a b _ _ _ _) as [r|[[[fa fb] ea] eb]].
      * eexists; split; reflexivity.
      * cbn iota. rewrite (f64_add_rest_comm (f64_sign a) (f64_sign b) fa fb ea).
        destruct (f64_add_rest_total (f64_sign a) (f64_sign b) fa fb ea) as (r & ->).
        exists r; split; reflexivity.
Qed.

(** Addition always returns: its loops stay within their bounds. *)
Lemma addsf3_total (a b : Z) : exists r, __addsf3 a b = Some r.
Proof.
  rewrite addsf3_unfold.
  destruct (f32_is_zero a); [eexists; reflexivity|].
  destruct (f32_is_zero b); [eexists; reflexivity|].
  destruct (f32_exp a =? 0); [eexists; reflexivity|].
  destruct (f32_exp b =? 0); [eexists; reflexivity|].
  destruct (f32_align a b _ _ _ _) as [r|[[[fa fb] ea] eb]];
    [eexists; reflexivity|apply f32_add_rest_total].
Qed.

Lemma adddf3_total (a b : Z) : exists r, __adddf3 a b = Some r.
Proof.
  rewrite adddf3_unfold.
  destruct (f64_is_zero a); [eexists; reflexivity|].
  destruct (f64_is_zero b); [eexists; reflexivity|].
  destruct (f64_exp a =? 0); [eexists; reflexivity|].
  destruct (f64_exp b =? 0); [eexists; reflexivity|].
  destruct (f64_exp a =? 0x7FF); [eexists; reflexivity|].
  destruct (f64_exp b =? 0x7FF); [eexists; reflexivity|].
  destruct (f64_align a b _ _ _ _) as [r|[[[fa fb] ea] eb]];
    [eexists; reflexivity|apply f64_add_rest_total].
Qed.

Lemma mulsf3_comm (a b : Z) : __mulsf3 a b = __mulsf3 b a.
Proof.
  unfold __mulsf3, f32_to_bits.
  rewrite (Z.lxor_comm (f32_sign b)), (Bool.orb_comm (Z.land b _ =? 0)),
    (Bool.orb_comm (f32_exp b =? 255)), (Z.mul_comm (Z.lor (f32_frac b) _)),
    (Z.add_comm (f32_exp b)).
  reflexivity.
Qed.

Lemma mul_u64_comm (a b : Z) : mul_u64 a b = mul_u64 b a.
Proof.
  unfold mul_u64.
  rewrite (Z.mul_comm (Z.land b _) (Z.land a _)),
    (Z.mul_comm (Z.land b _) (Z.shiftr a _)),
    (Z.mul_comm (Z.shiftr b _) (Z.land a _)),
    (Z.mul_comm (Z.shiftr b _) (Z.shiftr a _)).
  set (p0 := wrap64 (Z.land a _ * Z.land b _)).
  set (p1 := wrap64 (Z.land a _ * Z.shiftr b _)).
  set (p2 := wrap64 (Z.shiftr a _ * Z.land b _)).
  set (p3 := wrap64 (Z.shiftr a _ * Z.shiftr b _)).
  rewrite (Z.add_comm (Z.land p2 _) (Z.land p1 _)).
  set (mid := wrap64 (Z.land p1 _ + Z.land p2 _ + _)).
  replace (p3 + Z.shiftr p2 32 + Z.shiftr p1 32 + Z.shiftr mid 32)
    with (p3 + Z.shiftr p1 32 + Z.shiftr p2 32 + Z.shiftr mid 32) by lia.
  reflexivity.
Qed.

Lemma muldf3_comm (a b : Z) : __muldf3 a b = __muldf3 b a.
Proof.
  unfold __muldf3, f64_to_bits.
  rewrite (Z.lxor_comm (f64_sign b)), (Bool.orb_comm (Z.land b _ =? 0)),
    (Bool.orb_comm (f64_exp b =? 0x7FF)),
    (mul_u64_comm (Z.lor (f64_frac b) _)), (Z.add_comm (f64_exp b)).
  reflexivity.
Qed.

(** C2 (corrected).  For finite operands, addition commutes bit for
    bit except on two distinct zeros (+0 and -0) and on two distinct
    nonzero subnormals, where it returns its second operand; and the
    sum is always produced.  Multiplication commutes bit for bit on
    every pair; for floats and doubles. *)
Theorem C2_commutativity (a b x y : Z) :
  f32_finite a = true -> f32_finite b = true ->
  f64_finite x = true -> f64_finite y = true ->
  ((f32_both_tiny a b = true -> a = b) ->
   exists r, __addsf3 a b = Some r /\ __addsf3 b a = Some r) /\
  __mulsf3 a b = __mulsf3 b a /\
  ((f64_both_tiny x y = true -> x = y) ->
   exists r, __adddf3 x y = Some r /\ __adddf3 y x = Some r) /\
  __muldf3 x y = __muldf3 y x.
Proof.
  intros Fa Fb Fx Fy.
  split; [exact (addsf3_comm a b)|].
  split; [exact (mulsf3_comm a b)|].
  split; [exact (adddf3_comm x y Fx Fy)|].
  exact (muldf3_comm x y).
Qed.

(** Instances: 1.0f and 2.0f, 1.5 and -0.0. *)
Lemma C2_commutativity_witness :
  f32_finite 0x3F800000 = true /\ f32_finite 0x40000000 = true /\
  f64_finite 0x3FF8000000000000 = true /\ f64_finite 0x8000000000000000 = true /\
  (f32_both_tiny 0x3F800000 0x40000000 = true -> 0x3F800000 = 0x40000000) /\
  (exists r, __addsf3 0x3F800000 0x40000000 = Some r /\
             __addsf3 0x40000000 0x3F800000 = Some r) /\
  __mulsf3 0x3F800000 0x40000000 = __mulsf3 0x40000000 0x3F800000 /\
  (f64_both_tiny 0x3FF8000000000000 0x8000000000000000 = true ->
   0x3FF8000000000000 = 0x8000000000000000) /\
  (exists r, __adddf3 0x3FF8000000000000 0x8000000000000000 = Some r /\
             __adddf3 0x8000000000000000 0x3FF8000000000000 = Some r) /\
  __muldf3 0x3FF8000000000000 0x8000000000000000
  = __muldf3 0x8000000000000000 0x3FF8000000000000.
Proof.
  assert (T32 : f32_both_tiny 0x3F800000 0x40000000 = true ->
                0x3F800000 = 0x40000000) by (intros H; discriminate H).
  assert (T64 : f64_both_tiny 0x3FF8000000000000 0x8000000000000000 = true ->
                0x3FF8000000000000 = 0x8000000000000000)
    by (intros H; discriminate H).
  pose proof (C2_commutativity 0x3F800000 0x40000000
                0x3FF8000000000000 0x8000000000000000
                eq_refl eq_refl eq_refl eq_refl) as (A32 & M32 & A64 & M64).
  split; [reflexivity|]. split; [reflexivity|].
  split; [reflexivity|]. split; [reflexivity|].
  split; [exact T32|]. split; [exact (A32 T32)|]. split; [exact M32|].
  split; [exact T64|]. split; [exact (A64 T64)|]. exact M64.
Defined.

(** C2 as stated fails: +0 and -0 are finite, and so are the two
    smallest subnormals, yet their sums depend on the order. *)
Lemma C2_counterexample :
  f32_finite 0 = true /\ f32_finite 0x80000000 = true /\
  __addsf3 0 0x80000000 = Some 0x80000000 /\
  __addsf3 0x80000000 0 = Some 0 /\
  f32_finite 1 = true /\ f32_finite 2 = true /\
  __addsf3 1 2 = Some 2 /\ __addsf3 2 1 = Some 1 /\
  f64_finite 0 = true /\ f64_finite 0x8000000000000000 = true /\
  __adddf3 0 0x8000000000000000 = Some 0x8000000000000000 /\
  __adddf3 0x8000000000000000 0 = Some 0.
Proof. repeat split; reflexivity. Qed.

Lemma f32_zero_cases v :
  is_u32 v -> f32_is_zero v = true -> v = 0 \/ v = 0x80000000.
Proof.
  unfold is_u32, f32_is_zero. intros Hv H. apply Z.eqb_eq in H.
  change 0x7FFFFFFF with (Z.ones 31) in H. rewrite Z.land_ones in H by lia.
  pose proof (Z.div_mod v (2 ^ 31) ltac:(lia)) as Hd. rewrite H in Hd.
  assert (0 <= v / 2 ^ 31 < 2)
    by (split; [apply Z.div_pos|apply Z.div_lt_upper_bound]; lia).
  lia.
Qed.

Lemma f64_zero_cases v :
  is_u64 v -> f64_is_zero v = true -> v = 0 \/ v = 0x8000000000000000.
Proof.
  unfold is_u64, f64_is_zero. intros Hv H. apply Z.eqb_eq in H.
  change 0x7FFFFFFFFFFFFFFF with (Z.ones 63) in H.
  rewrite Z.land_ones in H by lia.
  pose proof (Z.div_mod v (2 ^ 63) ltac:(lia)) as Hd. rewrite H in Hd.
  assert (0 <= v / 2 ^ 63 < 2)
    by (split; [apply Z.div_pos|apply Z.div_lt_upper_bound]; lia).
  lia.
Qed.

Lemma lxor_twice (v c : Z) : Z.lxor (Z.lxor v c) c = v.
Proof. rewrite Z.lxor_assoc, Z.lxor_nilpotent. apply Z.lxor_0_r. Qed.

(** C3 (corrected).  For every finite value v other than negative
    zero, adding +0 returns v bit for bit; and negating twice returns
    every finite v bit for bit; for floats and doubles. *)
Theorem C3_add_zero_neg_neg (v x : Z) :
  is_u32 v -> is_u64 x -> f32_finite v = true -> f64_finite x = true ->
  (v <> 0x80000000 -> __addsf3 v 0 = Some v) /\
  (x <> 0x8000000000000000 -> __adddf3 x 0 = Some x) /\
  __negsf2 (__negsf2 v) = v /\ __negdf2 (__negdf2 x) = x.
Proof.
  intros Hv Hx Fv Fx. split; [|split; [|split]].
  - intros Hnz. rewrite addsf3_unfold.
    destruct (f32_is_zero v) eqn:Z.
    + destruct (f32_zero_cases v Hv Z) as [->| ->]; [reflexivity|contradiction].
    + reflexivity.
  - intros Hnz. rewrite adddf3_unfold.
    destruct (f64_is_zero x) eqn:Z.
    + destruct (f64_zero_cases x Hx Z) as [->| ->]; [reflexivity|contradiction].
    + reflexivity.
  - apply lxor_twice.
  - apply lxor_twice.
Qed.

(** Instances: -1.5f and the double 2.0. *)
Lemma C3_add_zero_neg_neg_witness :
  is_u32 0xBFC00000 /\ is_u64 0x4000000000000000 /\
  f32_finite 0xBFC00000 = true /\ f64_finite 0x4000000000000000 = true /\
  0xBFC00000 <> 0x80000000 /\ __addsf3 0xBFC00000 0 = Some 0xBFC00000 /\
  0x4000000000000000 <> 0x8000000000000000 /\
  __adddf3 0x4000000000000000 0 = Some 0x4000000000000000 /\
  __negsf2 (__negsf2 0xBFC00000) = 0xBFC00000 /\
  __negdf2 (__negdf2 0x4000000000000000) = 0x4000000000000000.
Proof.
  assert (H1 : is_u32 0xBFC00000) by (unfold is_u32; lia).
  assert (H2 : is_u64 0x4000000000000000) by (unfold is_u64; lia).
  assert (N1 : 0xBFC00000 <> 0x80000000) by discriminate.
  assert (N2 : 0x4000000000000000 <> 0x8000000000000000) by discriminate.
  pose proof (C3_add_zero_neg_neg 0xBFC00000 0x4000000000000000
                H1 H2 eq_refl eq_refl) as (A32 & A64 & G32 & G64).
  split; [exact H1|]. split; [exact H2|].
  split; [reflexivity|]. split; [reflexivity|].
  split; [exact N1|]. split; [exact (A32 N1)|].
  split; [exact N2|]. split; [exact (A64 N2)|].
  split; [exact G32|exact G64].
Defined.

(** C3 as stated fails at negative zero, a finite value that is not a
    NaN: -0 + +0 is +0. *)
Lemma C3_counterexample :
  f32_finite 0x80000000 = true /\ f32_is_nan 0x80000000 = false /\
  __addsf3 0x80000000 0 = Some 0 /\
  f64_finite 0x8000000000000000 = true /\ f64_is_nan 0x8000000000000000 = false /\
  __adddf3 0x8000000000000000 0 = Some 0.
Proof. repeat split; reflexivity. Qed.

(** *** Integer to floating point *)

Lemma land_top_bit (n u : Z) :
  0 <= n -> 0 <= u < 2 ^ (n + 1) ->
  Z.land u (2 ^ n) = if u <? 2 ^ n then 0 else 2 ^ n.
Proof.
  intros Hn Hu.
  assert (Hlow : forall v, 0 <= v < 2 ^ n -> Z.land v (2 ^ n) = 0).
  { intros v Hv. apply Z.bits_inj'. intros i Hi.
    rewrite Z.land_spec, Z.bits_0, Z.pow2_bits_eqb by lia.
    destruct (Z.eqb_spec n i) as [->|Hne]; [|apply Bool.andb_false_r].
    rewrite (testbit_high v i) by lia. reflexivity. }
  destruct (Z.ltb_spec u (2 ^ n)) as [Hlt|Hge]; [apply Hlow; lia|].
  rewrite Z.pow_add_r in Hu by lia. change (2 ^ 1) with 2 in Hu.
  replace u with (1 * 2 ^ n + (u - 2 ^ n)) by lia.
  rewrite <- lor_shift_add by lia.
  rewrite Z.land_lor_distr_l, Z.mul_1_l, Z.land_diag, Hlow by lia.
  apply Z.lor_0_r.
Qed.

Lemma div_mod_pack (q r n : Z) :
  0 <= r < n -> (q * n + r) / n = q /\ (q * n + r) mod n = r.
Proof.
  intros Hr. split.
  - symmetry. apply Z.div_unique with r; lia.
  - symmetry. apply Z.mod_unique with q; lia.
Qed.

Lemma f32_count_zeros_spec (ua e : Z) :
  0 < ua < 2 ^ 32 ->
  exists k, 0 <= k /\ f32_count_zeros ua e = Some (ua * 2 ^ k, e - k) /\
            2 ^ 31 <= ua * 2 ^ k < 2 ^ 32.
Proof.
  intros Hua. unfold f32_count_zeros.
  destruct (while_inv (fun s => Z.land (fst s) 0x80000000 =? 0)
              (fun s => (wrap32 (Z.shiftl (fst s) 1), snd s - 1))
              (fun s => exists k, 0 <= k /\ fst s = ua * 2 ^ k /\ snd s = e - k /\
                                  0 < fst s < 2 ^ 32)
              (fun s => 31 - Z.log2 (fst s)))
    with (fuel := 32%nat) (s := (ua, e)) as ([u' e'] & Hw & (k & Hk & Hu & He & Hr) & Hc).
  - intros [u x] (k & Hk & Hu & He & Hr) Hc. cbn [fst snd] in *.
    apply Z.eqb_eq in Hc. change 0x80000000 with (2 ^ 31) in Hc.
    rewrite (land_top_bit 31 u) in Hc by (change (2 ^ (31 + 1)) with (2 ^ 32); lia).
    destruct (Z.ltb_spec u (2 ^ 31)) as [Hlt|]; [|discriminate].
    assert (Hsh : wrap32 (Z.shiftl u 1) = 2 * u).
    { unfold wrap32. rewrite Z.shiftl_mul_pow2 by lia. change (2 ^ 1) with 2.
      rewrite Z.mod_small; lia. }
    rewrite Hsh. split; [|split].
    + exists (k + 1). rewrite Z.pow_add_r by lia. change (2 ^ 1) with 2.
      repeat split; lia.
    + assert (Z.log2 u < 31) by (apply Z.log2_lt_pow2; lia). lia.
    + rewrite Z.log2_double by lia. lia.
  - exists 0. cbn [fst snd]. rewrite Z.mul_1_r. repeat split; lia.
  - cbn [fst]. pose proof (Z.log2_nonneg ua). lia.
  - cbn [fst snd] in *. exists k. subst u' e'.
    split; [assumption|]. split; [assumption|].
    apply Z.eqb_neq in Hc. change 0x80000000 with (2 ^ 31) in Hc.
    rewrite (land_top_bit 31) in Hc by (change (2 ^ (31 + 1)) with (2 ^ 32); lia).
    destruct (Z.ltb_spec (ua * 2 ^ k) (2 ^ 31)); [contradiction|lia].
Qed.

Lemma f64_count_zeros_spec (a e : Z) :
  0 < a < 2 ^ 64 ->
  exists k, 0 <= k /\ f64_count_zeros a e = Some (a * 2 ^ k, e - k) /\
            2 ^ 63 <= a * 2 ^ k < 2 ^ 64.
Proof.
  intros Ha. unfold f64_count_zeros. change (shl64 1 63) with (2 ^ 63).
  destruct (while_inv (fun s => Z.land (fst s) (2 ^ 63) =? 0)
              (fun s => (shl64 (fst s) 1, snd s - 1))
              (fun s => exists k, 0 <= k /\ fst s = a * 2 ^ k /\ snd s = e - k /\
                                  0 < fst s < 2 ^ 64)
              (fun s => 63 - Z.log2 (fst s)))
    with (fuel := 64%nat) (s := (a, e)) as ([u' e'] & Hw & (k & Hk & Hu & He & Hr) & Hc).
  - intros [u x] (k & Hk & Hu & He & Hr) Hc. cbn [fst snd] in *.
    apply Z.eqb_eq in Hc.
    rewrite (land_top_bit 63 u) in Hc by (change (2 ^ (63 + 1)) with (2 ^ 64); lia).
    destruct (Z.ltb_spec u (2 ^ 63)) as [Hlt|]; [|discriminate].
    assert (Hsh : shl64 u 1 = 2 * u).
    { unfold shl64, wrap64. rewrite (Z.mod_small u) by lia.
      rewrite Z.shiftl_mul_pow2 by lia. change (2 ^ 1) with 2.
      rewrite Z.mod_small; lia. }
    rewrite Hsh. split; [|split].
    + exists (k + 1). rewrite Z.pow_add_r by lia. change (2 ^ 1) with 2.
      repeat split; lia.
    + assert (Z.log2 u < 63) by (apply Z.log2_lt_pow2; lia). lia.
    + rewrite Z.log2_double by lia. lia.
  - exists 0. cbn [fst snd]. rewrite Z.mul_1_r. repeat split; lia.
  - cbn [fst]. pose proof (Z.log2_nonneg a). lia.
  - cbn [fst snd] in *. exists k. subst u' e'.
    split; [assumption|]. split; [assumption|].
    apply Z.eqb_neq in Hc.
    rewrite (land_top_bit 63) in Hc by (change (2 ^ (63 + 1)) with (2 ^ 64); lia).
    destruct (Z.ltb_spec (a * 2 ^ k) (2 ^ 63)); [contradiction|lia].
Qed.

(** Packing three fields and reading them back. *)
Lemma f32_pack_fields (s e f : Z) :
  0 <= s < 2 -> 0 <= e < 256 -> 0 <= f < 2 ^ 23 ->
  let bits := Z.lor (Z.lor (shl32 s 31) (shl32 e 23)) f in
  f32_sign bits = s /\ f32_exp bits = e /\ f32_frac bits = f.
Proof.
  intros Hs He Hf bits.
  assert (Hbits : bits = (s * 256 + e) * 2 ^ 23 + f).
  { subst bits. unfold shl32, wrap32.
    rewrite (Z.mod_small s), (Z.mod_small e), !Z.shiftl_mul_pow2 by lia.
    rewrite (Z.mod_small (s * _)), (Z.mod_small (e * _)) by lia.
    rewrite (lor_shift_add s) by lia.
    replace (s * 2 ^ 31 + e * 2 ^ 23) with ((s * 256 + e) * 2 ^ 23) by lia.
    apply lor_shift_add; lia. }
  unfold f32_sign, f32_exp, f32_frac. rewrite Hbits.
  change 0xFF with (Z.ones 8). change 0x7FFFFF with (Z.ones 23).
  rewrite land_1_mod, !Z.land_ones, !Z.shiftr_div_pow2 by lia.
  destruct (div_mod_pack (s * 256 + e) f (2 ^ 23) ltac:(lia)) as [-> ->].
  replace ((s * 256 + e) * 2 ^ 23 + f) with (s * 2 ^ 31 + (e * 2 ^ 23 + f)) by lia.
  destruct (div_mod_pack s (e * 2 ^ 23 + f) (2 ^ 31) ltac:(lia)) as [-> _].
  destruct (div_mod_pack s e (2 ^ 8) ltac:(lia)) as [_ Hm].
  replace (s * 256 + e) with (s * 2 ^ 8 + e) by lia. rewrite Hm.
  rewrite Z.mod_small by lia. auto.
Qed.

Lemma f64_pack_fields (s e f : Z) :
  0 <= s < 2 -> 0 <= e < 2048 -> 0 <= f < 2 ^ 52 ->
  let bits := Z.lor (Z.lor (shl64 s 63) (shl64 e 52)) f in
  f64_sign bits = s /\ f64_exp bits = e /\ f64_frac bits = f.
Proof.
  intros Hs He Hf bits.
  assert (Hbits : bits = (s * 2048 + e) * 2 ^ 52 + f).
  { subst bits. unfold shl64, wrap64.
    rewrite (Z.mod_small s), (Z.mod_small e), !Z.shiftl_mul_pow2 by lia.
    rewrite (Z.mod_small (s * _)), (Z.mod_small (e * _)) by lia.
    rewrite (lor_shift_add s) by lia.
    replace (s * 2 ^ 63 + e * 2 ^ 52) with ((s * 2048 + e) * 2 ^ 52) by lia.
    apply lor_shift_add; lia. }
  unfold f64_sign, f64_exp, f64_frac. rewrite Hbits.
  change 0x7FF with (Z.ones 11). change 0xFFFFFFFFFFFFF with (Z.ones 52).
  rewrite land_1_mod, !Z.land_ones, !Z.shiftr_div_pow2 by lia.
  destruct (div_mod_pack (s * 2048 + e) f (2 ^ 52) ltac:(lia)) as [-> ->].
  replace ((s * 2048 + e) * 2 ^ 52 + f) with (s * 2 ^ 63 + (e * 2 ^ 52 + f)) by lia.
  destruct (div_mod_pack s (e * 2 ^ 52 + f) (2 ^ 63) ltac:(lia)) as [-> _].
  destruct (div_mod_pack s e (2 ^ 11) ltac:(lia)) as [_ Hm].
  replace (s * 2048 + e) with (s * 2 ^ 11 + e) by lia. rewrite Hm.
  rewrite Z.mod_small by lia. auto.
Qed.

(** The mantissa of a normalised integer, scaled back. *)
Lemma normalised_value (x k w E m : Z) :
  0 <= k <= E -> 0 <= w <= E -> m = x * 2 ^ k -> m mod 2 ^ w = 0 ->
  m / 2 ^ w * 2 ^ (E - k) = x * 2 ^ (E - w).
Proof.
  intros Hk Hw Hm Hdiv.
  assert (Hpos : 0 < 2 ^ w) by (apply Z.pow_pos_nonneg; lia).
  pose proof (Z.div_mod m (2 ^ w) ltac:(lia)) as Hd. rewrite Hdiv in Hd.
  apply (Z.mul_reg_r _ _ (2 ^ w)); [lia|].
  replace (m / 2 ^ w * 2 ^ (E - k) * 2 ^ w) with (m * 2 ^ (E - k)) by nia.
  rewrite Hm, <- !Z.mul_assoc, <- !Z.pow_add_r by lia.
  f_equal. f_equal. lia.
Qed.

Lemma shifted_divisible (x k w : Z) :
  0 <= w <= k -> (x * 2 ^ k) mod 2 ^ w = 0.
Proof.
  intros H. replace k with ((k - w) + w) by lia.
  rewrite Z.pow_add_r, Z.mul_assoc by lia.
  apply Z.mod_mul. apply Z.pow_nonzero; lia.
Qed.

Lemma shift_bound (u k n : Z) :
  0 < u -> 0 <= k -> 0 <= n -> u * 2 ^ k < 2 ^ n -> k < n.
Proof.
  intros Hu Hk Hn Hlt.
  assert (0 < 2 ^ k) by (apply Z.pow_pos_nonneg; lia).
  apply (Z.pow_lt_mono_r_iff 2); [lia..|]. nia.
Qed.

Lemma shift_at_least (u k n j : Z) :
  0 < u <= 2 ^ j -> 0 <= k -> 0 <= j -> 2 ^ n <= u * 2 ^ k -> n <= j + k.
Proof.
  intros Hu Hk Hj Hle.
  assert (0 < 2 ^ k) by (apply Z.pow_pos_nonneg; lia).
  apply (Z.pow_le_mono_r_iff 2); [lia..|].
  rewrite Z.pow_add_r by lia. nia.
Qed.

Lemma f32_small_divisible (ua k : Z) :
  0 < ua <= 2 ^ 24 -> 0 <= k -> 2 ^ 31 <= ua * 2 ^ k ->
  (ua * 2 ^ k) mod 2 ^ 8 = 0.
Proof.
  intros Hua Hk Hle.
  pose proof (shift_at_least ua k 31 24 Hua Hk ltac:(lia) Hle) as Hk7.
  destruct (Z.le_gt_cases 8 k) as [H8|H8]; [apply shifted_divisible; lia|].
  assert (k = 7) by lia. subst k.
  assert (ua = 2 ^ 24) by lia. subst ua. reflexivity.
Qed.

Lemma floatsisf_exact (x : Z) :
  Z.abs x <= 2 ^ 24 ->
  exists r, __floatsisf x = Some r /\ f32_finite r = true /\
            (f32_value r == inject_Z x)%Q.
Proof.
  intros Hx. unfold __floatsisf, bits_to_f32.
  destruct (Z.eqb_spec x 0) as [->|Hnz].
  { exists 0. split; [reflexivity|]. split; reflexivity. }
  set (s := if x <? 0 then 1 else 0).
  assert (Hpair : (if x <? 0 then (1, wrap32 (- x)) else (0, wrap32 x))
                  = (s, Z.abs x)).
  { subst s. unfold wrap32. destruct (Z.ltb_spec x 0);
      rewrite Z.mod_small by lia; f_equal; lia. }
  rewrite Hpair. clear Hpair.
  assert (Hua : 0 < Z.abs x < 2 ^ 32) by lia.
  destruct (f32_count_zeros_spec (Z.abs x) (127 + 31) Hua) as (k & Hk & -> & Hr).
  pose proof (shift_bound (Z.abs x) k 32 ltac:(lia) Hk ltac:(lia) (proj2 Hr)) as Hk32.
  set (m := Z.abs x * 2 ^ k) in *.
  pose proof (f32_small_divisible (Z.abs x) k ltac:(lia) Hk (proj1 Hr)) as Hdiv.
  fold m in Hdiv.
  assert (Hq : 2 ^ 23 <= m / 2 ^ 8 < 2 ^ 24).
  { split; [apply Z.div_le_lower_bound|apply Z.div_lt_upper_bound]; lia. }
  assert (Hfrac : Z.land (Z.shiftr m 8) 0x7FFFFF = m / 2 ^ 8 - 2 ^ 23).
  { change 0x7FFFFF with (Z.ones 23).
    rewrite Z.land_ones, Z.shiftr_div_pow2 by lia.
    symmetry. apply Z.mod_unique with 1; lia. }
  rewrite Hfrac.
  destruct (f32_pack_fields s (127 + 31 - k) (m / 2 ^ 8 - 2 ^ 23))
    as (Hsign & Hexp & Hfr); [subst s; destruct (x <? 0); lia|lia|lia|].
  eexists. split; [reflexivity|]. split.
  - unfold f32_finite. rewrite Hexp.
    destruct (Z.eqb_spec (127 + 31 - k) 0xFF); [lia|reflexivity].
  - unfold Qeq, f32_value, f32_scaled. cbn [Qnum Qden inject_Z].
    rewrite Hsign, Hexp, Hfr, Pos2Z.inj_pow.
    destruct (Z.eqb_spec (127 + 31 - k) 0); [lia|].
    replace (2 ^ 23 + (m / 2 ^ 8 - 2 ^ 23)) with (m / 2 ^ 8) by lia.
    replace (127 + 31 - k - 1) with (157 - k) by lia.
    rewrite (normalised_value (Z.abs x) k 8 157 m) by (lia || reflexivity).
    change (157 - 8) with 149. change (Z.pos 2 ^ Z.pos 149) with (2 ^ 149).
    subst s. destruct (Z.ltb_spec x 0); cbn [Z.eqb]; lia.
Qed.

Lemma floatsidf_exact (y : Z) :
  0 <= y < 2 ^ 31 ->
  exists r, __floatsidf y = Some r /\ f64_finite r = true /\
            (f64_value r == inject_Z y)%Q.
Proof.
  intros Hy. unfold __floatsidf, u64_to_f64_bits, bits_to_f64. cbv zeta.
  destruct (Z.ltb_spec y 0); [lia|]. cbv beta iota.
  unfold wrap64 at 1 2, wrap32.
  rewrite (Z.mod_small y (2 ^ 32)), (Z.mod_small y (2 ^ 64)) by lia.
  destruct (Z.eqb_spec y 0) as [->|Hnz].
  { exists 0. split; [reflexivity|]. split; reflexivity. }
  assert (Hua : 0 < y < 2 ^ 64) by lia.
  destruct (f64_count_zeros_spec y (1023 + 63) Hua) as (k & Hk & -> & Hr).
  pose proof (shift_bound y k 64 ltac:(lia) Hk ltac:(lia) (proj2 Hr)) as Hk64.
  pose proof (shift_at_least y k 63 31 ltac:(lia) Hk ltac:(lia) (proj1 Hr)) as Hk32.
  set (m := y * 2 ^ k) in *.
  pose proof (shifted_divisible y k 11 ltac:(lia)) as Hdiv. fold m in Hdiv.
  assert (Hq : 2 ^ 52 <= m / 2 ^ 11 < 2 ^ 53).
  { split; [apply Z.div_le_lower_bound|apply Z.div_lt_upper_bound]; lia. }
  assert (Hfrac : Z.land (Z.shiftr m 11) 0xFFFFFFFFFFFFF = m / 2 ^ 11 - 2 ^ 52).
  { change 0xFFFFFFFFFFFFF with (Z.ones 52).
    rewrite Z.land_ones, Z.shiftr_div_pow2 by lia.
    symmetry. apply Z.mod_unique with 1; lia. }
  rewrite Hfrac.
  destruct (f64_pack_fields 0 (1023 + 63 - k) (m / 2 ^ 11 - 2 ^ 52))
    as (Hsign & Hexp & Hfr); [lia..|].
  eexists. split; [reflexivity|]. split.
  - unfold f64_finite. rewrite Hexp.
    destruct (Z.eqb_spec (1023 + 63 - k) 0x7FF); [lia|reflexivity].
  - unfold Qeq, f64_value, f64_scaled. cbn [Qnum Qden inject_Z].
    rewrite Hsign, Hexp, Hfr, Pos2Z.inj_pow.
    destruct (Z.eqb_spec (1023 + 63 - k) 0); [lia|].
    replace (2 ^ 52 + (m / 2 ^ 11 - 2 ^ 52)) with (m / 2 ^ 11) by lia.
    replace (1023 + 63 - k - 1) with (1085 - k) by lia.
    rewrite (normalised_value y k 11 1085 m) by (lia || reflexivity).
    change (1085 - 11) with 1074. change (Z.pos 2 ^ Z.pos 1074) with (2 ^ 1074).
    cbn [Z.eqb]. lia.
Qed.

(** Both conversions return for every 32-bit signed integer. *)
Lemma floatsisf_total (x : Z) : is_i32 x -> exists r, __floatsisf x = Some r.
Proof.
  unfold is_i32. intros Hx. unfold __floatsisf.
  destruct (Z.eqb_spec x 0); [eexists; reflexivity|].
  assert (Hpair : (if x <? 0 then (1, wrap32 (- x)) else (0, wrap32 x))
                  = (if x <? 0 then 1 else 0, Z.abs x)).
  { unfold wrap32. destruct (Z.ltb_spec x 0);
      rewrite Z.mod_small by lia; f_equal; lia. }
  rewrite Hpair.
  destruct (f32_count_zeros_spec (Z.abs x) (127 + 31) ltac:(lia))
    as (k & _ & -> & _).
  eexists; reflexivity.
Qed.

Lemma floatsidf_total (x : Z) : is_i32 x -> exists r, __floatsidf x = Some r.
Proof.
  unfold is_i32. intros Hx. unfold __floatsidf, u64_to_f64_bits. cbv zeta.
  set (p := if x <? 0 then _ else _).
  assert (Hp : 0 <= snd p < 2 ^ 64).
  { subst p. destruct (x <? 0); cbn [snd]; apply Z.mod_pos_bound; lia. }
  destruct p as [sign ua]. cbn [snd] in Hp.
  destruct (Z.eqb_spec ua 0); [eexists; reflexivity|].
  destruct (f64_count_zeros_spec ua (1023 + 63) ltac:(lia)) as (k & _ & -> & _).
  eexists; reflexivity.
Qed.

(** C6 (corrected).  [__floatsisf] is exact for every integer of
    magnitude at most 2^24: it returns a finite pattern whose value is
    the integer.  [__floatsidf] is exact for every non-negative 32-bit
    signed integer. *)
Theorem C6_int_to_float_exact (x y : Z) :
  Z.abs x <= 2 ^ 24 -> 0 <= y < 2 ^ 31 ->
  (exists r, __floatsisf x = Some r /\ f32_finite r = true /\
             (f32_value r == inject_Z x)%Q) /\
  (exists r, __floatsidf y = Some r /\ f64_finite r = true /\
             (f64_value r == inject_Z y)%Q).
Proof.
  intros Hx Hy. split; [exact (floatsisf_exact x Hx)|exact (floatsidf_exact y Hy)].
Qed.

Lemma C6_int_to_float_exact_witness :
  Z.abs (-16777215) <= 2 ^ 24 /\ 0 <= 2147483647 < 2 ^ 31 /\
  (exists r, __floatsisf (-16777215) = Some r /\ f32_finite r = true /\
             (f32_value r == inject_Z (-16777215))%Q) /\
  (exists r, __floatsidf 2147483647 = Some r /\ f64_finite r = true /\
             (f64_value r == inject_Z 2147483647)%Q).
Proof.
  assert (H1 : Z.abs (-16777215) <= 2 ^ 24) by (cbn; lia).
  assert (H2 : 0 <= 2147483647 < 2 ^ 31) by lia.
  split; [exact H1|]. split; [exact H2|].
  exact (C6_int_to_float_exact (-16777215) 2147483647 H1 H2).
Defined.

(** C6 as stated fails: 2^24 + 1 is a 32-bit signed integer and
    [__floatsisf] returns the pattern of 2^24 for it; and [__floatsidf]
    returns for -5 a pattern whose value is -(2^64 - 2^32 + 5). *)
Lemma C6_counterexample :
  is_i32 16777217 /\
  __floatsisf 16777217 = Some 0x4B800000 /\
  (f32_value 0x4B800000 == inject_Z 16777216)%Q /\
  ~ (f32_value 0x4B800000 == inject_Z 16777217)%Q /\
  is_i32 (-5) /\
  __floatsidf (-5) = Some 0xC3EFFFFFFFE00000 /\
  ~ (f64_value 0xC3EFFFFFFFE00000 == inject_Z (-5))%Q.
Proof.
  unfold is_i32, Qeq.
  repeat split; try reflexivity; try lia; vm_compute; discriminate.
Qed.

End SoftFloatFacts.


(** ** Further properties of the soft-float engine

    The conversions between integers and floating point, the
    comparisons, the 64-bit helpers, and multiplication, addition and
    subtraction on normal operands. *)

Module SoftFloatExtra.
Import SoftFloat SoftFloatFacts.

(** *** Fields of a pattern *)

Lemma f32_frac_range a : 0 <= f32_frac a < 2 ^ 23.
Proof.
  unfold f32_frac. change 0x7FFFFF with (Z.ones 23).
  rewrite Z.land_ones by lia. apply Z.mod_pos_bound. lia.
Qed.

Lemma f32_exp_range a : 0 <= f32_exp a < 256.
Proof.
  unfold f32_exp. change 0xFF with (Z.ones 8).
  rewrite Z.land_ones by lia. apply Z.mod_pos_bound. lia.
Qed.

Lemma f64_frac_range a : 0 <= f64_frac a < 2 ^ 52.
Proof.
  unfold f64_frac. change 0xFFFFFFFFFFFFF with (Z.ones 52).
  rewrite Z.land_ones by lia. apply Z.mod_pos_bound. lia.
Qed.

Lemma f64_exp_range a : 0 <= f64_exp a < 2048.
Proof.
  unfold f64_exp. change 0x7FF with (Z.ones 11).
  rewrite Z.land_ones by lia. apply Z.mod_pos_bound. lia.
Qed.

(** Restoring the implicit bit. *)
Lemma f32_implicit_bit a : Z.lor (f32_frac a) 0x800000 = 2 ^ 23 + f32_frac a.
Proof.
  pose proof (f32_frac_range a). rewrite Z.lor_comm.
  change 0x800000 with (1 * 2 ^ 23). rewrite lor_shift_add by lia. lia.
Qed.

Lemma f64_implicit_bit a : Z.lor (f64_frac a) (shl64 1 52) = 2 ^ 52 + f64_frac a.
Proof.
  pose proof (f64_frac_range a). rewrite Z.lor_comm.
  change (shl64 1 52) with (1 * 2 ^ 52). rewrite lor_shift_add by lia. lia.
Qed.

(** Shifting a mantissa [F] by the exponent is dividing the scaled
    value [F * 2 ^ (e - 1)] by the denominator [2 ^ d]. *)
Lemma shift_is_div (F e d : Z) :
  0 <= F -> 1 <= e -> 0 <= d ->
  (if 0 <=? e - 1 - d then F * 2 ^ (e - 1 - d) else F / 2 ^ (- (e - 1 - d)))
  = F * 2 ^ (e - 1) / 2 ^ d.
Proof.
  intros HF He Hd. destruct (Z.leb_spec 0 (e - 1 - d)) as [Hs|Hs].
  - replace (e - 1) with ((e - 1 - d) + d) at 2 by lia.
    rewrite Z.pow_add_r, Z.mul_assoc by lia.
    rewrite Z.div_mul; [reflexivity|]. apply Z.pow_nonzero; lia.
  - replace d with ((- (e - 1 - d)) + (e - 1)) at 2 by lia.
    rewrite Z.pow_add_r by lia.
    rewrite Z.div_mul_cancel_r; [reflexivity| |]; apply Z.pow_nonzero; lia.
Qed.

Lemma scaled_below_one (F e d : Z) :
  0 <= F < 2 ^ (d - e + 1) -> 1 <= e <= d -> F * 2 ^ (e - 1) / 2 ^ d = 0.
Proof.
  intros HF He. apply Z.div_small. split.
  - apply Z.mul_nonneg_nonneg; [lia|]. apply Z.pow_nonneg; lia.
  - replace d with ((d - e + 1) + (e - 1)) at 1 by lia.
    rewrite Z.pow_add_r by lia.
    apply Z.mul_lt_mono_pos_r; [apply Z.pow_pos_nonneg; lia|lia].
Qed.

(** *** Truncation of a signed scaled value *)

Lemma truncate_signed (s m d : Z) :
  0 <= m -> 0 <= d ->
  truncate ((if s =? 0 then 1 else -1) * m) d
  = (if s =? 0 then 1 else -1) * (m / 2 ^ d).
Proof.
  intros Hm Hd. unfold truncate.
  assert (0 < 2 ^ d) by (apply Z.pow_pos_nonneg; lia).
  destruct (s =? 0).
  - rewrite !Z.mul_1_l. apply Z.quot_div_nonneg; lia.
  - replace (-1 * m) with (- m) by lia.
    rewrite Z.quot_opp_l by lia. rewrite Z.quot_div_nonneg by lia. lia.
Qed.

Lemma to_i32_small (x : Z) : 0 <= x < 2 ^ 31 -> to_i32 x = x.
Proof.
  intros H. unfold to_i32, wrap32. cbv zeta. rewrite Z.mod_small by lia.
  destruct (Z.ltb_spec x (2 ^ 31)); lia.
Qed.

Lemma to_i32_neg (x : Z) : 0 <= x <= 2 ^ 31 -> x <> 0 -> to_i32 (- x) = - x.
Proof.
  intros H H0. unfold to_i32, wrap32. cbv zeta.
  replace (- x) with (2 ^ 32 - x + (-1) * 2 ^ 32) by lia.
  rewrite Z.mod_add by lia. rewrite Z.mod_small by lia.
  destruct (Z.ltb_spec (2 ^ 32 - x) (2 ^ 31)); lia.
Qed.

Lemma to_i32_opp (x : Z) : 0 <= x < 2 ^ 31 -> to_i32 (- x) = - x.
Proof.
  intros H. destruct (Z.eq_dec x 0) as [->|H0]; [reflexivity|].
  apply to_i32_neg; lia.
Qed.

Lemma to_i64_small (x : Z) : 0 <= x < 2 ^ 63 -> to_i64 x = x.
Proof.
  intros H. unfold to_i64, wrap64. cbv zeta. rewrite Z.mod_small by lia.
  destruct (Z.ltb_spec x (2 ^ 63)); lia.
Qed.

Lemma to_i64_opp (x : Z) : 0 <= x < 2 ^ 63 -> to_i64 (- x) = - x.
Proof.
  intros H. destruct (Z.eq_dec x 0) as [->|H0]; [reflexivity|].
  unfold to_i64, wrap64. cbv zeta.
  replace (- x) with (2 ^ 64 - x + (-1) * 2 ^ 64) by lia.
  rewrite Z.mod_add by lia. rewrite Z.mod_small by lia.
  destruct (Z.ltb_spec (2 ^ 64 - x) (2 ^ 63)); lia.
Qed.

(** The integer part of a normal magnitude [F * 2 ^ (e - 1) / 2 ^ d]
    is below [2 ^ n] when the exponent field is below [d - m + n + 1],
    [m] being the width of [F]. *)
Lemma int_part_bound (F e d m n : Z) :
  0 <= F < 2 ^ m -> 1 <= e -> 0 <= d -> 0 <= m -> 0 <= n ->
  e - 1 + m <= d + n ->
  0 <= F * 2 ^ (e - 1) / 2 ^ d < 2 ^ n.
Proof.
  intros HF He Hd Hm Hn Hle.
  assert (0 < 2 ^ d) by (apply Z.pow_pos_nonneg; lia).
  assert (0 < 2 ^ (e - 1)) by (apply Z.pow_pos_nonneg; lia).
  split.
  - apply Z.div_pos; [|lia]. apply Z.mul_nonneg_nonneg; lia.
  - apply Z.div_lt_upper_bound; [lia|].
    rewrite <- Z.pow_add_r by lia.
    apply Z.lt_le_trans with (2 ^ m * 2 ^ (e - 1)).
    + apply Z.mul_lt_mono_pos_r; lia.
    + rewrite <- Z.pow_add_r by lia. apply Z.pow_le_mono_r; lia.
Qed.

(** The shift of the conversions to integer, on a mantissa [F] with the
    implicit bit: a division of the scaled value by its denominator. *)
Lemma fix_shift (F e d : Z) :
  0 <= F -> 1 <= e -> 0 <= d ->
  (if 0 <=? e - 1 - d then Z.shiftl F (e - 1 - d)
   else Z.shiftr F (- (e - 1 - d)))
  = F * 2 ^ (e - 1) / 2 ^ d.
Proof.
  intros HF He Hd. rewrite <- shift_is_div by lia.
  destruct (Z.leb_spec 0 (e - 1 - d)).
  - apply Z.shiftl_mul_pow2; lia.
  - apply Z.shiftr_div_pow2; lia.
Qed.

Lemma f32_scaled_eq a :
  f32_scaled a
  = (if f32_sign a =? 0 then 1 else -1)
    * (if f32_exp a =? 0 then f32_frac a
       else (2 ^ 23 + f32_frac a) * 2 ^ (f32_exp a - 1)).
Proof. reflexivity. Qed.

Lemma f32_int_part a :
  let M := if f32_exp a =? 0 then f32_frac a
           else (2 ^ 23 + f32_frac a) * 2 ^ (f32_exp a - 1) in
  0 <= M /\
  (f32_exp a < 127 -> M / 2 ^ 149 = 0) /\
  (127 <= f32_exp a ->
   M / 2 ^ 149
   = (if 0 <=? f32_exp a - 127 - 23
      then Z.shiftl (Z.lor (f32_frac a) 0x800000) (f32_exp a - 127 - 23)
      else Z.shiftr (Z.lor (f32_frac a) 0x800000) (- (f32_exp a - 127 - 23)))).
Proof.
  pose proof (f32_frac_range a) as Hf. pose proof (f32_exp_range a) as He.
  cbv zeta. destruct (Z.eqb_spec (f32_exp a) 0) as [E0|E0].
  - split; [lia|]. split; [|lia]. intros _. apply Z.div_small. lia.
  - assert (0 < 2 ^ (f32_exp a - 1)) by (apply Z.pow_pos_nonneg; lia).
    split; [apply Z.mul_nonneg_nonneg; lia|]. split.
    + intros Hlt. apply scaled_below_one; [|lia]. split; [lia|].
      apply Z.lt_le_trans with (2 ^ 24); [lia|]. apply Z.pow_le_mono_r; lia.
    + intros Hge. rewrite f32_implicit_bit.
      replace (f32_exp a - 127 - 23) with (f32_exp a - 1 - 149) by lia.
      rewrite fix_shift by lia. reflexivity.
Qed.

Lemma f64_int_part a :
  let M := if f64_exp a =? 0 then f64_frac a
           else (2 ^ 52 + f64_frac a) * 2 ^ (f64_exp a - 1) in
  0 <= M /\
  (f64_exp a < 1023 -> M / 2 ^ 1074 = 0) /\
  (1023 <= f64_exp a ->
   M / 2 ^ 1074
   = (if 0 <=? f64_exp a - 1023 - 52
      then Z.shiftl (Z.lor (f64_frac a) (shl64 1 52)) (f64_exp a - 1023 - 52)
      else Z.shiftr (Z.lor (f64_frac a) (shl64 1 52)) (- (f64_exp a - 1023 - 52)))).
Proof.
  pose proof (f64_frac_range a) as Hf. pose proof (f64_exp_range a) as He.
  cbv zeta. destruct (Z.eqb_spec (f64_exp a) 0) as [E0|E0].
  - split; [lia|]. split; [|lia]. intros _. apply Z.div_small.
    split; [lia|]. apply Z.lt_le_trans with (2 ^ 52); [lia|].
    apply Z.pow_le_mono_r; lia.
  - assert (0 < 2 ^ (f64_exp a - 1)) by (apply Z.pow_pos_nonneg; lia).
    split; [apply Z.mul_nonneg_nonneg; lia|]. split.
    + intros Hlt. apply scaled_below_one; [|lia]. split; [lia|].
      apply Z.lt_le_trans with (2 ^ 53); [lia|]. apply Z.pow_le_mono_r; lia.
    + intros Hge. rewrite f64_implicit_bit.
      replace (f64_exp a - 1023 - 52) with (f64_exp a - 1 - 1074) by lia.
      rewrite fix_shift by lia. reflexivity.
Qed.

Lemma f32_int_bound a n :
  1 <= f32_exp a < 127 + n -> 0 <= n ->
  0 <= (2 ^ 23 + f32_frac a) * 2 ^ (f32_exp a - 1) / 2 ^ 149 < 2 ^ n.
Proof.
  intros He Hn. pose proof (f32_frac_range a).
  apply int_part_bound with (m := 24); lia.
Qed.

Lemma f64_int_bound a n :
  1 <= f64_exp a < 1023 + n -> 0 <= n ->
  0 <= (2 ^ 52 + f64_frac a) * 2 ^ (f64_exp a - 1) / 2 ^ 1074 < 2 ^ n.
Proof.
  intros He Hn. pose proof (f64_frac_range a).
  apply int_part_bound with (m := 53); lia.
Qed.

Lemma fixsfsi_eq (a : Z) :
  __fixsfsi a
  = if f32_exp a <? 158 then truncate (f32_scaled a) 149
    else if f32_sign a =? 0 then 2 ^ 31 - 1 else - 2 ^ 31.
Proof.
  pose proof (f32_int_part a) as (HM & Hlow & Hhigh).
  pose proof (f32_exp_range a) as He.
  unfold __fixsfsi, f32_to_bits. cbv zeta.
  rewrite f32_scaled_eq, truncate_signed by lia.
  change (127 + 31) with 158.
  destruct (Z.ltb_spec (f32_exp a) 127) as [L|L].
  - destruct (Z.ltb_spec (f32_exp a) 158); [|lia].
    rewrite Hlow by lia. destruct (f32_sign a =? 0); reflexivity.
  - destruct (Z.leb_spec 158 (f32_exp a)) as [G|G];
      destruct (Z.ltb_spec (f32_exp a) 158); try lia.
    + destruct (f32_sign a =? 0); reflexivity.
    + specialize (Hhigh L).
      destruct (Z.eqb_spec (f32_exp a) 0); [lia|].
      pose proof (f32_int_bound a 31 ltac:(lia) ltac:(lia)) as Hb.
      rewrite Hhigh in Hb |- *.
      destruct (0 <=? f32_exp a - 127 - 23);
        [set (v := Z.shiftl _ _) in * | set (v := Z.shiftr _ _) in *];
        clearbody v.
      * unfold wrap32. rewrite (Z.mod_small v) by lia.
        rewrite !(to_i32_small v) by lia.
        destruct (f32_sign a =? 0); cbn [negb];
          [lia | rewrite to_i32_opp by lia; lia].
      * rewrite !(to_i32_small v) by lia.
        destruct (f32_sign a =? 0); cbn [negb];
          [lia | rewrite to_i32_opp by lia; lia].
Qed.

Lemma fixunssfsi_eq (a : Z) :
  __fixunssfsi a
  = if negb (f32_sign a =? 0) then 0
    else if f32_exp a <? 159 then truncate (f32_scaled a) 149
    else 2 ^ 32 - 1.
Proof.
  pose proof (f32_int_part a) as (HM & Hlow & Hhigh).
  pose proof (f32_exp_range a) as He.
  unfold __fixunssfsi, f32_to_bits. cbv zeta.
  rewrite f32_scaled_eq, truncate_signed by lia.
  change (127 + 32) with 159.
  destruct (Z.eqb_spec (f32_sign a) 0) as [S0|S0]; cbn [negb]; [|reflexivity].
  rewrite Z.mul_1_l.
  destruct (Z.ltb_spec (f32_exp a) 127) as [L|L].
  - destruct (Z.ltb_spec (f32_exp a) 159); [|lia]. rewrite Hlow by lia. reflexivity.
  - destruct (Z.leb_spec 159 (f32_exp a)) as [G|G];
      destruct (Z.ltb_spec (f32_exp a) 159); try lia.
    specialize (Hhigh L).
      destruct (Z.eqb_spec (f32_exp a) 0); [lia|].
      pose proof (f32_int_bound a 32 ltac:(lia) ltac:(lia)) as Hb.
      rewrite Hhigh in Hb |- *.
      destruct (0 <=? f32_exp a - 127 - 23);
        [set (v := Z.shiftl _ _) in * | set (v := Z.shiftr _ _) in *];
        clearbody v.
      * unfold wrap32. rewrite Z.mod_small by lia. reflexivity.
      * reflexivity.
Qed.

Lemma fixdfsi_eq (a : Z) :
  __fixdfsi a
  = if f64_exp a <? 1054 then truncate (f64_scaled a) 1074
    else if f64_sign a =? 0 then 2 ^ 31 - 1 else - 2 ^ 31.
Proof.
  pose proof (f64_int_part a) as (HM & Hlow & Hhigh).
  pose proof (f64_exp_range a) as He.
  unfold __fixdfsi, f64_to_bits. cbv zeta.
  unfold f64_scaled. rewrite truncate_signed by lia.
  change (1023 + 31) with 1054.
  destruct (Z.ltb_spec (f64_exp a) 1023) as [L|L].
  - destruct (Z.ltb_spec (f64_exp a) 1054); [|lia].
    rewrite Hlow by lia. destruct (f64_sign a =? 0); reflexivity.
  - destruct (Z.leb_spec 1054 (f64_exp a)) as [G|G];
      destruct (Z.ltb_spec (f64_exp a) 1054); try lia.
    + destruct (f64_sign a =? 0); reflexivity.
    + specialize (Hhigh L).
      destruct (Z.eqb_spec (f64_exp a) 0); [lia|].
      pose proof (f64_int_bound a 31 ltac:(lia) ltac:(lia)) as Hb.
      rewrite Hhigh in Hb |- *.
      destruct (0 <=? f64_exp a - 1023 - 52);
        [set (v := Z.shiftl _ _) in * | set (v := Z.shiftr _ _) in *];
        clearbody v.
      * unfold wrap64. rewrite (Z.mod_small v) by lia.
        rewrite !(to_i32_small v) by lia.
        destruct (f64_sign a =? 0); cbn [negb];
          [lia | rewrite to_i32_opp by lia; lia].
      * rewrite !(to_i32_small v) by lia.
        destruct (f64_sign a =? 0); cbn [negb];
          [lia | rewrite to_i32_opp by lia; lia].
Qed.

Lemma fixdfdi_eq (a : Z) :
  __fixdfdi a
  = if f64_exp a <? 1086 then truncate (f64_scaled a) 1074
    else if f64_sign a =? 0 then 2 ^ 63 - 1 else - 2 ^ 63.
Proof.
  pose proof (f64_int_part a) as (HM & Hlow & Hhigh).
  pose proof (f64_exp_range a) as He.
  unfold __fixdfdi, f64_to_bits. cbv zeta.
  unfold f64_scaled. rewrite truncate_signed by lia.
  change (1023 + 63) with 1086.
  destruct (Z.ltb_spec (f64_exp a) 1023) as [L|L].
  - destruct (Z.ltb_spec (f64_exp a) 1086); [|lia].
    rewrite Hlow by lia. destruct (f64_sign a =? 0); reflexivity.
  - destruct (Z.leb_spec 1086 (f64_exp a)) as [G|G];
      destruct (Z.ltb_spec (f64_exp a) 1086); try lia.
    + destruct (f64_sign a =? 0); reflexivity.
    + specialize (Hhigh L).
      destruct (Z.eqb_spec (f64_exp a) 0); [lia|].
      pose proof (f64_int_bound a 63 ltac:(lia) ltac:(lia)) as Hb.
      rewrite Hhigh in Hb |- *.
      destruct (0 <=? f64_exp a - 1023 - 52);
        [set (v := Z.shiftl _ _) in * | set (v := Z.shiftr _ _) in *];
        clearbody v.
      * unfold wrap64. rewrite (Z.mod_small v) by lia.
        rewrite !(to_i64_small v) by lia.
        destruct (f64_sign a =? 0); cbn [negb];
          [lia | rewrite to_i64_opp by lia; lia].
      * rewrite !(to_i64_small v) by lia.
        destruct (f64_sign a =? 0); cbn [negb];
          [lia | rewrite to_i64_opp by lia; lia].
Qed.

Lemma fixunsdf_eq (a : Z) :
  __fixunsdfsi a
  = (if negb (f64_sign a =? 0) then 0
     else if f64_exp a <? 1055 then truncate (f64_scaled a) 1074
     else 2 ^ 32 - 1) /\
  __fixunsdfdi a
  = (if negb (f64_sign a =? 0) then 0
     else if f64_exp a <? 1087 then truncate (f64_scaled a) 1074
     else 2 ^ 64 - 1).
Proof.
  pose proof (f64_int_part a) as (HM & Hlow & Hhigh).
  pose proof (f64_exp_range a) as He.
  unfold __fixunsdfsi, __fixunsdfdi, f64_to_bits. cbv zeta.
  unfold f64_scaled. rewrite truncate_signed by lia.
  change (1023 + 32) with 1055. change (1023 + 64) with 1087.
  destruct (Z.eqb_spec (f64_sign a) 0) as [S0|S0]; cbn [negb];
    [|split; reflexivity].
  rewrite Z.mul_1_l.
  destruct (Z.ltb_spec (f64_exp a) 1023) as [L|L].
  - destruct (Z.ltb_spec (f64_exp a) 1055); [|lia].
    destruct (Z.ltb_spec (f64_exp a) 1087); [|lia].
    rewrite Hlow by lia. split; reflexivity.
  - specialize (Hhigh L).
    destruct (Z.eqb_spec (f64_exp a) 0); [lia|]. split.
    + destruct (Z.leb_spec 1055 (f64_exp a)) as [G|G];
        destruct (Z.ltb_spec (f64_exp a) 1055); try lia.
      pose proof (f64_int_bound a 32 ltac:(lia) ltac:(lia)) as Hb.
      rewrite Hhigh in Hb |- *.
      destruct (0 <=? f64_exp a - 1023 - 52);
        [set (v := Z.shiftl _ _) in * | set (v := Z.shiftr _ _) in *];
        clearbody v.
      * unfold wrap64. rewrite (Z.mod_small _ (2 ^ 64)) by lia.
        unfold wrap32. rewrite Z.mod_small by lia. reflexivity.
      * unfold wrap32. rewrite Z.mod_small by lia. reflexivity.
    + destruct (Z.leb_spec 1087 (f64_exp a)) as [G|G];
        destruct (Z.ltb_spec (f64_exp a) 1087); try lia; [reflexivity|].
      pose proof (f64_int_bound a 64 ltac:(lia) ltac:(lia)) as Hb.
      rewrite Hhigh in Hb |- *.
      destruct (0 <=? f64_exp a - 1023 - 52);
        [set (v := Z.shiftl _ _) in * | set (v := Z.shiftr _ _) in *];
        clearbody v.
      * unfold wrap64. rewrite Z.mod_small by lia. reflexivity.
      * reflexivity.
Qed.

(** X1. [__fixsfsi] truncates toward zero: for an exponent field below
    158 (magnitude below 2^31) the result is the integer part of the
    value, and from 158 on (infinities and NaNs included) it is INT_MAX
    or INT_MIN by the sign bit. *)
Theorem fixsfsi_truncates (a : Z) :
  __fixsfsi a
  = if f32_exp a <? 158 then truncate (f32_scaled a) 149
    else if f32_sign a =? 0 then 2 ^ 31 - 1 else - 2 ^ 31.
Proof. exact (fixsfsi_eq a). Qed.

(** X2. [__fixunssfsi] gives 0 for every pattern with the sign bit set,
    the integer part of the value for an exponent field below 159
    (value below 2^32), and UINT_MAX from 159 on. *)
Theorem fixunssfsi_truncates (a : Z) :
  __fixunssfsi a
  = if negb (f32_sign a =? 0) then 0
    else if f32_exp a <? 159 then truncate (f32_scaled a) 149
    else 2 ^ 32 - 1.
Proof. exact (fixunssfsi_eq a). Qed.

(** X3. [__fixdfsi] truncates toward zero below an exponent field of
    1054 (magnitude below 2^31) and saturates to INT_MAX or INT_MIN
    from there on. *)
Theorem fixdfsi_truncates (a : Z) :
  __fixdfsi a
  = if f64_exp a <? 1054 then truncate (f64_scaled a) 1074
    else if f64_sign a =? 0 then 2 ^ 31 - 1 else - 2 ^ 31.
Proof. exact (fixdfsi_eq a). Qed.

(** X4. [__fixdfdi] truncates toward zero below an exponent field of
    1086 (magnitude below 2^63) and saturates to LLONG_MAX or LLONG_MIN
    from there on. *)
Theorem fixdfdi_truncates (a : Z) :
  __fixdfdi a
  = if f64_exp a <? 1086 then truncate (f64_scaled a) 1074
    else if f64_sign a =? 0 then 2 ^ 63 - 1 else - 2 ^ 63.
Proof. exact (fixdfdi_eq a). Qed.

(** X5. [__fixunsdfsi] and [__fixunsdfdi] give 0 for every pattern with
    the sign bit set, the integer part of the value while it is below
    2^32 (2^64), and the maximum of the type from there on. *)
Theorem fixunsdf_truncates (a : Z) :
  __fixunsdfsi a
  = (if negb (f64_sign a =? 0) then 0
     else if f64_exp a <? 1055 then truncate (f64_scaled a) 1074
     else 2 ^ 32 - 1) /\
  __fixunsdfdi a
  = (if negb (f64_sign a =? 0) then 0
     else if f64_exp a <? 1087 then truncate (f64_scaled a) 1074
     else 2 ^ 64 - 1).
Proof. exact (fixunsdf_eq a). Qed.

(** *** Integers to floating point *)

Lemma keep_leading_small (bits a : Z) :
  0 <= a < 2 ^ bits -> 0 < bits -> keep_leading bits a = a.
Proof.
  intros Ha Hb. unfold keep_leading. cbv zeta.
  assert (Z.log2 a < bits).
  { destruct (Z.eq_dec a 0) as [->|]; [cbn; lia|].
    apply Z.log2_lt_pow2; lia. }
  rewrite Z.max_l by lia. cbn. rewrite Z.div_1_r. lia.
Qed.

Lemma keep_leading_range (bits a : Z) :
  0 <= a -> 0 <= keep_leading bits a <= a.
Proof.
  intros Ha. unfold keep_leading. cbv zeta.
  set (t := Z.max 0 _).
  assert (0 < 2 ^ t) by (apply Z.pow_pos_nonneg; lia).
  pose proof (Z.div_mod a (2 ^ t) ltac:(lia)).
  pose proof (Z.mod_pos_bound a (2 ^ t) ltac:(lia)).
  assert (0 <= a / 2 ^ t) by (apply Z.div_pos; lia). nia.
Qed.

(** A normalised integer [a * 2 ^ k] of width [W], its low [w] bits
    dropped, is [a] with its [W - w] leading digits kept. *)
Lemma keep_leading_norm (a k W w D : Z) :
  0 < a -> 0 <= k -> 0 <= w < W -> W <= D ->
  2 ^ (W - 1) <= a * 2 ^ k < 2 ^ W ->
  Z.log2 a = W - 1 - k /\
  a * 2 ^ k / 2 ^ w * 2 ^ (D + w - k) = keep_leading (W - w) a * 2 ^ D.
Proof.
  intros Ha Hk Hw HD Hr.
  pose proof (shift_bound a k W Ha Hk ltac:(lia) (proj2 Hr)) as HkW.
  assert (Hpk : 0 < 2 ^ k) by (apply Z.pow_pos_nonneg; lia).
  assert (Hlog : Z.log2 a = W - 1 - k).
  { apply Z.log2_unique; [lia|]. split.
    - apply (Z.mul_le_mono_pos_r _ _ (2 ^ k)); [lia|].
      rewrite <- Z.pow_add_r by lia. replace (W - 1 - k + k) with (W - 1) by lia.
      lia.
    - apply (Z.mul_lt_mono_pos_r (2 ^ k)); [lia|].
      rewrite <- Z.pow_add_r by lia. replace (Z.succ (W - 1 - k) + k) with W by lia.
      lia. }
  split; [exact Hlog|].
  unfold keep_leading. cbv zeta. rewrite Hlog.
  replace (W - 1 - k + 1 - (W - w)) with (w - k) by lia.
  destruct (Z.le_gt_cases k w) as [Hkw|Hkw].
  - rewrite Z.max_r by lia.
    replace (2 ^ w) with (2 ^ (w - k) * 2 ^ k)
      by (rewrite <- Z.pow_add_r by lia; f_equal; lia).
    rewrite Z.div_mul_cancel_r by (apply Z.pow_nonzero; lia).
    rewrite <- !Z.mul_assoc, <- Z.pow_add_r by lia.
    f_equal. f_equal. lia.
  - rewrite Z.max_l by lia. cbn [Z.pow]. rewrite Z.div_1_r, Z.mul_1_r.
    replace k with ((k - w) + w) at 1 by lia.
    rewrite Z.pow_add_r, Z.mul_assoc by lia.
    rewrite Z.div_mul by (apply Z.pow_nonzero; lia).
    rewrite <- !Z.mul_assoc, <- Z.pow_add_r by lia.
    f_equal. f_equal. lia.
Qed.

(** The core of the conversions to [double]. *)
Lemma u64_to_f64_bits_spec (a sign : Z) :
  0 <= a < 2 ^ 64 -> 0 <= sign < 2 ->
  exists r, u64_to_f64_bits a sign = Some r /\
            is_u64 r /\ f64_sign r = sign /\
            f64_exp r = (if a =? 0 then 0 else 1023 + Z.log2 a) /\
            f64_scaled r
            = (if sign =? 0 then 1 else -1) * (keep_leading 53 a * 2 ^ 1074).
Proof.
  intros Ha Hs. unfold u64_to_f64_bits. cbv zeta.
  destruct (Z.eqb_spec a 0) as [->|Hnz].
  { exists (shl64 sign 63). split; [reflexivity|].
    assert (sign = 0 \/ sign = 1) as [->| ->] by lia;
      (split; [unfold is_u64; cbn; lia|]); repeat split; reflexivity. }
  assert (Hua : 0 < a < 2 ^ 64) by lia.
  destruct (f64_count_zeros_spec a (1023 + 63) Hua) as (k & Hk & -> & Hr).
  destruct (keep_leading_norm a k 64 11 1074) as [Hlog Hkeep]; [lia..|].
  change (64 - 11) with 53 in Hkeep. change (64 - 1) with 63 in Hlog.
  pose proof (Z.log2_nonneg a) as Hl0.
  set (m := a * 2 ^ k) in *.
  assert (Hq : 2 ^ 52 <= m / 2 ^ 11 < 2 ^ 53).
  { split; [apply Z.div_le_lower_bound|apply Z.div_lt_upper_bound]; lia. }
  assert (Hfrac : Z.land (Z.shiftr m 11) 0xFFFFFFFFFFFFF = m / 2 ^ 11 - 2 ^ 52).
  { change 0xFFFFFFFFFFFFF with (Z.ones 52).
    rewrite Z.land_ones, Z.shiftr_div_pow2 by lia.
    symmetry. apply Z.mod_unique with 1; lia. }
  rewrite Hfrac.
  destruct (f64_pack_fields sign (1023 + 63 - k) (m / 2 ^ 11 - 2 ^ 52))
    as (Hsign & Hexp & Hfr); [lia..|].
  eexists. split; [reflexivity|]. split; [|split; [exact Hsign|split]].
  - unfold is_u64, shl64, wrap64.
    assert (Hb : forall x y, 0 <= x < 2 ^ 64 -> 0 <= y < 2 ^ 64 ->
                             0 <= Z.lor x y < 2 ^ 64).
    { intros x y Hx Hy. split; [apply Z.lor_nonneg; lia|].
      destruct (Z.eq_dec (Z.lor x y) 0) as [->|Hn]; [lia|].
      apply Z.log2_lt_pow2; [pose proof (Z.lor_nonneg x y); lia|].
      rewrite Z.log2_lor by lia.
      destruct (Z.eq_dec x 0) as [->|]; destruct (Z.eq_dec y 0) as [->|];
        cbn [Z.log2 Z.max]; try lia.
      - rewrite Z.max_r by (apply Z.log2_nonneg). apply Z.log2_lt_pow2; lia.
      - rewrite Z.max_l by (apply Z.log2_nonneg). apply Z.log2_lt_pow2; lia.
      - apply Z.max_lub_lt; apply Z.log2_lt_pow2; lia. }
    apply Hb; [apply Hb; apply Z.mod_pos_bound; lia|lia].
  - rewrite Hexp. lia.
  - unfold f64_scaled. rewrite Hsign, Hexp, Hfr.
    destruct (Z.eqb_spec (1023 + 63 - k) 0); [lia|].
    replace (2 ^ 52 + (m / 2 ^ 11 - 2 ^ 52)) with (m / 2 ^ 11) by lia.
    replace (1023 + 63 - k - 1) with (1074 + 11 - k) by lia.
    rewrite Hkeep. reflexivity.
Qed.

Lemma f64_value_of_scaled (r z : Z) :
  f64_scaled r = z * 2 ^ 1074 -> (f64_value r == inject_Z z)%Q.
Proof.
  intros H. unfold Qeq, f64_value. cbn [Qnum Qden inject_Z].
  rewrite H, Pos2Z.inj_pow. change (Z.pos 2 ^ Z.pos 1074) with (2 ^ 1074). lia.
Qed.

Lemma f32_value_of_scaled (r z : Z) :
  f32_scaled r = z * 2 ^ 149 -> (f32_value r == inject_Z z)%Q.
Proof.
  intros H. unfold Qeq, f32_value. cbn [Qnum Qden inject_Z].
  rewrite H, Pos2Z.inj_pow. change (Z.pos 2 ^ Z.pos 149) with (2 ^ 149). lia.
Qed.

Lemma f64_finite_of_exp (r : Z) : f64_exp r < 2047 -> f64_finite r = true.
Proof.
  intros H. unfold f64_finite. destruct (Z.eqb_spec (f64_exp r) 0x7FF); [lia|reflexivity].
Qed.

Lemma f32_finite_of_exp (r : Z) : f32_exp r < 255 -> f32_finite r = true.
Proof.
  intros H. unfold f32_finite. destruct (Z.eqb_spec (f32_exp r) 0xFF); [lia|reflexivity].
Qed.

Lemma log2_below (a n : Z) : 0 <= a < 2 ^ n -> 0 < n -> Z.log2 a < n.
Proof.
  intros Ha Hn. destruct (Z.eq_dec a 0) as [->|]; [cbn; lia|].
  apply Z.log2_lt_pow2; lia.
Qed.

(** The magnitude that [__floatdidf] hands to [u64_to_f64_bits]. *)
Lemma i64_magnitude (a : Z) :
  is_i64 a ->
  (if a <? 0 then (1, wrap64 (wrap64 (Z.lnot (wrap64 a)) + 1)) else (0, wrap64 a))
  = (if a <? 0 then 1 else 0, Z.abs a).
Proof.
  unfold is_i64, wrap64. intros Ha. destruct (Z.ltb_spec a 0); f_equal.
  - replace (a mod 2 ^ 64) with (a + 2 ^ 64).
    2:{ apply Z.mod_unique with (-1); lia. }
    unfold Z.lnot.
    replace (Z.pred (- (a + 2 ^ 64))) with ((- a - 1) + (-1) * 2 ^ 64) by lia.
    rewrite Z.mod_add by lia.
    rewrite (Z.mod_small (- a - 1)) by lia.
    rewrite Z.mod_small by lia. lia.
  - rewrite Z.mod_small by lia. lia.
Qed.

(** X6. [__floatundidf] returns, for every 64-bit unsigned integer, a
    finite pattern whose value is the integer with all but its 53
    leading binary digits cleared (rounding toward zero); below 2^53
    the conversion is exact. *)
Theorem floatundidf_value (a : Z) :
  is_u64 a ->
  exists r, __floatundidf a = Some r /\ f64_finite r = true /\
            (f64_value r == inject_Z (keep_leading 53 a))%Q /\
            (a < 2 ^ 53 -> (f64_value r == inject_Z a)%Q).
Proof.
  unfold is_u64. intros Ha. unfold __floatundidf, bits_to_f64, wrap64.
  rewrite Z.mod_small by lia.
  destruct (u64_to_f64_bits_spec a 0 Ha ltac:(lia))
    as (r & -> & _ & _ & Hexp & Hsc).
  cbn [Z.eqb] in Hsc. rewrite Z.mul_1_l in Hsc.
  exists r. split; [reflexivity|]. split; [|split].
  - apply f64_finite_of_exp. rewrite Hexp.
    pose proof (log2_below a 64 Ha ltac:(lia)). destruct (a =? 0); lia.
  - apply f64_value_of_scaled, Hsc.
  - intros Hlt. apply f64_value_of_scaled.
    rewrite Hsc, keep_leading_small by lia. reflexivity.
Qed.

Lemma floatundidf_value_witness :
  is_u64 (2 ^ 64 - 1) /\
  exists r, __floatundidf (2 ^ 64 - 1) = Some r /\ f64_finite r = true /\
            (f64_value r == inject_Z (keep_leading 53 (2 ^ 64 - 1)))%Q /\
            (2 ^ 64 - 1 < 2 ^ 53 -> (f64_value r == inject_Z (2 ^ 64 - 1))%Q).
Proof.
  assert (H : is_u64 (2 ^ 64 - 1)) by (unfold is_u64; lia).
  split; [exact H|]. exact (floatundidf_value (2 ^ 64 - 1) H).
Defined.

(** X7. [__floatdidf] returns, for every [long long], a finite pattern
    of the sign of the integer whose magnitude is that of the integer
    with all but its 53 leading binary digits cleared; for magnitudes
    below 2^53 the conversion is exact. *)
Theorem floatdidf_value (a : Z) :
  is_i64 a ->
  exists r, __floatdidf a = Some r /\ f64_finite r = true /\
            (f64_value r == inject_Z (Z.sgn a * keep_leading 53 (Z.abs a)))%Q /\
            (Z.abs a < 2 ^ 53 -> (f64_value r == inject_Z a)%Q).
Proof.
  intros Ha. unfold __floatdidf, bits_to_f64. cbv zeta.
  rewrite (i64_magnitude a Ha). unfold is_i64 in Ha.
  assert (Hm : 0 <= Z.abs a < 2 ^ 64) by lia.
  destruct (u64_to_f64_bits_spec (Z.abs a) (if a <? 0 then 1 else 0) Hm
              ltac:(destruct (a <? 0); lia))
    as (r & -> & _ & _ & Hexp & Hsc).
  assert (Hsc' : f64_scaled r = Z.sgn a * keep_leading 53 (Z.abs a) * 2 ^ 1074).
  { rewrite Hsc. destruct (Z.ltb_spec a 0); cbn [Z.eqb].
    - rewrite Z.sgn_neg by lia. lia.
    - destruct (Z.eq_dec a 0) as [->|]; [reflexivity|].
      rewrite Z.sgn_pos by lia. lia. }
  exists r. split; [reflexivity|]. split; [|split].
  - apply f64_finite_of_exp. rewrite Hexp.
    pose proof (log2_below (Z.abs a) 64 Hm ltac:(lia)). destruct (Z.abs a =? 0); lia.
  - apply f64_value_of_scaled, Hsc'.
  - intros Hlt. apply f64_value_of_scaled.
    rewrite Hsc', keep_leading_small by lia. f_equal. lia.
Qed.

Lemma floatdidf_value_witness :
  is_i64 (- 2 ^ 63) /\
  exists r, __floatdidf (- 2 ^ 63) = Some r /\ f64_finite r = true /\
            (f64_value r
             == inject_Z (Z.sgn (- 2 ^ 63) * keep_leading 53 (Z.abs (- 2 ^ 63))))%Q /\
            (Z.abs (- 2 ^ 63) < 2 ^ 53 -> (f64_value r == inject_Z (- 2 ^ 63))%Q).
Proof.
  assert (H : is_i64 (- 2 ^ 63)) by (unfold is_i64; lia).
  split; [exact H|]. exact (floatdidf_value (- 2 ^ 63) H).
Defined.

(** X8. [__floatunsidf] is exact on every 32-bit unsigned integer. *)
Theorem floatunsidf_exact (a : Z) :
  is_u32 a ->
  exists r, __floatunsidf a = Some r /\ f64_finite r = true /\
            (f64_value r == inject_Z a)%Q.
Proof.
  unfold is_u32. intros Ha. unfold __floatunsidf, bits_to_f64, wrap64.
  rewrite Z.mod_small by lia.
  destruct (u64_to_f64_bits_spec a 0 ltac:(lia) ltac:(lia))
    as (r & -> & _ & _ & Hexp & Hsc).
  cbn [Z.eqb] in Hsc. rewrite Z.mul_1_l in Hsc.
  exists r. split; [reflexivity|]. split.
  - apply f64_finite_of_exp. rewrite Hexp.
    pose proof (log2_below a 32 Ha ltac:(lia)). destruct (a =? 0); lia.
  - apply f64_value_of_scaled.
    rewrite Hsc, keep_leading_small by lia. reflexivity.
Qed.

Lemma floatunsidf_exact_witness :
  is_u32 4294967295 /\
  exists r, __floatunsidf 4294967295 = Some r /\ f64_finite r = true /\
            (f64_value r == inject_Z 4294967295)%Q.
Proof.
  assert (H : is_u32 4294967295) by (unfold is_u32; lia).
  split; [exact H|]. exact (floatunsidf_exact 4294967295 H).
Defined.

(** The core shared by [__floatsisf] and [__floatunsisf]: the loop on a
    nonzero magnitude and the packing of the fields. *)
Lemma f32_of_magnitude (ua s : Z) :
  0 < ua < 2 ^ 32 -> 0 <= s < 2 ->
  exists m e,
    f32_count_zeros ua (127 + 31) = Some (m, e) /\
    let r := Z.lor (Z.lor (shl32 s 31) (shl32 e 23))
                   (Z.land (Z.shiftr m 8) 0x7FFFFF) in
    f32_sign r = s /\ f32_exp r = 127 + Z.log2 ua /\
    f32_scaled r = (if s =? 0 then 1 else -1) * (keep_leading 24 ua * 2 ^ 149).
Proof.
  intros Hua Hs.
  destruct (f32_count_zeros_spec ua (127 + 31) Hua) as (k & Hk & Hcz & Hr).
  destruct (keep_leading_norm ua k 32 8 149) as [Hlog Hkeep]; [lia..|].
  change (32 - 8) with 24 in Hkeep. change (32 - 1) with 31 in Hlog.
  pose proof (Z.log2_nonneg ua) as Hl0.
  exists (ua * 2 ^ k), (127 + 31 - k). split; [exact Hcz|].
  set (m := ua * 2 ^ k) in *.
  assert (Hq : 2 ^ 23 <= m / 2 ^ 8 < 2 ^ 24).
  { split; [apply Z.div_le_lower_bound|apply Z.div_lt_upper_bound]; lia. }
  assert (Hfrac : Z.land (Z.shiftr m 8) 0x7FFFFF = m / 2 ^ 8 - 2 ^ 23).
  { change 0x7FFFFF with (Z.ones 23).
    rewrite Z.land_ones, Z.shiftr_div_pow2 by lia.
    symmetry. apply Z.mod_unique with 1; lia. }
  rewrite Hfrac.
  destruct (f32_pack_fields s (127 + 31 - k) (m / 2 ^ 8 - 2 ^ 23))
    as (Hsign & Hexp & Hfr); [lia..|].
  cbv zeta. split; [exact Hsign|]. split; [rewrite Hexp; lia|].
  unfold f32_scaled. rewrite Hsign, Hexp, Hfr.
  destruct (Z.eqb_spec (127 + 31 - k) 0); [lia|].
  replace (2 ^ 23 + (m / 2 ^ 8 - 2 ^ 23)) with (m / 2 ^ 8) by lia.
  replace (127 + 31 - k - 1) with (149 + 8 - k) by lia.
  rewrite Hkeep. reflexivity.
Qed.

Lemma i32_magnitude (x : Z) :
  is_i32 x ->
  (if x <? 0 then (1, wrap32 (- x)) else (0, wrap32 x))
  = (if x <? 0 then 1 else 0, Z.abs x).
Proof.
  unfold is_i32, wrap32. intros Hx.
  destruct (Z.ltb_spec x 0); rewrite Z.mod_small by lia; f_equal; lia.
Qed.

Lemma floatsisf_spec (x : Z) :
  is_i32 x ->
  exists r, __floatsisf x = Some r /\
            f32_sign r = (if x <? 0 then 1 else 0) /\
            f32_exp r = (if x =? 0 then 0 else 127 + Z.log2 (Z.abs x)) /\
            f32_scaled r = Z.sgn x * keep_leading 24 (Z.abs x) * 2 ^ 149.
Proof.
  intros Hx. unfold __floatsisf, bits_to_f32.
  destruct (Z.eqb_spec x 0) as [->|Hnz].
  { exists 0. repeat split; reflexivity. }
  rewrite (i32_magnitude x Hx). unfold is_i32 in Hx. cbv zeta.
  destruct (f32_of_magnitude (Z.abs x) (if x <? 0 then 1 else 0))
    as (m & e & -> & Hsign & Hexp & Hsc); [lia|destruct (x <? 0); lia|].
  cbv zeta in Hsign, Hexp, Hsc.
  eexists. split; [reflexivity|]. split; [exact Hsign|]. split; [exact Hexp|].
  rewrite Hsc. destruct (Z.ltb_spec x 0); cbn [Z.eqb].
  - rewrite Z.sgn_neg by lia. lia.
  - rewrite Z.sgn_pos by lia. lia.
Qed.

Lemma floatunsisf_spec (a : Z) :
  is_u32 a ->
  exists r, __floatunsisf a = Some r /\ f32_sign r = 0 /\
            f32_exp r = (if a =? 0 then 0 else 127 + Z.log2 a) /\
            f32_scaled r = keep_leading 24 a * 2 ^ 149.
Proof.
  unfold is_u32. intros Ha. unfold __floatunsisf, bits_to_f32.
  destruct (Z.eqb_spec a 0) as [->|Hnz].
  { exists 0. repeat split; reflexivity. }
  cbv zeta.
  destruct (f32_of_magnitude a 0) as (m & e & -> & Hsign & Hexp & Hsc); [lia..|].
  cbv zeta in Hsign, Hexp, Hsc.
  change (shl32 0 31) with 0 in Hsign, Hexp, Hsc.
  rewrite Z.lor_0_l in Hsign, Hexp, Hsc.
  eexists. split; [reflexivity|]. split; [exact Hsign|]. split; [exact Hexp|].
  rewrite Hsc. cbn [Z.eqb]. lia.
Qed.

(** X9. [__floatsisf] returns, for every [int], a finite pattern of the
    sign of the integer whose magnitude is that of the integer with all
    but its 24 leading binary digits cleared (rounding toward zero). *)
Theorem floatsisf_value (x : Z) :
  is_i32 x ->
  exists r, __floatsisf x = Some r /\ f32_finite r = true /\
            (f32_value r == inject_Z (Z.sgn x * keep_leading 24 (Z.abs x)))%Q.
Proof.
  intros Hx. destruct (floatsisf_spec x Hx) as (r & Hr & _ & Hexp & Hsc).
  unfold is_i32 in Hx.
  exists r. split; [exact Hr|]. split.
  - apply f32_finite_of_exp. rewrite Hexp.
    pose proof (log2_below (Z.abs x) 32 ltac:(lia) ltac:(lia)).
    destruct (x =? 0); lia.
  - apply f32_value_of_scaled, Hsc.
Qed.

Lemma floatsisf_value_witness :
  is_i32 (- 2 ^ 31) /\
  exists r, __floatsisf (- 2 ^ 31) = Some r /\ f32_finite r = true /\
            (f32_value r
             == inject_Z (Z.sgn (- 2 ^ 31) * keep_leading 24 (Z.abs (- 2 ^ 31))))%Q.
Proof.
  assert (H : is_i32 (- 2 ^ 31)) by (unfold is_i32; lia).
  split; [exact H|]. exact (floatsisf_value (- 2 ^ 31) H).
Defined.

(** X10. [__floatunsisf] returns, for every [unsigned int], a finite
    pattern whose value is the integer with all but its 24 leading
    binary digits cleared; below 2^24 the conversion is exact. *)
Theorem floatunsisf_value (a : Z) :
  is_u32 a ->
  exists r, __floatunsisf a = Some r /\ f32_finite r = true /\
            (f32_value r == inject_Z (keep_leading 24 a))%Q /\
            (a < 2 ^ 24 -> (f32_value r == inject_Z a)%Q).
Proof.
  intros Ha. destruct (floatunsisf_spec a Ha) as (r & Hr & _ & Hexp & Hsc).
  unfold is_u32 in Ha.
  exists r. split; [exact Hr|]. split; [|split].
  - apply f32_finite_of_exp. rewrite Hexp.
    pose proof (log2_below a 32 Ha ltac:(lia)). destruct (a =? 0); lia.
  - apply f32_value_of_scaled, Hsc.
  - intros Hlt. apply f32_value_of_scaled.
    rewrite Hsc, keep_leading_small by lia. reflexivity.
Qed.

Lemma floatunsisf_value_witness :
  is_u32 4294967295 /\
  exists r, __floatunsisf 4294967295 = Some r /\ f32_finite r = true /\
            (f32_value r == inject_Z (keep_leading 24 4294967295))%Q /\
            (4294967295 < 2 ^ 24 -> (f32_value r == inject_Z 4294967295)%Q).
Proof.
  assert (H : is_u32 4294967295) by (unfold is_u32; lia).
  split; [exact H|]. exact (floatunsisf_value 4294967295 H).
Defined.

(** *** Round trips through floating point *)

Lemma truncate_exact (z d : Z) : 0 <= d -> truncate (z * 2 ^ d) d = z.
Proof.
  intros Hd. unfold truncate. apply Z.quot_mul. apply Z.pow_nonzero; lia.
Qed.

Lemma floatdidf_spec (a : Z) :
  is_i64 a ->
  exists r, __floatdidf a = Some r /\
            f64_sign r = (if a <? 0 then 1 else 0) /\
            f64_exp r = (if a =? 0 then 0 else 1023 + Z.log2 (Z.abs a)) /\
            f64_scaled r = Z.sgn a * keep_leading 53 (Z.abs a) * 2 ^ 1074.
Proof.
  intros Ha. unfold __floatdidf, bits_to_f64. cbv zeta.
  rewrite (i64_magnitude a Ha). unfold is_i64 in Ha.
  assert (Hm : 0 <= Z.abs a < 2 ^ 64) by lia.
  destruct (u64_to_f64_bits_spec (Z.abs a) (if a <? 0 then 1 else 0) Hm
              ltac:(destruct (a <? 0); lia))
    as (r & -> & _ & Hsign & Hexp & Hsc).
  exists r. split; [reflexivity|]. split; [exact Hsign|]. split.
  - rewrite Hexp. destruct (Z.eqb_spec a 0) as [->|]; [reflexivity|].
    destruct (Z.eqb_spec (Z.abs a) 0); [lia|reflexivity].
  - rewrite Hsc. destruct (Z.ltb_spec a 0); cbn [Z.eqb].
    + rewrite Z.sgn_neg by lia. lia.
    + destruct (Z.eq_dec a 0) as [->|]; [reflexivity|].
      rewrite Z.sgn_pos by lia. lia.
Qed.

Lemma floatundidf_spec (a : Z) :
  is_u64 a ->
  exists r, __floatundidf a = Some r /\ f64_sign r = 0 /\
            f64_exp r = (if a =? 0 then 0 else 1023 + Z.log2 a) /\
            f64_scaled r = keep_leading 53 a * 2 ^ 1074.
Proof.
  unfold is_u64. intros Ha. unfold __floatundidf, bits_to_f64, wrap64.
  rewrite Z.mod_small by lia.
  destruct (u64_to_f64_bits_spec a 0 Ha ltac:(lia))
    as (r & -> & _ & Hsign & Hexp & Hsc).
  cbn [Z.eqb] in Hsc. rewrite Z.mul_1_l in Hsc.
  exists r. auto.
Qed.

(** X11. Through [float] and back: [__fixsfsi (__floatsisf x)] is [x]
    with all but the 24 leading binary digits of its magnitude cleared,
    for every [int] (INT_MIN included), hence [x] itself for magnitudes
    below 2^24; likewise [__fixunssfsi (__floatunsisf a)] for every
    [unsigned int]. *)
Theorem float_round_trip (x a : Z) :
  is_i32 x -> is_u32 a ->
  (exists r, __floatsisf x = Some r /\
             __fixsfsi r = Z.sgn x * keep_leading 24 (Z.abs x) /\
             (Z.abs x < 2 ^ 24 -> __fixsfsi r = x)) /\
  (exists r, __floatunsisf a = Some r /\
             __fixunssfsi r = keep_leading 24 a /\
             (a < 2 ^ 24 -> __fixunssfsi r = a)).
Proof.
  intros Hx Ha. split.
  - destruct (floatsisf_spec x Hx) as (r & Hr & Hsign & Hexp & Hsc).
    unfold is_i32 in Hx. exists r. split; [exact Hr|].
    assert (Hfix : __fixsfsi r = Z.sgn x * keep_leading 24 (Z.abs x)).
    { rewrite fixsfsi_eq, Hexp, Hsign, Hsc.
      destruct (Z.eqb_spec x 0) as [->|Hnz]; [reflexivity|].
      destruct (Z.eq_dec x (- 2 ^ 31)) as [->|Hmin]; [reflexivity|].
      pose proof (log2_below (Z.abs x) 31 ltac:(lia) ltac:(lia)).
      destruct (Z.ltb_spec (127 + Z.log2 (Z.abs x)) 158); [|lia].
      apply truncate_exact. lia. }
    split; [exact Hfix|].
    intros Hlt. rewrite Hfix, keep_leading_small by lia. lia.
  - destruct (floatunsisf_spec a Ha) as (r & Hr & Hsign & Hexp & Hsc).
    unfold is_u32 in Ha. exists r. split; [exact Hr|].
    assert (Hfix : __fixunssfsi r = keep_leading 24 a).
    { rewrite fixunssfsi_eq, Hexp, Hsign, Hsc. cbn [Z.eqb negb].
      pose proof (log2_below a 32 Ha ltac:(lia)).
      destruct (Z.eqb_spec a 0) as [->|Hnz]; [reflexivity|].
      destruct (Z.ltb_spec (127 + Z.log2 a) 159); [|lia].
      apply truncate_exact. lia. }
    split; [exact Hfix|].
    intros Hlt. rewrite Hfix. apply keep_leading_small; lia.
Qed.

Lemma float_round_trip_witness :
  is_i32 (- 2 ^ 31) /\ is_u32 16777215 /\
  (exists r, __floatsisf (- 2 ^ 31) = Some r /\
             __fixsfsi r = Z.sgn (- 2 ^ 31) * keep_leading 24 (Z.abs (- 2 ^ 31)) /\
             (Z.abs (- 2 ^ 31) < 2 ^ 24 -> __fixsfsi r = - 2 ^ 31)) /\
  (exists r, __floatunsisf 16777215 = Some r /\
             __fixunssfsi r = keep_leading 24 16777215 /\
             (16777215 < 2 ^ 24 -> __fixunssfsi r = 16777215)).
Proof.
  assert (H1 : is_i32 (- 2 ^ 31)) by (unfold is_i32; lia).
  assert (H2 : is_u32 16777215) by (unfold is_u32; lia).
  split; [exact H1|]. split; [exact H2|].
  exact (float_round_trip (- 2 ^ 31) 16777215 H1 H2).
Defined.

(** X12. Through [double] and back, 32 bits: [__fixunsdfsi
    (__floatunsidf a)] is [a] for every [unsigned int], and [__fixdfsi
    (__floatsidf y)] is [y] for every non-negative [int]. *)
Theorem double_round_trip_32 (a y : Z) :
  is_u32 a -> 0 <= y < 2 ^ 31 ->
  (exists r, __floatunsidf a = Some r /\ __fixunsdfsi r = a) /\
  (exists r, __floatsidf y = Some r /\ __fixdfsi r = y).
Proof.
  unfold is_u32. intros Ha Hy. split.
  - unfold __floatunsidf, bits_to_f64, wrap64. rewrite Z.mod_small by lia.
    destruct (u64_to_f64_bits_spec a 0 ltac:(lia) ltac:(lia))
      as (r & -> & _ & Hsign & Hexp & Hsc).
    exists r. split; [reflexivity|].
    rewrite (proj1 (fixunsdf_eq r)), Hexp, Hsign, Hsc. cbn [Z.eqb negb].
    rewrite Z.mul_1_l, keep_leading_small by lia.
    pose proof (log2_below a 32 Ha ltac:(lia)).
    destruct (Z.eqb_spec a 0) as [->|Hnz]; [reflexivity|].
    destruct (Z.ltb_spec (1023 + Z.log2 a) 1055); [|lia].
    apply truncate_exact. lia.
  - unfold __floatsidf, bits_to_f64. cbv zeta.
    destruct (Z.ltb_spec y 0); [lia|]. cbv beta iota.
    unfold wrap64, wrap32.
    rewrite (Z.mod_small y (2 ^ 32)), (Z.mod_small y (2 ^ 64)) by lia.
    destruct (u64_to_f64_bits_spec y 0 ltac:(lia) ltac:(lia))
      as (r & -> & _ & Hsign & Hexp & Hsc).
    exists r. split; [reflexivity|].
    rewrite fixdfsi_eq, Hexp, Hsign, Hsc. cbn [Z.eqb].
    rewrite Z.mul_1_l, keep_leading_small by lia.
    pose proof (log2_below y 31 Hy ltac:(lia)).
    destruct (Z.eqb_spec y 0) as [->|Hnz]; [reflexivity|].
    destruct (Z.ltb_spec (1023 + Z.log2 y) 1054); [|lia].
    apply truncate_exact. lia.
Qed.

Lemma double_round_trip_32_witness :
  is_u32 4294967295 /\ 0 <= 2147483647 < 2 ^ 31 /\
  (exists r, __floatunsidf 4294967295 = Some r /\ __fixunsdfsi r = 4294967295) /\
  (exists r, __floatsidf 2147483647 = Some r /\ __fixdfsi r = 2147483647).
Proof.
  assert (H1 : is_u32 4294967295) by (unfold is_u32; lia).
  assert (H2 : 0 <= 2147483647 < 2 ^ 31) by lia.
  split; [exact H1|]. split; [exact H2|].
  exact (double_round_trip_32 4294967295 2147483647 H1 H2).
Defined.

(** X13. Through [double] and back, 64 bits: [__fixdfdi (__floatdidf
    b)] is [b] with all but the 53 leading binary digits of its
    magnitude cleared, for every [long long] (LLONG_MIN included), hence
    [b] itself for magnitudes below 2^53; likewise [__fixunsdfdi
    (__floatundidf c)] for every [unsigned long long]. *)
Theorem double_round_trip_64 (b c : Z) :
  is_i64 b -> is_u64 c ->
  (exists r, __floatdidf b = Some r /\
             __fixdfdi r = Z.sgn b * keep_leading 53 (Z.abs b) /\
             (Z.abs b < 2 ^ 53 -> __fixdfdi r = b)) /\
  (exists r, __floatundidf c = Some r /\
             __fixunsdfdi r = keep_leading 53 c /\
             (c < 2 ^ 53 -> __fixunsdfdi r = c)).
Proof.
  intros Hb Hc. split.
  - destruct (floatdidf_spec b Hb) as (r & Hr & Hsign & Hexp & Hsc).
    unfold is_i64 in Hb. exists r. split; [exact Hr|].
    assert (Hfix : __fixdfdi r = Z.sgn b * keep_leading 53 (Z.abs b)).
    { rewrite fixdfdi_eq, Hexp, Hsign, Hsc.
      destruct (Z.eqb_spec b 0) as [->|Hnz]; [reflexivity|].
      destruct (Z.eq_dec b (- 2 ^ 63)) as [->|Hmin]; [reflexivity|].
      pose proof (log2_below (Z.abs b) 63 ltac:(lia) ltac:(lia)).
      destruct (Z.ltb_spec (1023 + Z.log2 (Z.abs b)) 1086); [|lia].
      apply truncate_exact. lia. }
    split; [exact Hfix|].
    intros Hlt. rewrite Hfix, keep_leading_small by lia. lia.
  - destruct (floatundidf_spec c Hc) as (r & Hr & Hsign & Hexp & Hsc).
    unfold is_u64 in Hc. exists r. split; [exact Hr|].
    assert (Hfix : __fixunsdfdi r = keep_leading 53 c).
    { rewrite (proj2 (fixunsdf_eq r)), Hexp, Hsign, Hsc. cbn [Z.eqb negb].
      pose proof (log2_below c 64 Hc ltac:(lia)).
      destruct (Z.eqb_spec c 0) as [->|Hnz]; [reflexivity|].
      destruct (Z.ltb_spec (1023 + Z.log2 c) 1087); [|lia].
      apply truncate_exact. lia. }
    split; [exact Hfix|].
    intros Hlt. rewrite Hfix. apply keep_leading_small; lia.
Qed.

Lemma double_round_trip_64_witness :
  is_i64 (- 2 ^ 63) /\ is_u64 (2 ^ 53 - 1) /\
  (exists r, __floatdidf (- 2 ^ 63) = Some r /\
             __fixdfdi r = Z.sgn (- 2 ^ 63) * keep_leading 53 (Z.abs (- 2 ^ 63)) /\
             (Z.abs (- 2 ^ 63) < 2 ^ 53 -> __fixdfdi r = - 2 ^ 63)) /\
  (exists r, __floatundidf (2 ^ 53 - 1) = Some r /\
             __fixunsdfdi r = keep_leading 53 (2 ^ 53 - 1) /\
             (2 ^ 53 - 1 < 2 ^ 53 -> __fixunsdfdi r = 2 ^ 53 - 1)).
Proof.
  assert (H1 : is_i64 (- 2 ^ 63)) by (unfold is_i64; lia).
  assert (H2 : is_u64 (2 ^ 53 - 1)) by (unfold is_u64; lia).
  split; [exact H1|]. split; [exact H2|].
  exact (double_round_trip_64 (- 2 ^ 63) (2 ^ 53 - 1) H1 H2).
Defined.

(** *** Comparisons order patterns by value *)

(** The value of a magnitude grows with the magnitude read as an
    integer ([e * 2 ^ p + f], exponent above fraction). *)
Lemma magnitude_mono (p e1 f1 e2 f2 : Z) :
  0 <= p -> 0 <= e1 -> 0 <= e2 -> 0 <= f1 < 2 ^ p -> 0 <= f2 < 2 ^ p ->
  e1 * 2 ^ p + f1 < e2 * 2 ^ p + f2 ->
  (if e1 =? 0 then f1 else (2 ^ p + f1) * 2 ^ (e1 - 1))
  < (if e2 =? 0 then f2 else (2 ^ p + f2) * 2 ^ (e2 - 1)).
Proof.
  intros Hp He1 He2 Hf1 Hf2 Hlt.
  assert (Hpp : 0 < 2 ^ p) by (apply Z.pow_pos_nonneg; lia).
  assert (Hle : e1 <= e2) by nia.
  destruct (Z.eq_dec e1 e2) as [->|Hne].
  - assert (f1 < f2) by lia.
    destruct (Z.eqb_spec e2 0); [lia|].
    assert (0 < 2 ^ (e2 - 1)) by (apply Z.pow_pos_nonneg; lia). nia.
  - destruct (Z.eqb_spec e2 0); [lia|].
    assert (H2 : 1 <= 2 ^ (e2 - 1))
      by (change 1 with (2 ^ 0); apply Z.pow_le_mono_r; lia).
    destruct (Z.eqb_spec e1 0).
    + nia.
    + assert (H1 : 2 * 2 ^ (e1 - 1) <= 2 ^ (e2 - 1)).
      { replace (2 * 2 ^ (e1 - 1)) with (2 ^ e1).
        - apply Z.pow_le_mono_r; lia.
        - replace e1 with (1 + (e1 - 1)) at 1 by lia.
          rewrite Z.pow_add_r by lia. reflexivity. }
      assert (0 < 2 ^ (e1 - 1)) by (apply Z.pow_pos_nonneg; lia). nia.
Qed.

Lemma magnitude_zero (p e f : Z) :
  0 <= p -> 0 <= e -> 0 <= f < 2 ^ p ->
  0 <= (if e =? 0 then f else (2 ^ p + f) * 2 ^ (e - 1)) /\
  ((if e =? 0 then f else (2 ^ p + f) * 2 ^ (e - 1)) = 0 <-> e * 2 ^ p + f = 0).
Proof.
  intros Hp He Hf.
  assert (Hpp : 0 < 2 ^ p) by (apply Z.pow_pos_nonneg; lia).
  destruct (Z.eqb_spec e 0) as [->|Hne]; [lia|].
  assert (0 < 2 ^ (e - 1)) by (apply Z.pow_pos_nonneg; lia). nia.
Qed.

(** Signed magnitudes and signed values are ordered alike. *)
Lemma signed_order (s1 s2 m1 m2 g1 g2 : Z) :
  0 <= m1 -> 0 <= m2 -> 0 <= g1 -> 0 <= g2 ->
  (g1 = 0 <-> m1 = 0) -> (g2 = 0 <-> m2 = 0) ->
  (m1 < m2 -> g1 < g2) -> (m2 < m1 -> g2 < g1) -> (m1 = m2 -> g1 = g2) ->
  Z.sgn ((if s1 =? 0 then 1 else -1) * m1 - (if s2 =? 0 then 1 else -1) * m2)
  = Z.sgn ((if s1 =? 0 then 1 else -1) * g1 - (if s2 =? 0 then 1 else -1) * g2).
Proof.
  intros Hm1 Hm2 Hg1 Hg2 Hz1 Hz2 Hlt Hgt Heq.
  destruct (s1 =? 0), (s2 =? 0);
    destruct (Z.lt_trichotomy m1 m2) as [H|[H|H]];
    try specialize (Hlt H); try specialize (Hgt H); try specialize (Heq H);
    lia.
Qed.

Lemma f32_mag_fields (a : Z) :
  0 <= f32_mag a < 2 ^ 31 /\
  f32_mag a = f32_exp a * 2 ^ 23 + f32_frac a.
Proof.
  unfold f32_mag, f32_exp, f32_frac.
  change 0x7FFFFFFF with (Z.ones 31). change 0xFF with (Z.ones 8).
  change 0x7FFFFF with (Z.ones 23).
  rewrite !Z.land_ones, Z.shiftr_div_pow2 by lia.
  split; [apply Z.mod_pos_bound; lia|].
  change (2 ^ 31) with (2 ^ 23 * 2 ^ 8).
  rewrite Z.rem_mul_r by lia. lia.
Qed.

Lemma f64_mag_fields (a : Z) :
  0 <= f64_mag a < 2 ^ 63 /\
  f64_mag a = f64_exp a * 2 ^ 52 + f64_frac a.
Proof.
  unfold f64_mag, f64_exp, f64_frac.
  change 0x7FFFFFFFFFFFFFFF with (Z.ones 63). change 0x7FF with (Z.ones 11).
  change 0xFFFFFFFFFFFFF with (Z.ones 52).
  rewrite !Z.land_ones, Z.shiftr_div_pow2 by lia.
  split; [apply Z.mod_pos_bound; lia|].
  change (2 ^ 63) with (2 ^ 52 * 2 ^ 11).
  rewrite Z.rem_mul_r by lia. lia.
Qed.

(** A pattern is its sign bit above its magnitude. *)
Lemma f32_sign_mag (a : Z) : is_u32 a -> a = f32_sign a * 2 ^ 31 + f32_mag a.
Proof.
  unfold is_u32, f32_sign, f32_mag. intros Ha.
  change 0x7FFFFFFF with (Z.ones 31).
  rewrite land_1_mod, Z.land_ones, Z.shiftr_div_pow2 by lia.
  assert (0 <= a / 2 ^ 31 < 2).
  { split; [apply Z.div_pos; lia|apply Z.div_lt_upper_bound; lia]. }
  rewrite (Z.mod_small (a / 2 ^ 31)) by lia.
  pose proof (Z.div_mod a (2 ^ 31) ltac:(lia)). lia.
Qed.

Lemma f64_sign_mag (a : Z) : is_u64 a -> a = f64_sign a * 2 ^ 63 + f64_mag a.
Proof.
  unfold is_u64, f64_sign, f64_mag. intros Ha.
  change 0x7FFFFFFFFFFFFFFF with (Z.ones 63).
  rewrite land_1_mod, Z.land_ones, Z.shiftr_div_pow2 by lia.
  assert (0 <= a / 2 ^ 63 < 2).
  { split; [apply Z.div_pos; lia|apply Z.div_lt_upper_bound; lia]. }
  rewrite (Z.mod_small (a / 2 ^ 63)) by lia.
  pose proof (Z.div_mod a (2 ^ 63) ltac:(lia)). lia.
Qed.

(** The key on which [f32_cmp] compares: the signed magnitude. *)
Lemma f32_cmp_key (a : Z) :
  is_u32 a ->
  (if to_i32 a <? 0 then to_i32 (wrap32 (0x80000000 - to_i32 a)) else to_i32 a)
  = (if f32_sign a =? 0 then 1 else -1) * f32_mag a.
Proof.
  intros Ha. pose proof (f32_sign_mag a Ha) as Hsm.
  pose proof (f32_mag_fields a) as [Hm _].
  unfold is_u32 in Ha. set (m := f32_mag a) in *. clearbody m.
  destruct (f32_sign_cases a) as [Hs|Hs]; rewrite Hs in Hsm |- *; cbn [Z.eqb].
  - assert (a = m) by lia. clear Hsm. subst a. rewrite to_i32_small by lia.
    destruct (Z.ltb_spec m 0); lia.
  - assert (Hi : to_i32 a = m - 2 ^ 31).
    { unfold to_i32, wrap32. cbv zeta. rewrite Z.mod_small by lia.
      destruct (Z.ltb_spec a (2 ^ 31)); lia. }
    rewrite Hi. destruct (Z.ltb_spec (m - 2 ^ 31) 0); [|lia].
    replace (0x80000000 - (m - 2 ^ 31)) with (2 ^ 32 - m) by lia.
    destruct (Z.eq_dec m 0) as [->|Hnz]; [reflexivity|].
    unfold to_i32, wrap32. cbv zeta.
    rewrite (Z.mod_small (2 ^ 32 - m)) by lia. rewrite Z.mod_small by lia.
    destruct (Z.ltb_spec (2 ^ 32 - m) (2 ^ 31)); lia.
Qed.

Lemma sgn_of_tests (x y : Z) :
  (if x <? y then -1 else if y <? x then 1 else 0) = Z.sgn (x - y).
Proof. destruct (Z.ltb_spec x y); [lia|]. destruct (Z.ltb_spec y x); lia. Qed.

Lemma f32_signed_order (a b : Z) :
  Z.sgn ((if f32_sign a =? 0 then 1 else -1) * f32_mag a
         - (if f32_sign b =? 0 then 1 else -1) * f32_mag b)
  = Z.sgn (f32_scaled a - f32_scaled b).
Proof.
  pose proof (f32_mag_fields a) as [Hma Hfa].
  pose proof (f32_mag_fields b) as [Hmb Hfb].
  pose proof (f32_exp_range a). pose proof (f32_exp_range b).
  pose proof (f32_frac_range a). pose proof (f32_frac_range b).
  destruct (magnitude_zero 23 (f32_exp a) (f32_frac a)) as [Hga Hza]; [lia..|].
  destruct (magnitude_zero 23 (f32_exp b) (f32_frac b)) as [Hgb Hzb]; [lia..|].
  unfold f32_scaled. apply signed_order; try lia.
  - intros Hlt. apply magnitude_mono; lia.
  - intros Hlt. apply magnitude_mono; lia.
  - intros Heq.
    assert (f32_exp a = f32_exp b /\ f32_frac a = f32_frac b) as [-> ->]; [|reflexivity].
    rewrite Hfa, Hfb in Heq. nia.
Qed.

Lemma f32_cmp_eq (a b u : Z) :
  is_u32 a -> is_u32 b -> f32_is_nan a = false -> f32_is_nan b = false ->
  f32_cmp a b u = (Z.sgn (f32_scaled a - f32_scaled b), u).
Proof.
  intros Ha Hb Na Nb. rewrite <- f32_signed_order.
  unfold f32_cmp, f32_to_bits. cbv zeta. rewrite Na, Nb. cbn [orb].
  fold (f32_mag a) (f32_mag b).
  destruct (Z.eqb_spec (f32_mag a) 0) as [Za|Za];
    destruct (Z.eqb_spec (f32_mag b) 0) as [Zb|Zb]; cbn [andb].
  1:{ rewrite Za, Zb, !Z.mul_0_r. reflexivity. }
  all: rewrite (f32_cmp_key a Ha), (f32_cmp_key b Hb);
    set (x := _ * f32_mag a); set (y := _ * f32_mag b);
    rewrite <- (sgn_of_tests x y);
    destruct (x <? y); [reflexivity|]; destruct (y <? x); reflexivity.
Qed.

(** X14. On two patterns that are not NaN, [f32_cmp] and the six
    comparison routines built on it order by value: the result is the
    sign of the difference of the two values (an infinity counting as
    plus or minus 2^128, and the two zeros as equal), [__eqsf2] and
    [__nesf2] give 0 exactly on equal values, and the unordered flag is
    left as it was. *)
Theorem f32_comparisons (a b u : Z) :
  is_u32 a -> is_u32 b -> f32_is_nan a = false -> f32_is_nan b = false ->
  let c := Z.sgn (f32_scaled a - f32_scaled b) in
  f32_cmp a b u = (c, u) /\
  __gtsf2 a b = c /\ __gesf2 a b = c /\ __ltsf2 a b = c /\ __lesf2 a b = c /\
  __eqsf2 a b = (if f32_scaled a =? f32_scaled b then 0 else 1) /\
  __nesf2 a b = (if f32_scaled a =? f32_scaled b then 0 else 1) /\
  __unordsf2 a b = 0.
Proof.
  intros Ha Hb Na Nb c.
  pose proof (f32_cmp_eq a b 0 Ha Hb Na Nb) as H0. fold c in H0.
  split; [exact (f32_cmp_eq a b u Ha Hb Na Nb)|].
  unfold __gtsf2, __gesf2, __ltsf2, __lesf2, __eqsf2, __nesf2. rewrite H0.
  cbn [Z.eqb negb].
  assert (Hc : (c =? 0) = (f32_scaled a =? f32_scaled b)).
  { subst c. destruct (Z.eqb_spec (f32_scaled a) (f32_scaled b));
      destruct (Z.eqb_spec (Z.sgn (f32_scaled a - f32_scaled b)) 0); lia. }
  rewrite Hc. repeat (split; [reflexivity|]).
  unfold __unordsf2, f32_to_bits. unfold f32_is_nan in Na, Nb.
  cbv zeta. rewrite Na, Nb. reflexivity.
Qed.

Lemma f32_comparisons_witness :
  is_u32 0xBF800000 /\ is_u32 0x7F800000 /\
  f32_is_nan 0xBF800000 = false /\ f32_is_nan 0x7F800000 = false /\
  let c := Z.sgn (f32_scaled 0xBF800000 - f32_scaled 0x7F800000) in
  f32_cmp 0xBF800000 0x7F800000 0 = (c, 0) /\
  __gtsf2 0xBF800000 0x7F800000 = c /\ __gesf2 0xBF800000 0x7F800000 = c /\
  __ltsf2 0xBF800000 0x7F800000 = c /\ __lesf2 0xBF800000 0x7F800000 = c /\
  __eqsf2 0xBF800000 0x7F800000
  = (if f32_scaled 0xBF800000 =? f32_scaled 0x7F800000 then 0 else 1) /\
  __nesf2 0xBF800000 0x7F800000
  = (if f32_scaled 0xBF800000 =? f32_scaled 0x7F800000 then 0 else 1) /\
  __unordsf2 0xBF800000 0x7F800000 = 0.
Proof.
  assert (H1 : is_u32 0xBF800000) by (unfold is_u32; lia).
  assert (H2 : is_u32 0x7F800000) by (unfold is_u32; lia).
  split; [exact H1|]. split; [exact H2|].
  split; [reflexivity|]. split; [reflexivity|].
  exact (f32_comparisons 0xBF800000 0x7F800000 0 H1 H2 eq_refl eq_refl).
Defined.

Lemma f64_signed_order (a b : Z) :
  Z.sgn ((if f64_sign a =? 0 then 1 else -1) * f64_mag a
         - (if f64_sign b =? 0 then 1 else -1) * f64_mag b)
  = Z.sgn (f64_scaled a - f64_scaled b).
Proof.
  pose proof (f64_mag_fields a) as [Hma Hfa].
  pose proof (f64_mag_fields b) as [Hmb Hfb].
  pose proof (f64_exp_range a). pose proof (f64_exp_range b).
  pose proof (f64_frac_range a). pose proof (f64_frac_range b).
  destruct (magnitude_zero 52 (f64_exp a) (f64_frac a)) as [Hga Hza]; [lia..|].
  destruct (magnitude_zero 52 (f64_exp b) (f64_frac b)) as [Hgb Hzb]; [lia..|].
  unfold f64_scaled. apply signed_order; try lia.
  - intros Hlt. apply magnitude_mono; lia.
  - intros Hlt. apply magnitude_mono; lia.
  - intros Heq.
    assert (f64_exp a = f64_exp b /\ f64_frac a = f64_frac b) as [-> ->]; [|reflexivity].
    rewrite Hfa, Hfb in Heq. nia.
Qed.

Lemma f64_cmp_eq (a b u : Z) :
  f64_is_nan a = false -> f64_is_nan b = false ->
  f64_cmp a b u = (Z.sgn (f64_scaled a - f64_scaled b), u).
Proof.
  intros Na Nb. rewrite <- f64_signed_order.
  pose proof (f64_mag_fields a) as [Hma _].
  pose proof (f64_mag_fields b) as [Hmb _].
  unfold f64_cmp, f64_to_bits. cbv zeta. rewrite Na, Nb. cbn [orb].
  fold (f64_mag a) (f64_mag b).
  set (ma := f64_mag a) in *. set (mb := f64_mag b) in *.
  destruct (f64_sign_cases a) as [-> | ->], (f64_sign_cases b) as [-> | ->];
    cbn [Z.eqb Pos.eqb negb];
    destruct (Z.eqb_spec ma 0); destruct (Z.eqb_spec mb 0); cbn [andb];
    try destruct (Z.eqb_spec ma mb); try destruct (Z.ltb_spec ma mb);
    f_equal; lia.
Qed.

(** X15. On two patterns that are not NaN, [f64_cmp] and the six
    comparison routines built on it order by value: the result is the
    sign of the difference of the two values (an infinity counting as
    plus or minus 2^1024, and the two zeros as equal), [__eqdf2] and
    [__nedf2] give 0 exactly on equal values, and the unordered flag is
    left as it was. *)
Theorem f64_comparisons (a b u : Z) :
  f64_is_nan a = false -> f64_is_nan b = false ->
  let c := Z.sgn (f64_scaled a - f64_scaled b) in
  f64_cmp a b u = (c, u) /\
  __gtdf2 a b = c /\ __gedf2 a b = c /\ __ltdf2 a b = c /\ __ledf2 a b = c /\
  __eqdf2 a b = (if f64_scaled a =? f64_scaled b then 0 else 1) /\
  __nedf2 a b = (if f64_scaled a =? f64_scaled b then 0 else 1) /\
  __unorddf2 a b = 0.
Proof.
  intros Na Nb c.
  pose proof (f64_cmp_eq a b 0 Na Nb) as H0. fold c in H0.
  split; [exact (f64_cmp_eq a b u Na Nb)|].
  unfold __gtdf2, __gedf2, __ltdf2, __ledf2, __eqdf2, __nedf2. rewrite H0.
  cbn [Z.eqb negb].
  assert (Hc : (c =? 0) = (f64_scaled a =? f64_scaled b)).
  { subst c. destruct (Z.eqb_spec (f64_scaled a) (f64_scaled b));
      destruct (Z.eqb_spec (Z.sgn (f64_scaled a - f64_scaled b)) 0); lia. }
  rewrite Hc. repeat (split; [reflexivity|]).
  unfold __unorddf2, f64_to_bits. unfold f64_is_nan in Na, Nb.
  cbv zeta. rewrite Na, Nb. reflexivity.
Qed.

Lemma f64_comparisons_witness :
  f64_is_nan 0xBFF0000000000000 = false /\
  f64_is_nan 0x7FF0000000000000 = false /\
  let c := Z.sgn (f64_scaled 0xBFF0000000000000 - f64_scaled 0x7FF0000000000000) in
  f64_cmp 0xBFF0000000000000 0x7FF0000000000000 0 = (c, 0) /\
  __gtdf2 0xBFF0000000000000 0x7FF0000000000000 = c /\
  __gedf2 0xBFF0000000000000 0x7FF0000000000000 = c /\
  __ltdf2 0xBFF0000000000000 0x7FF0000000000000 = c /\
  __ledf2 0xBFF0000000000000 0x7FF0000000000000 = c /\
  __eqdf2 0xBFF0000000000000 0x7FF0000000000000
  = (if f64_scaled 0xBFF0000000000000 =? f64_scaled 0x7FF0000000000000
     then 0 else 1) /\
  __nedf2 0xBFF0000000000000 0x7FF0000000000000
  = (if f64_scaled 0xBFF0000000000000 =? f64_scaled 0x7FF0000000000000
     then 0 else 1) /\
  __unorddf2 0xBFF0000000000000 0x7FF0000000000000 = 0.
Proof.
  split; [reflexivity|]. split; [reflexivity|].
  exact (f64_comparisons 0xBFF0000000000000 0x7FF0000000000000 0 eq_refl eq_refl).
Defined.

(** *** 64-bit multiplication and 128-by-64-bit division *)

Lemma split32 (x : Z) :
  0 <= x < 2 ^ 64 ->
  Z.land x 0xFFFFFFFF = x mod 2 ^ 32 /\ Z.shiftr x 32 = x / 2 ^ 32 /\
  0 <= x mod 2 ^ 32 < 2 ^ 32 /\ 0 <= x / 2 ^ 32 < 2 ^ 32 /\
  x = x / 2 ^ 32 * 2 ^ 32 + x mod 2 ^ 32.
Proof.
  intros Hx. change 0xFFFFFFFF with (Z.ones 32).
  rewrite Z.land_ones, Z.shiftr_div_pow2 by lia.
  pose proof (Z.div_mod x (2 ^ 32) ltac:(lia)).
  pose proof (Z.mod_pos_bound x (2 ^ 32) ltac:(lia)).
  repeat split; lia.
Qed.

Lemma mul32_bound (x y : Z) :
  0 <= x < 2 ^ 32 -> 0 <= y < 2 ^ 32 -> 0 <= x * y <= 2 ^ 64 - 2 ^ 33 + 1.
Proof. intros Hx Hy. nia. Qed.

Lemma mul_u64_eq (a b : Z) :
  is_u64 a -> is_u64 b ->
  mul_u64 a b = (a * b / 2 ^ 64, (a * b) mod 2 ^ 64).
Proof.
  unfold is_u64. intros Ha Hb. unfold mul_u64. cbv zeta.
  destruct (split32 a Ha) as (-> & -> & Hal & Hah & Ea).
  destruct (split32 b Hb) as (-> & -> & Hbl & Hbh & Eb).
  set (al := a mod 2 ^ 32) in *. set (ah := a / 2 ^ 32) in *.
  set (bl := b mod 2 ^ 32) in *. set (bh := b / 2 ^ 32) in *.
  pose proof (mul32_bound al bl Hal Hbl) as H0.
  pose proof (mul32_bound al bh Hal Hbh) as H1.
  pose proof (mul32_bound ah bl Hah Hbl) as H2.
  pose proof (mul32_bound ah bh Hah Hbh) as H3.
  unfold wrap64.
  rewrite (Z.mod_small (al * bl)), (Z.mod_small (al * bh)),
    (Z.mod_small (ah * bl)), (Z.mod_small (ah * bh)) by lia.
  set (p0 := al * bl) in *. set (p1 := al * bh) in *.
  set (p2 := ah * bl) in *. set (p3 := ah * bh) in *.
  destruct (split32 p0 ltac:(lia)) as (-> & -> & H0l & H0h & E0).
  destruct (split32 p1 ltac:(lia)) as (-> & -> & H1l & H1h & E1).
  destruct (split32 p2 ltac:(lia)) as (-> & -> & H2l & H2h & E2).
  rewrite (Z.mod_small (p1 mod 2 ^ 32 + p2 mod 2 ^ 32 + p0 / 2 ^ 32)) by lia.
  set (mid := p1 mod 2 ^ 32 + p2 mod 2 ^ 32 + p0 / 2 ^ 32) in *.
  destruct (split32 mid ltac:(lia)) as (_ & -> & Hml & Hmh & Em).
  assert (Hlo : Z.lor (shl64 mid 32) (p0 mod 2 ^ 32)
                = mid mod 2 ^ 32 * 2 ^ 32 + p0 mod 2 ^ 32).
  { unfold shl64, wrap64. rewrite (Z.mod_small mid) by lia.
    rewrite Z.shiftl_mul_pow2 by lia.
    replace ((mid * 2 ^ 32) mod 2 ^ 64) with (mid mod 2 ^ 32 * 2 ^ 32).
    - apply lor_shift_add; lia.
    - apply Z.mod_unique with (mid / 2 ^ 32); lia. }
  rewrite Hlo.
  set (H := p3 + p1 / 2 ^ 32 + p2 / 2 ^ 32 + mid / 2 ^ 32).
  set (L := mid mod 2 ^ 32 * 2 ^ 32 + p0 mod 2 ^ 32).
  assert (Hab : a * b = H * 2 ^ 64 + L).
  { subst H L. rewrite Ea at 1. rewrite Eb at 1.
    replace ((ah * 2 ^ 32 + al) * (bh * 2 ^ 32 + bl))
      with (p3 * 2 ^ 64 + (p1 + p2) * 2 ^ 32 + p0) by (subst p0 p1 p2 p3; ring).
    lia. }
  assert (HL : 0 <= L < 2 ^ 64) by (subst L; lia).
  assert (HH : 0 <= H < 2 ^ 64).
  { split; [subst H; lia|]. assert (a * b < 2 ^ 64 * 2 ^ 64) by nia. lia. }
  rewrite (Z.mod_small H) by lia.
  rewrite Hab. destruct (div_mod_pack H L (2 ^ 64) HL) as [-> ->]. reflexivity.
Qed.

(** X16. [mul_u64] returns the exact 128-bit product of two 64-bit
    unsigned integers, as its high and its low 64 bits. *)
Theorem mul_u64_exact (a b : Z) :
  is_u64 a -> is_u64 b ->
  let '(hi, lo) := mul_u64 a b in
  is_u64 hi /\ is_u64 lo /\ hi * 2 ^ 64 + lo = a * b.
Proof.
  intros Ha Hb. rewrite (mul_u64_eq a b Ha Hb). unfold is_u64 in *.
  pose proof (Z.div_mod (a * b) (2 ^ 64) ltac:(lia)).
  pose proof (Z.mod_pos_bound (a * b) (2 ^ 64) ltac:(lia)).
  split; [|split; [lia|lia]].
  split; [apply Z.div_pos; nia|]. apply Z.div_lt_upper_bound; nia.
Qed.

Lemma mul_u64_exact_witness :
  is_u64 (2 ^ 64 - 1) /\ is_u64 (2 ^ 64 - 1) /\
  let '(hi, lo) := mul_u64 (2 ^ 64 - 1) (2 ^ 64 - 1) in
  is_u64 hi /\ is_u64 lo /\ hi * 2 ^ 64 + lo = (2 ^ 64 - 1) * (2 ^ 64 - 1).
Proof.
  assert (H : is_u64 (2 ^ 64 - 1)) by (unfold is_u64; lia).
  split; [exact H|]. split; [exact H|].
  exact (mul_u64_exact (2 ^ 64 - 1) (2 ^ 64 - 1) H H).
Defined.

Lemma top_bit_split (x : Z) :
  0 <= x < 2 ^ 64 ->
  Z.shiftr x 63 = x / 2 ^ 63 /\ shl64 x 1 = (x mod 2 ^ 63) * 2 ^ 1 /\
  0 <= x / 2 ^ 63 < 2 /\ 0 <= x mod 2 ^ 63 < 2 ^ 63 /\
  x = x / 2 ^ 63 * 2 ^ 63 + x mod 2 ^ 63.
Proof.
  intros Hx. rewrite Z.shiftr_div_pow2 by lia.
  pose proof (Z.div_mod x (2 ^ 63) ltac:(lia)).
  pose proof (Z.mod_pos_bound x (2 ^ 63) ltac:(lia)).
  assert (0 <= x / 2 ^ 63 < 2) by lia.
  split; [reflexivity|]. split; [|lia].
  unfold shl64, wrap64. rewrite (Z.mod_small x) by lia.
  rewrite Z.shiftl_mul_pow2 by lia. change (2 ^ 1) with 2.
  symmetry. apply Z.mod_unique with (x / 2 ^ 63); lia.
Qed.

(** One iteration of the long division: the next bit [b] of the
    dividend moves from the remaining bits [R] to the prefix [P]. *)
Lemma div_u128_u64_step_spec (d q r h l P R i : Z) :
  0 < d <= 2 ^ 63 -> 0 <= i <= 127 -> 0 <= R < 2 ^ (128 - i) -> 0 <= P ->
  0 <= h < 2 ^ 64 -> 0 <= l < 2 ^ 64 -> h * 2 ^ 64 + l = R * 2 ^ i ->
  r = P mod d -> q = (P / d) mod 2 ^ 64 ->
  exists q' r' h' l' b,
    div_u128_u64_step d (q, r, h, l) = (q', r', h', l') /\
    0 <= b < 2 /\
    0 <= R - b * 2 ^ (127 - i) < 2 ^ (127 - i) /\
    0 <= h' < 2 ^ 64 /\ 0 <= l' < 2 ^ 64 /\
    h' * 2 ^ 64 + l' = (R - b * 2 ^ (127 - i)) * 2 ^ (i + 1) /\
    r' = (2 * P + b) mod d /\ q' = ((2 * P + b) / d) mod 2 ^ 64.
Proof.
  intros Hd Hi HR HP Hh Hl Hhl Hr Hq.
  pose proof (Z.mod_pos_bound P d ltac:(lia)) as Hrb. rewrite <- Hr in Hrb.
  pose proof (Z.mod_pos_bound (P / d) (2 ^ 64) ltac:(lia)) as Hqb.
  rewrite <- Hq in Hqb.
  destruct (top_bit_split h Hh) as (Eh1 & Eh2 & Hhb & Hhm & Eh).
  destruct (top_bit_split l Hl) as (El1 & El2 & Hlb & Hlm & El).
  destruct (top_bit_split q Hqb) as (_ & Eq2 & Hqt & Hqm & Eq).
  destruct (top_bit_split r ltac:(lia)) as (_ & Er2 & _ & _ & Er).
  assert (Hr0 : r / 2 ^ 63 = 0) by (apply Z.div_small; lia).
  assert (Hrm : r mod 2 ^ 63 = r) by (apply Z.mod_small; lia).
  rewrite Hrm in Er2.
  unfold div_u128_u64_step. cbv zeta beta iota.
  rewrite Eh1, El1, Eh2, El2, Eq2, Er2.
  set (b := h / 2 ^ 63) in *. set (c := l / 2 ^ 63) in *.
  set (hm := h mod 2 ^ 63) in *. set (lm := l mod 2 ^ 63) in *.
  set (qm := q mod 2 ^ 63) in *.
  rewrite (lor_shift_add r b 1), (lor_shift_add hm c 1) by (change (2 ^ 1) with 2; lia).
  change (2 ^ 1) with 2.
  (* the arithmetic of the remaining bits *)
  assert (Hpi : 0 < 2 ^ i) by (apply Z.pow_pos_nonneg; lia).
  assert (Hp127 : 2 ^ (127 - i) * 2 ^ i = 2 ^ 127)
    by (rewrite <- Z.pow_add_r by lia; f_equal; lia).
  assert (Hp1 : 2 ^ (i + 1) = 2 * 2 ^ i)
    by (rewrite Z.pow_add_r by lia; change (2 ^ 1) with 2; lia).
  assert (Hp128 : 2 ^ (128 - i) = 2 * 2 ^ (127 - i)).
  { replace (128 - i) with (1 + (127 - i)) by lia.
    rewrite Z.pow_add_r by lia. reflexivity. }
  assert (HR' : (R - b * 2 ^ (127 - i)) * 2 ^ i = hm * 2 ^ 64 + l) by nia.
  assert (HRb : 0 <= R - b * 2 ^ (127 - i) < 2 ^ (127 - i)).
  { assert (0 <= (R - b * 2 ^ (127 - i)) * 2 ^ i < 2 ^ (127 - i) * 2 ^ i) by lia.
    nia. }
  (* quotient and remainder of the new prefix *)
  pose proof (Z.div_mod P d ltac:(lia)) as HPd. rewrite <- Hr in HPd.
  set (Q := P / d) in *.
  pose proof (Z.div_mod Q (2 ^ 64) ltac:(lia)) as HQd. rewrite <- Hq in HQd.
  assert (Hcommon :
    0 <= hm * 2 + c < 2 ^ 64 /\ 0 <= lm * 2 < 2 ^ 64 /\
    (hm * 2 + c) * 2 ^ 64 + lm * 2 = (R - b * 2 ^ (127 - i)) * 2 ^ (i + 1)).
  { split; [lia|]. split; [lia|]. rewrite Hp1. nia. }
  destruct Hcommon as (Hh' & Hl' & Hhl').
  destruct (Z.leb_spec d (r * 2 + b)) as [Hge|Hlt].
  - assert (Hor : Z.lor (qm * 2) 1 = qm * 2 + 1).
    { change 2 with (2 ^ 1) at 1. apply lor_shift_add; lia. }
    rewrite Hor.
    exists (qm * 2 + 1), (wrap64 (r * 2 + b - d)), (hm * 2 + c), (lm * 2), b.
    split; [reflexivity|]. split; [lia|]. split; [exact HRb|].
    split; [exact Hh'|]. split; [exact Hl'|]. split; [exact Hhl'|].
    assert (HP' : 2 * P + b = (2 * Q + 1) * d + (r * 2 + b - d)) by lia.
    split.
    + unfold wrap64. rewrite Z.mod_small by lia.
      apply Z.mod_unique with (2 * Q + 1); lia.
    + replace ((2 * P + b) / d) with (2 * Q + 1)
        by (apply Z.div_unique with (r * 2 + b - d); lia).
      apply Z.mod_unique with (2 * (Q / 2 ^ 64) + q / 2 ^ 63); lia.
  - exists (qm * 2), (r * 2 + b), (hm * 2 + c), (lm * 2), b.
    split; [reflexivity|]. split; [lia|]. split; [exact HRb|].
    split; [exact Hh'|]. split; [exact Hl'|]. split; [exact Hhl'|].
    assert (HP' : 2 * P + b = (2 * Q) * d + (r * 2 + b)) by lia.
    split.
    + apply Z.mod_unique with (2 * Q); lia.
    + replace ((2 * P + b) / d) with (2 * Q)
        by (apply Z.div_unique with (r * 2 + b); lia).
      apply Z.mod_unique with (2 * (Q / 2 ^ 64) + q / 2 ^ 63); lia.
Qed.

Lemma div_u128_u64_steps (d hi lo : Z) (n : nat) :
  0 < d <= 2 ^ 63 -> is_u64 hi -> is_u64 lo -> (n <= 128)%nat ->
  exists q r h l P R,
    Nat.iter n (div_u128_u64_step d) (0, 0, hi, lo) = (q, r, h, l) /\
    hi * 2 ^ 64 + lo = P * 2 ^ (128 - Z.of_nat n) + R /\
    0 <= R < 2 ^ (128 - Z.of_nat n) /\ 0 <= P /\
    0 <= h < 2 ^ 64 /\ 0 <= l < 2 ^ 64 /\
    h * 2 ^ 64 + l = R * 2 ^ Z.of_nat n /\
    r = P mod d /\ q = (P / d) mod 2 ^ 64.
Proof.
  unfold is_u64. intros Hd Hhi Hlo. induction n as [|n IH]; intros Hn.
  - exists 0, 0, hi, lo, 0, (hi * 2 ^ 64 + lo).
    change (Z.of_nat 0) with 0. change (128 - 0) with 128.
    split; [reflexivity|]. split; [lia|]. split; [lia|].
    split; [lia|]. split; [lia|]. split; [lia|]. split; [lia|].
    split; [rewrite Z.mod_0_l; lia|]. rewrite Z.div_0_l by lia. reflexivity.
  - destruct (IH ltac:(lia)) as (q & r & h & l & P & R & Hit & HN & HR & HP & Hh & Hl & Hhl & Hr & Hq).
    destruct (div_u128_u64_step_spec d q r h l P R (Z.of_nat n))
      as (q' & r' & h' & l' & b & Hstep & Hb & HR' & Hh' & Hl' & Hhl' & Hr' & Hq');
      try assumption; try lia.
    exists q', r', h', l', (2 * P + b), (R - b * 2 ^ (127 - Z.of_nat n)).
    rewrite Nat2Z.inj_succ. unfold Z.succ.
    replace (128 - (Z.of_nat n + 1)) with (127 - Z.of_nat n) by lia.
    split; [rewrite Nat.iter_succ, Hit; exact Hstep|].
    assert (Hp128 : 2 ^ (128 - Z.of_nat n) = 2 * 2 ^ (127 - Z.of_nat n)).
    { replace (128 - Z.of_nat n) with (1 + (127 - Z.of_nat n)) by lia.
      rewrite Z.pow_add_r by lia. reflexivity. }
    split; [rewrite HN, Hp128; ring|].
    split; [exact HR'|]. split; [lia|]. split; [exact Hh'|].
    split; [exact Hl'|]. split; [exact Hhl'|]. split; assumption.
Qed.

(** X17. [div_u128_u64] returns the low 64 bits of the quotient of the
    128-bit dividend [hi * 2^64 + lo] by [d], for every divisor from 1
    to 2^63; when [hi < d] that is the whole quotient. *)
Theorem div_u128_u64_quotient (hi lo d : Z) :
  is_u64 hi -> is_u64 lo -> 0 < d <= 2 ^ 63 ->
  div_u128_u64 hi lo d = ((hi * 2 ^ 64 + lo) / d) mod 2 ^ 64 /\
  (hi < d -> div_u128_u64 hi lo d = (hi * 2 ^ 64 + lo) / d).
Proof.
  intros Hhi Hlo Hd.
  destruct (div_u128_u64_steps d hi lo 128 Hd Hhi Hlo (le_n _))
    as (q & r & h & l & P & R & Hit & HN & HR & HP & _ & _ & _ & _ & Hq).
  change (128 - Z.of_nat 128) with 0 in HN, HR. change (2 ^ 0) with 1 in HN, HR.
  assert (E : div_u128_u64 hi lo d = ((hi * 2 ^ 64 + lo) / d) mod 2 ^ 64).
  { unfold div_u128_u64. rewrite Hit, Hq. f_equal. f_equal. lia. }
  split; [exact E|].
  intros Hlt. rewrite E. apply Z.mod_small. unfold is_u64 in *. split.
  - apply Z.div_pos; lia.
  - apply Z.div_lt_upper_bound; nia.
Qed.

Lemma div_u128_u64_quotient_witness :
  is_u64 (2 ^ 41) /\ is_u64 (2 ^ 63 + 5) /\ 0 < 2 ^ 52 + 1 <= 2 ^ 63 /\
  div_u128_u64 (2 ^ 41) (2 ^ 63 + 5) (2 ^ 52 + 1)
  = ((2 ^ 41 * 2 ^ 64 + (2 ^ 63 + 5)) / (2 ^ 52 + 1)) mod 2 ^ 64 /\
  (2 ^ 41 < 2 ^ 52 + 1 ->
   div_u128_u64 (2 ^ 41) (2 ^ 63 + 5) (2 ^ 52 + 1)
   = (2 ^ 41 * 2 ^ 64 + (2 ^ 63 + 5)) / (2 ^ 52 + 1)).
Proof.
  assert (H1 : is_u64 (2 ^ 41)) by (unfold is_u64; lia).
  assert (H2 : is_u64 (2 ^ 63 + 5)) by (unfold is_u64; lia).
  assert (H3 : 0 < 2 ^ 52 + 1 <= 2 ^ 63) by lia.
  split; [exact H1|]. split; [exact H2|]. split; [exact H3|].
  exact (div_u128_u64_quotient (2 ^ 41) (2 ^ 63 + 5) (2 ^ 52 + 1) H1 H2 H3).
Defined.

(** *** Multiplication of normal operands *)

(** An exact result [X * 2 ^ j] of [2 * w + inc + 1] digits, cut to its
    [w + 1] leading digits. *)
Lemma product_truncated (w X j inc : Z) :
  0 <= w -> 0 <= j -> 0 <= w + inc ->
  2 ^ (2 * w + inc) <= X < 2 ^ (2 * w + inc + 1) ->
  keep_leading (w + 1) (X * 2 ^ j) = X / 2 ^ (w + inc) * 2 ^ (w + inc + j) /\
  2 ^ w <= X / 2 ^ (w + inc) < 2 ^ (w + 1) /\
  2 ^ (2 * w + inc + j) <= X * 2 ^ j < 2 ^ (2 * w + inc + j + 1).
Proof.
  intros Hw Hj Hinc HX.
  assert (Hpj : 0 < 2 ^ j) by (apply Z.pow_pos_nonneg; lia).
  assert (H0 : 0 < 2 ^ (2 * w + inc)) by (apply Z.pow_pos_nonneg; lia).
  assert (Hr : 2 ^ (2 * w + inc + j) <= X * 2 ^ j < 2 ^ (2 * w + inc + j + 1)).
  { replace (2 * w + inc + j + 1) with (2 * w + inc + 1 + j) by lia.
    rewrite !(Z.pow_add_r _ _ j) by lia. nia. }
  assert (Hlog : Z.log2 (X * 2 ^ j) = 2 * w + inc + j).
  { apply Z.log2_unique; [lia|]. unfold Z.succ. exact Hr. }
  split; [|split; [|exact Hr]].
  - unfold keep_leading. cbv zeta. rewrite Hlog.
    replace (2 * w + inc + j + 1 - (w + 1)) with (w + inc + j) by lia.
    rewrite Z.max_r by lia.
    rewrite (Z.pow_add_r 2 (w + inc) j) at 1 by lia.
    rewrite Z.div_mul_cancel_r by (apply Z.pow_nonzero; lia). reflexivity.
  - assert (0 < 2 ^ (w + inc)) by (apply Z.pow_pos_nonneg; lia).
    split.
    + apply Z.div_le_lower_bound; [lia|].
      rewrite <- Z.pow_add_r by lia.
      replace (w + inc + w) with (2 * w + inc) by lia. lia.
    + apply Z.div_lt_upper_bound; [lia|].
      rewrite <- Z.pow_add_r by lia.
      replace (w + inc + (w + 1)) with (2 * w + inc + 1) by lia. lia.
Qed.

Lemma pow2_lt_inv (a b : Z) : 0 <= b -> 2 ^ a < 2 ^ b -> a < b.
Proof. intros Hb H. apply (Z.pow_lt_mono_r_iff 2); lia. Qed.

Lemma sign_factor_lxor (sa sb : Z) :
  0 <= sa < 2 -> 0 <= sb < 2 ->
  0 <= Z.lxor sa sb < 2 /\
  (if Z.lxor sa sb =? 0 then 1 else -1)
  = (if sa =? 0 then 1 else -1) * (if sb =? 0 then 1 else -1).
Proof.
  intros Ha Hb.
  assert (sa = 0 \/ sa = 1) as [-> | ->] by lia;
    assert (sb = 0 \/ sb = 1) as [-> | ->] by lia; cbn; lia.
Qed.

Lemma f32_mag_normal (a : Z) : 1 <= f32_exp a -> (Z.land a 0x7FFFFFFF =? 0) = false.
Proof.
  intros He. fold (f32_mag a). pose proof (f32_mag_fields a) as [_ Hm].
  pose proof (f32_frac_range a). apply Z.eqb_neq. lia.
Qed.

Lemma f64_mag_normal (a : Z) :
  1 <= f64_exp a -> (Z.land a 0x7FFFFFFFFFFFFFFF =? 0) = false.
Proof.
  intros He. fold (f64_mag a). pose proof (f64_mag_fields a) as [_ Hm].
  pose proof (f64_frac_range a). apply Z.eqb_neq. lia.
Qed.

(** The result of [__mulsf3] on two normal operands, by the final
    exponent. *)
Lemma mulsf3_normal (a b : Z) :
  1 <= f32_exp a <= 254 -> 1 <= f32_exp b <= 254 ->
  let X := (2 ^ 23 + f32_frac a) * (2 ^ 23 + f32_frac b) in
  let inc := if 2 ^ 47 <=? X then 1 else 0 in
  let er := f32_exp a + f32_exp b - 127 + inc in
  let sr := Z.lxor (f32_sign a) (f32_sign b) in
  2 ^ (46 + inc) <= X < 2 ^ (46 + inc + 1) /\
  __mulsf3 a b
  = if 255 <=? er then Z.lor (shl32 sr 31) 0x7F800000
    else if er <=? 0 then shl32 sr 31
    else Z.lor (Z.lor (shl32 sr 31) (shl32 er 23)) (X / 2 ^ (23 + inc) - 2 ^ 23).
Proof.
  intros Ha Hb X inc er sr.
  pose proof (f32_frac_range a) as Hfa. pose proof (f32_frac_range b) as Hfb.
  assert (HX : 2 ^ 46 <= X < 2 ^ 48) by (subst X; nia).
  assert (Hinc : 2 ^ (46 + inc) <= X < 2 ^ (46 + inc + 1)).
  { subst inc. destruct (Z.leb_spec (2 ^ 47) X); cbn; lia. }
  split; [exact Hinc|].
  unfold __mulsf3, f32_to_bits, bits_to_f32. cbv zeta.
  rewrite (f32_mag_normal a), (f32_mag_normal b) by lia. cbn [orb].
  destruct (Z.eqb_spec (f32_exp a) 255); [lia|].
  destruct (Z.eqb_spec (f32_exp b) 255); [lia|]. cbn [orb].
  rewrite !f32_implicit_bit. fold X. fold sr.
  replace (wrap64 X) with X by (unfold wrap64; rewrite Z.mod_small; lia).
  rewrite !(Z.shiftr_div_pow2 X) by lia.
  assert (Hdiv : 2 ^ 47 <= X <-> 0x1000000 <= X / 2 ^ 23).
  { split; intros H.
    - apply Z.div_le_lower_bound; lia.
    - pose proof (Z.div_mod X (2 ^ 23) ltac:(lia)).
      pose proof (Z.mod_pos_bound X (2 ^ 23) ltac:(lia)). lia. }
  destruct (product_truncated 23 X 0 inc) as (_ & HM & _);
    [lia|lia|subst inc; destruct (2 ^ 47 <=? X); lia|exact Hinc|].
  assert (Hfr : forall M, 2 ^ 23 <= M < 2 ^ 24 ->
                          Z.land (wrap32 M) 0x7FFFFF = M - 2 ^ 23).
  { intros M HMr. unfold wrap32. rewrite Z.mod_small by lia.
    change 0x7FFFFF with (Z.ones 23). rewrite Z.land_ones by lia.
    symmetry. apply Z.mod_unique with 1; lia. }
  subst er inc.
  destruct (Z.leb_spec (2 ^ 47) X) as [Hbig|Hsmall];
    destruct (Z.leb_spec 0x1000000 (X / 2 ^ 23)); try lia.
  - rewrite Z.shiftr_div_pow2 by lia.
    rewrite Z.div_div by lia. change (2 ^ 23 * 2 ^ 1) with (2 ^ (23 + 1)).
    rewrite Hfr by exact HM. reflexivity.
  - rewrite Z.add_0_r in *. rewrite Hfr by exact HM. reflexivity.
Qed.

Lemma abs_sgn_signed (s m : Z) :
  0 < m ->
  Z.abs ((if s =? 0 then 1 else -1) * m) = m /\
  Z.sgn ((if s =? 0 then 1 else -1) * m) = (if s =? 0 then 1 else -1).
Proof. intros Hm. destruct (s =? 0); lia. Qed.

(** X18. [__mulsf3] on two normal operands: the sign of the result is
    the XOR of the operand signs; the result is an infinity when the
    exact product has magnitude 2^128 or more, a zero when it is below
    2^-126 (no subnormal result is produced), and otherwise the normal
    number that is the exact product rounded toward zero to 24
    significant binary digits.  (Values are over the denominator 2^149,
    so their product [p] is over 2^298.) *)
Theorem mulsf3_rounds_toward_zero (a b : Z) :
  1 <= f32_exp a <= 254 -> 1 <= f32_exp b <= 254 ->
  let p := f32_scaled a * f32_scaled b in
  let r := __mulsf3 a b in
  f32_sign r = Z.lxor (f32_sign a) (f32_sign b) /\
  (2 ^ 426 <= Z.abs p -> f32_is_inf r = true) /\
  (Z.abs p < 2 ^ 172 -> f32_is_zero r = true) /\
  (2 ^ 172 <= Z.abs p < 2 ^ 426 ->
   1 <= f32_exp r <= 254 /\
   f32_scaled r * 2 ^ 149 = Z.sgn p * keep_leading 24 (Z.abs p)).
Proof.
  intros Ha Hb p r.
  destruct (mulsf3_normal a b Ha Hb) as [Hinc Hr]. cbv zeta in Hinc, Hr.
  fold r in Hr.
  pose proof (f32_frac_range a) as Hfa. pose proof (f32_frac_range b) as Hfb.
  set (X := (2 ^ 23 + f32_frac a) * (2 ^ 23 + f32_frac b)) in *.
  set (inc := if 2 ^ 47 <=? X then 1 else 0) in *.
  assert (Hi : 0 <= inc <= 1) by (subst inc; destruct (2 ^ 47 <=? X); lia).
  set (j := f32_exp a + f32_exp b - 2).
  destruct (sign_factor_lxor (f32_sign a) (f32_sign b)) as [Hsr Hsf];
    [destruct (f32_sign_cases a); lia|destruct (f32_sign_cases b); lia|].
  set (sr := Z.lxor (f32_sign a) (f32_sign b)) in *.
  destruct (product_truncated 23 X j inc) as (Hkeep & HM & Hrange);
    [lia|subst j; lia|lia|exact Hinc|].
  change (2 * 23) with 46 in Hrange. change (23 + 1) with 24 in Hkeep, HM.
  assert (Hp : p = (if sr =? 0 then 1 else -1) * (X * 2 ^ j)).
  { subst p. unfold f32_scaled.
    destruct (Z.eqb_spec (f32_exp a) 0); [lia|].
    destruct (Z.eqb_spec (f32_exp b) 0); [lia|].
    rewrite Hsf. subst j X.
    replace (f32_exp a + f32_exp b - 2) with ((f32_exp a - 1) + (f32_exp b - 1)) by lia.
    rewrite Z.pow_add_r by lia. ring. }
  assert (Hpos : 0 < X * 2 ^ j).
  { assert (0 < 2 ^ (46 + inc + j)) by (apply Z.pow_pos_nonneg; subst j; lia). lia. }
  destruct (abs_sgn_signed sr (X * 2 ^ j) Hpos) as [Habs Hsgn].
  rewrite <- Hp in Habs, Hsgn. rewrite Habs, Hsgn. clear Habs Hsgn Hp.
  set (er := f32_exp a + f32_exp b - 127 + inc) in *.
  assert (Her : er = j + inc - 125) by (subst er j; lia).
  assert (Hj : 0 <= j) by (subst j; lia).
  destruct (Z.leb_spec 255 er) as [Hov|Hov].
  { (* overflow *)
    assert (Hlow : 2 ^ 426 <= X * 2 ^ j).
    { apply Z.le_trans with (2 ^ (46 + inc + j)); [|lia].
      apply Z.pow_le_mono_r; lia. }
    destruct (f32_inf_of_sign a b) as [Hinf Hsign]. fold sr in Hinf, Hsign.
    rewrite <- Hr in Hinf, Hsign.
    split; [exact Hsign|]. split; [intros _; exact Hinf|].
    split; intros H; lia. }
  destruct (Z.leb_spec er 0) as [Hun|Hun].
  { (* underflow *)
    assert (Hhigh : X * 2 ^ j < 2 ^ 172).
    { apply Z.lt_le_trans with (2 ^ (46 + inc + j + 1)); [lia|].
      apply Z.pow_le_mono_r; lia. }
    destruct (f32_zero_of_sign a b) as [Hzero Hsign]. fold sr in Hzero, Hsign.
    rewrite <- Hr in Hzero, Hsign.
    split; [exact Hsign|]. split; [intros H; lia|].
    split; [intros _; exact Hzero|]. intros H; lia. }
  (* a normal result *)
  assert (Hmid : 2 ^ 172 <= X * 2 ^ j < 2 ^ 426).
  { split.
    - apply Z.le_trans with (2 ^ (46 + inc + j)); [|lia].
      apply Z.pow_le_mono_r; lia.
    - apply Z.lt_le_trans with (2 ^ (46 + inc + j + 1)); [lia|].
      apply Z.pow_le_mono_r; lia. }
  destruct (f32_pack_fields sr er (X / 2 ^ (23 + inc) - 2 ^ 23))
    as (Hsign & Hexp & Hfr); [lia..|].
  cbv zeta in Hsign, Hexp, Hfr. rewrite <- Hr in Hsign, Hexp, Hfr.
  split; [exact Hsign|]. split; [intros H; lia|]. split; [intros H; lia|].
  intros _. split; [lia|].
  unfold f32_scaled. rewrite Hsign, Hexp, Hfr, Hkeep.
  destruct (Z.eqb_spec er 0); [lia|].
  replace (2 ^ 23 + (X / 2 ^ (23 + inc) - 2 ^ 23)) with (X / 2 ^ (23 + inc)) by lia.
  rewrite <- !Z.mul_assoc, <- Z.pow_add_r by lia.
  replace (er - 1 + 149) with (23 + inc + j) by lia. reflexivity.
Qed.

Lemma mulsf3_rounds_toward_zero_witness :
  1 <= f32_exp 0x3FFFFFFF <= 254 /\ 1 <= f32_exp 0xC0400001 <= 254 /\
  let p := f32_scaled 0x3FFFFFFF * f32_scaled 0xC0400001 in
  let r := __mulsf3 0x3FFFFFFF 0xC0400001 in
  f32_sign r = Z.lxor (f32_sign 0x3FFFFFFF) (f32_sign 0xC0400001) /\
  (2 ^ 426 <= Z.abs p -> f32_is_inf r = true) /\
  (Z.abs p < 2 ^ 172 -> f32_is_zero r = true) /\
  (2 ^ 172 <= Z.abs p < 2 ^ 426 ->
   1 <= f32_exp r <= 254 /\
   f32_scaled r * 2 ^ 149 = Z.sgn p * keep_leading 24 (Z.abs p)).
Proof.
  assert (H1 : 1 <= f32_exp 0x3FFFFFFF <= 254)
    by (change (f32_exp 0x3FFFFFFF) with 127; lia).
  assert (H2 : 1 <= f32_exp 0xC0400001 <= 254)
    by (change (f32_exp 0xC0400001) with 128; lia).
  split; [exact H1|]. split; [exact H2|].
  exact (mulsf3_rounds_toward_zero 0x3FFFFFFF 0xC0400001 H1 H2).
Defined.

Lemma muldf3_normal (a b : Z) :
  1 <= f64_exp a <= 2046 -> 1 <= f64_exp b <= 2046 ->
  let X := (2 ^ 52 + f64_frac a) * (2 ^ 52 + f64_frac b) in
  let inc := if 2 ^ 105 <=? X then 1 else 0 in
  let er := f64_exp a + f64_exp b - 1023 + inc in
  let sr := Z.lxor (f64_sign a) (f64_sign b) in
  2 ^ (104 + inc) <= X < 2 ^ (104 + inc + 1) /\
  __muldf3 a b
  = if 2047 <=? er then Z.lor (shl64 sr 63) (shl64 0x7FF 52)
    else if er <=? 0 then shl64 sr 63
    else Z.lor (Z.lor (shl64 sr 63) (shl64 er 52)) (X / 2 ^ (52 + inc) - 2 ^ 52).
Proof.
  intros Ha Hb X inc er sr.
  pose proof (f64_frac_range a) as Hfa. pose proof (f64_frac_range b) as Hfb.
  assert (HX : 2 ^ 104 <= X < 2 ^ 106) by (subst X; nia).
  assert (Hinc : 2 ^ (104 + inc) <= X < 2 ^ (104 + inc + 1)).
  { subst inc. destruct (Z.leb_spec (2 ^ 105) X); cbn; lia. }
  split; [exact Hinc|].
  unfold __muldf3, f64_to_bits, bits_to_f64. cbv zeta.
  rewrite (f64_mag_normal a), (f64_mag_normal b) by lia. cbn [orb].
  destruct (Z.eqb_spec (f64_exp a) 0x7FF); [lia|].
  destruct (Z.eqb_spec (f64_exp b) 0x7FF); [lia|]. cbn [orb].
  rewrite !f64_implicit_bit. fold sr.
  rewrite mul_u64_eq by (unfold is_u64; lia). fold X.
  assert (Hfr1 : Z.lor (shl64 (X / 2 ^ 64) 12) (Z.shiftr (X mod 2 ^ 64) 52)
                 = X / 2 ^ 52).
  { pose proof (Z.div_mod X (2 ^ 64) ltac:(lia)) as Hdm.
    pose proof (Z.mod_pos_bound X (2 ^ 64) ltac:(lia)) as Hmb.
    assert (Hhi : 0 <= X / 2 ^ 64 < 2 ^ 42) by lia.
    set (hi := X / 2 ^ 64) in *. set (lo := X mod 2 ^ 64) in *.
    unfold shl64, wrap64. rewrite (Z.mod_small hi) by lia.
    rewrite Z.shiftl_mul_pow2, Z.shiftr_div_pow2 by lia.
    rewrite (Z.mod_small (hi * 2 ^ 12)) by lia.
    assert (0 <= lo / 2 ^ 52 < 2 ^ 12).
    { split; [apply Z.div_pos; lia|apply Z.div_lt_upper_bound; lia]. }
    rewrite lor_shift_add by lia.
    rewrite Hdm. replace (2 ^ 64 * hi + lo) with (hi * 2 ^ 12 * 2 ^ 52 + lo) by lia.
    rewrite Z.div_add_l by lia. reflexivity. }
  rewrite Hfr1.
  assert (Hdiv : 2 ^ 105 <= X <-> shl64 1 53 <= X / 2 ^ 52).
  { change (shl64 1 53) with (2 ^ 53). split; intros H.
    - apply Z.div_le_lower_bound; lia.
    - pose proof (Z.div_mod X (2 ^ 52) ltac:(lia)).
      pose proof (Z.mod_pos_bound X (2 ^ 52) ltac:(lia)). lia. }
  destruct (product_truncated 52 X 0 inc) as (_ & HM & _);
    [lia|lia|subst inc; destruct (2 ^ 105 <=? X); lia|exact Hinc|].
  assert (Hfr : forall M, 2 ^ 52 <= M < 2 ^ 53 ->
                          Z.land M 0xFFFFFFFFFFFFF = M - 2 ^ 52).
  { intros M HMr. change 0xFFFFFFFFFFFFF with (Z.ones 52).
    rewrite Z.land_ones by lia. symmetry. apply Z.mod_unique with 1; lia. }
  subst er inc.
  destruct (Z.leb_spec (2 ^ 105) X) as [Hbig|Hsmall];
    destruct (Z.leb_spec (shl64 1 53) (X / 2 ^ 52)); try lia.
  - rewrite Z.shiftr_div_pow2 by lia.
    rewrite Z.div_div by lia. change (2 ^ 52 * 2 ^ 1) with (2 ^ (52 + 1)).
    rewrite Hfr by exact HM. reflexivity.
  - rewrite Z.add_0_r in *. rewrite Hfr by exact HM. reflexivity.
Qed.

(** X19. [__muldf3] on two normal operands: the sign of the result is
    the XOR of the operand signs; the result is an infinity when the
    exact product has magnitude 2^1024 or more, a zero when it is below
    2^-1022 (no subnormal result is produced), and otherwise the normal
    number that is the exact product rounded toward zero to 53
    significant binary digits.  (Values are over the denominator
    2^1074, so their product [p] is over 2^2148.) *)
Theorem muldf3_rounds_toward_zero (a b : Z) :
  1 <= f64_exp a <= 2046 -> 1 <= f64_exp b <= 2046 ->
  let p := f64_scaled a * f64_scaled b in
  let r := __muldf3 a b in
  f64_sign r = Z.lxor (f64_sign a) (f64_sign b) /\
  (2 ^ 3172 <= Z.abs p -> f64_is_inf r = true) /\
  (Z.abs p < 2 ^ 1126 -> f64_is_zero r = true) /\
  (2 ^ 1126 <= Z.abs p < 2 ^ 3172 ->
   1 <= f64_exp r <= 2046 /\
   f64_scaled r * 2 ^ 1074 = Z.sgn p * keep_leading 53 (Z.abs p)).
Proof.
  intros Ha Hb p r.
  destruct (muldf3_normal a b Ha Hb) as [Hinc Hr]. cbv zeta in Hinc, Hr.
  fold r in Hr.
  pose proof (f64_frac_range a) as Hfa. pose proof (f64_frac_range b) as Hfb.
  set (X := (2 ^ 52 + f64_frac a) * (2 ^ 52 + f64_frac b)) in *.
  set (inc := if 2 ^ 105 <=? X then 1 else 0) in *.
  assert (Hi : 0 <= inc <= 1) by (subst inc; destruct (2 ^ 105 <=? X); lia).
  set (j := f64_exp a + f64_exp b - 2).
  destruct (sign_factor_lxor (f64_sign a) (f64_sign b)) as [Hsr Hsf];
    [destruct (f64_sign_cases a); lia|destruct (f64_sign_cases b); lia|].
  set (sr := Z.lxor (f64_sign a) (f64_sign b)) in *.
  destruct (product_truncated 52 X j inc) as (Hkeep & HM & Hrange);
    [lia|subst j; lia|lia|exact Hinc|].
  change (2 * 52) with 104 in Hrange. change (52 + 1) with 53 in Hkeep, HM.
  assert (Hp : p = (if sr =? 0 then 1 else -1) * (X * 2 ^ j)).
  { subst p. unfold f64_scaled.
    destruct (Z.eqb_spec (f64_exp a) 0); [lia|].
    destruct (Z.eqb_spec (f64_exp b) 0); [lia|].
    rewrite Hsf. subst j X.
    replace (f64_exp a + f64_exp b - 2) with ((f64_exp a - 1) + (f64_exp b - 1)) by lia.
    rewrite Z.pow_add_r by lia. ring. }
  assert (Hpos : 0 < X * 2 ^ j).
  { assert (0 < 2 ^ (104 + inc + j)) by (apply Z.pow_pos_nonneg; subst j; lia). lia. }
  destruct (abs_sgn_signed sr (X * 2 ^ j) Hpos) as [Habs Hsgn].
  rewrite <- Hp in Habs, Hsgn. rewrite Habs, Hsgn. clear Habs Hsgn Hp.
  set (er := f64_exp a + f64_exp b - 1023 + inc) in *.
  assert (Her : er = j + inc - 1021) by (subst er j; lia).
  assert (Hj : 0 <= j) by (subst j; lia).
  destruct (Z.leb_spec 2047 er) as [Hov|Hov].
  { assert (Hlow : 2 ^ 3172 <= X * 2 ^ j).
    { apply Z.le_trans with (2 ^ (104 + inc + j)); [|lia].
      apply Z.pow_le_mono_r; lia. }
    destruct (f64_inf_of_sign a b) as [Hinf Hsign]. fold sr in Hinf, Hsign.
    rewrite <- Hr in Hinf, Hsign.
    split; [exact Hsign|]. split; [intros _; exact Hinf|].
    split; intros H; lia. }
  destruct (Z.leb_spec er 0) as [Hun|Hun].
  { assert (Hhigh : X * 2 ^ j < 2 ^ 1126).
    { apply Z.lt_le_trans with (2 ^ (104 + inc + j + 1)); [lia|].
      apply Z.pow_le_mono_r; lia. }
    destruct (f64_zero_of_sign a b) as [Hzero Hsign]. fold sr in Hzero, Hsign.
    rewrite <- Hr in Hzero, Hsign.
    split; [exact Hsign|]. split; [intros H; lia|].
    split; [intros _; exact Hzero|]. intros H; lia. }
  assert (Hmid : 2 ^ 1126 <= X * 2 ^ j < 2 ^ 3172).
  { split.
    - apply Z.le_trans with (2 ^ (104 + inc + j)); [|lia].
      apply Z.pow_le_mono_r; lia.
    - apply Z.lt_le_trans with (2 ^ (104 + inc + j + 1)); [lia|].
      apply Z.pow_le_mono_r; lia. }
  destruct (f64_pack_fields sr er (X / 2 ^ (52 + inc) - 2 ^ 52))
    as (Hsign & Hexp & Hfr); [lia..|].
  cbv zeta in Hsign, Hexp, Hfr. rewrite <- Hr in Hsign, Hexp, Hfr.
  split; [exact Hsign|]. split; [intros H; lia|]. split; [intros H; lia|].
  intros _. split; [lia|].
  unfold f64_scaled. rewrite Hsign, Hexp, Hfr, Hkeep.
  destruct (Z.eqb_spec er 0); [lia|].
  replace (2 ^ 52 + (X / 2 ^ (52 + inc) - 2 ^ 52)) with (X / 2 ^ (52 + inc)) by lia.
  rewrite <- !Z.mul_assoc, <- Z.pow_add_r by lia.
  replace (er - 1 + 1074) with (52 + inc + j) by lia. reflexivity.
Qed.

Lemma muldf3_rounds_toward_zero_witness :
  1 <= f64_exp 0x3FFFFFFFFFFFFFFF <= 2046 /\
  1 <= f64_exp 0xC008000000000001 <= 2046 /\
  let p := f64_scaled 0x3FFFFFFFFFFFFFFF * f64_scaled 0xC008000000000001 in
  let r := __muldf3 0x3FFFFFFFFFFFFFFF 0xC008000000000001 in
  f64_sign r = Z.lxor (f64_sign 0x3FFFFFFFFFFFFFFF) (f64_sign 0xC008000000000001) /\
  (2 ^ 3172 <= Z.abs p -> f64_is_inf r = true) /\
  (Z.abs p < 2 ^ 1126 -> f64_is_zero r = true) /\
  (2 ^ 1126 <= Z.abs p < 2 ^ 3172 ->
   1 <= f64_exp r <= 2046 /\
   f64_scaled r * 2 ^ 1074 = Z.sgn p * keep_leading 53 (Z.abs p)).
Proof.
  assert (H1 : 1 <= f64_exp 0x3FFFFFFFFFFFFFFF <= 2046)
    by (change (f64_exp 0x3FFFFFFFFFFFFFFF) with 1023; lia).
  assert (H2 : 1 <= f64_exp 0xC008000000000001 <= 2046)
    by (change (f64_exp 0xC008000000000001) with 1024; lia).
  split; [exact H1|]. split; [exact H2|].
  exact (muldf3_rounds_toward_zero 0x3FFFFFFFFFFFFFFF 0xC008000000000001 H1 H2).
Defined.

(** *** Addition of normal operands of one sign *)

Lemma f32_shift_down_once (fr er : Z) :
  2 ^ 23 <= fr < 2 ^ 25 ->
  f32_shift_down fr er
  = Some (if 2 ^ 24 <=? fr then (fr / 2 ^ 1, er + 1) else (fr, er)).
Proof.
  intros Hfr. unfold f32_shift_down. change 0x1000000 with (2 ^ 24).
  destruct (Z.leb_spec (2 ^ 24) fr) as [H|H].
  - change 64%nat with (S (S 62)). cbn [while fst snd].
    rewrite Z.shiftr_div_pow2 by lia.
    assert (fr / 2 ^ 1 < 2 ^ 24) by (apply Z.div_lt_upper_bound; lia).
    destruct (Z.leb_spec (2 ^ 24) fr); [|lia].
    destruct (Z.leb_spec (2 ^ 24) (fr / 2 ^ 1)); [lia|reflexivity].
  - change 64%nat with (S 63). cbn [while fst snd].
    destruct (Z.leb_spec (2 ^ 24) fr); [lia|reflexivity].
Qed.

Lemma shift_up_none (t fr er : Z) (up : Z -> Z) :
  t <= fr ->
  while (Z.to_nat er) (fun s => (fst s <? t) && (0 <? snd s))
        (fun s => (up (fst s), snd s - 1)) (fr, er) = Some (fr, er).
Proof.
  intros H. destruct (Z.to_nat er); cbn [while fst snd];
    (destruct (Z.ltb_spec fr t); [lia|reflexivity]).
Qed.

Lemma f32_add_rest_same (s fa fb ea : Z) :
  2 ^ 23 <= fa + fb < 2 ^ 25 -> 1 <= ea <= 254 ->
  let fr := fa + fb in
  let inc := if 2 ^ 24 <=? fr then 1 else 0 in
  f32_add_rest s s fa fb ea
  = Some (if 255 <=? ea + inc
          then (if negb (s =? 0) then 0xFF800000 else 0x7F800000)
          else Z.lor (Z.lor (shl32 s 31) (shl32 (ea + inc) 23))
                     (fr / 2 ^ inc - 2 ^ 23)).
Proof.
  intros Hfr Hea fr inc. unfold f32_add_rest, bits_to_f32.
  rewrite Z.eqb_refl.
  replace (wrap64 (fa + fb)) with fr by (unfold wrap64; rewrite Z.mod_small; lia).
  destruct (Z.eqb_spec fr 0); [lia|].
  rewrite (f32_shift_down_once fr ea Hfr).
  assert (HM : 2 ^ 23 <= fr / 2 ^ inc < 2 ^ 24).
  { subst inc. destruct (Z.leb_spec (2 ^ 24) fr).
    - split; [apply Z.div_le_lower_bound|apply Z.div_lt_upper_bound]; lia.
    - change (2 ^ 0) with 1. rewrite Z.div_1_r. lia. }
  assert (Hpair : (if 2 ^ 24 <=? fr then (fr / 2 ^ 1, ea + 1) else (fr, ea))
                  = (fr / 2 ^ inc, ea + inc)).
  { subst inc. destruct (2 ^ 24 <=? fr); [reflexivity|].
    change (2 ^ 0) with 1. rewrite Z.div_1_r, Z.add_0_r. reflexivity. }
  rewrite Hpair. unfold f32_shift_up.
  rewrite (shift_up_none 0x800000 _ _ (fun x => wrap64 (Z.shiftl x 1)))
    by (change 0x800000 with (2 ^ 23); lia).
  destruct (Z.leb_spec 255 (ea + inc)); [reflexivity|].
  destruct (Z.leb_spec (ea + inc) 0);
    [subst inc; destruct (2 ^ 24 <=? fr); lia|].
  assert (Hland : Z.land (wrap32 (fr / 2 ^ inc)) 0x7FFFFF = fr / 2 ^ inc - 2 ^ 23).
  { unfold wrap32. rewrite Z.mod_small by lia.
    change 0x7FFFFF with (Z.ones 23). rewrite Z.land_ones by lia.
    symmetry. apply Z.mod_unique with 1; lia. }
  rewrite Hland. reflexivity.
Qed.

(** The aligned sum: with [Y = A * 2 ^ d + B] the exact sum of the two
    mantissas in units of the smaller operand, the mantissa the code
    adds up is [Y / 2 ^ d]. *)
Lemma aligned_sum (w A B d : Z) :
  0 <= w -> 0 <= d -> 2 ^ w <= A < 2 ^ (w + 1) -> 2 ^ w <= B < 2 ^ (w + 1) ->
  let Y := A * 2 ^ d + B in
  Y / 2 ^ d = A + B / 2 ^ d /\ 0 <= B / 2 ^ d < 2 ^ (w + 1) /\
  2 ^ w <= Y / 2 ^ d < 2 ^ (w + 2) /\
  (w + 1 <= d -> B / 2 ^ d = 0) /\
  forall inc, 0 <= inc -> 2 ^ (w + inc) <= Y / 2 ^ d < 2 ^ (w + inc + 1) ->
              2 ^ (w + d + inc) <= Y < 2 ^ (w + d + inc + 1) /\
              Y / 2 ^ d / 2 ^ inc = Y / 2 ^ (d + inc).
Proof.
  intros Hw Hd HA HB Y.
  assert (Hpd : 0 < 2 ^ d) by (apply Z.pow_pos_nonneg; lia).
  assert (Hpw : 0 < 2 ^ w) by (apply Z.pow_pos_nonneg; lia).
  assert (Hw1 : 2 ^ (w + 1) = 2 * 2 ^ w)
    by (rewrite Z.pow_add_r by lia; change (2 ^ 1) with 2; lia).
  assert (Hw2 : 2 ^ (w + 2) = 4 * 2 ^ w)
    by (rewrite Z.pow_add_r by lia; change (2 ^ 2) with 4; lia).
  assert (HYd : Y / 2 ^ d = A + B / 2 ^ d).
  { subst Y. rewrite Z.div_add_l by lia. reflexivity. }
  assert (HBd : 0 <= B / 2 ^ d <= B).
  { split; [apply Z.div_pos; lia|]. apply Z.div_le_upper_bound; nia. }
  split; [exact HYd|]. split; [lia|]. split; [lia|]. split.
  - intros Hwd. apply Z.div_small. split; [lia|].
    apply Z.lt_le_trans with (2 ^ (w + 1)); [lia|]. apply Z.pow_le_mono_r; lia.
  - intros inc Hinc Hr.
    assert (Hpi : 0 < 2 ^ inc) by (apply Z.pow_pos_nonneg; lia).
    pose proof (Z.div_mod Y (2 ^ d) ltac:(lia)) as Hdm.
    pose proof (Z.mod_pos_bound Y (2 ^ d) ltac:(lia)) as Hmb.
    split.
    + replace (w + d + inc + 1) with (w + inc + 1 + d) by lia.
      replace (w + d + inc) with (w + inc + d) by lia.
      rewrite !(Z.pow_add_r _ _ d) by lia. nia.
    + rewrite Z.div_div by lia. rewrite <- Z.pow_add_r by lia. reflexivity.
Qed.

Lemma addsf3_ordered (a b : Z) :
  1 <= f32_exp a <= 254 -> 1 <= f32_exp b <= 254 ->
  f32_sign a = f32_sign b -> f32_exp b <= f32_exp a ->
  let d := f32_exp a - f32_exp b in
  let Y := (2 ^ 23 + f32_frac a) * 2 ^ d + (2 ^ 23 + f32_frac b) in
  exists r inc,
    __addsf3 a b = Some r /\ 0 <= inc <= 1 /\
    2 ^ (23 + d + inc) <= Y < 2 ^ (23 + d + inc + 1) /\
    f32_sign r = f32_sign a /\
    (255 <= f32_exp a + inc -> f32_is_inf r = true) /\
    (f32_exp a + inc < 255 ->
     f32_exp r = f32_exp a + inc /\ f32_frac r = Y / 2 ^ (d + inc) - 2 ^ 23).
Proof.
  intros Ha Hb Hs Hle d Y.
  pose proof (f32_frac_range a) as Hfa. pose proof (f32_frac_range b) as Hfb.
  set (A := 2 ^ 23 + f32_frac a) in *. set (B := 2 ^ 23 + f32_frac b) in *.
  destruct (aligned_sum 23 A B d) as (HYd & HBd & HYr & Hfar & Hinc);
    [lia|subst d; lia|change (2 ^ (23 + 1)) with (2 ^ 24); lia
    |change (2 ^ (23 + 1)) with (2 ^ 24); lia|].
  fold Y in HYd, HYr, Hinc.
  change (23 + 1) with 24 in *. change (2 ^ (23 + 2)) with (2 ^ 25) in HYr.
  rewrite addsf3_unfold. unfold f32_is_zero.
  rewrite (f32_mag_normal a), (f32_mag_normal b) by lia.
  destruct (Z.eqb_spec (f32_exp a) 0); [lia|].
  destruct (Z.eqb_spec (f32_exp b) 0); [lia|].
  rewrite !f32_implicit_bit. fold A B. unfold f32_align. cbv zeta. fold d.
  assert (Hs01 : 0 <= f32_sign a < 2) by (destruct (f32_sign_cases a); lia).
  destruct (Z.ltb_spec 24 d) as [Hfar'|Hnear].
  - (* the smaller operand is shifted out: the result is [a] *)
    destruct (Z.ltb_spec 0 d); [|lia].
    destruct (Hinc 0 ltac:(lia)) as [HY0 HM0];
      [rewrite HYd, Hfar by lia; change (23 + 0) with 23; change (23 + 0 + 1) with 24; lia|].
    exists a, 0. split; [reflexivity|]. split; [lia|]. split; [exact HY0|].
    split; [reflexivity|]. split; [lia|]. intros _. split; [lia|].
    rewrite <- HM0, HYd, Hfar by lia. change (2 ^ 0) with 1.
    rewrite Z.div_1_r. subst A. lia.
  - set (inc := if 2 ^ 24 <=? Y / 2 ^ d then 1 else 0).
    assert (Hi : 0 <= inc <= 1) by (subst inc; destruct (2 ^ 24 <=? Y / 2 ^ d); lia).
    assert (Hrange : 2 ^ (23 + inc) <= Y / 2 ^ d < 2 ^ (23 + inc + 1)).
    { subst inc. destruct (Z.leb_spec (2 ^ 24) (Y / 2 ^ d)); cbn; lia. }
    destruct (Hinc inc ltac:(lia) Hrange) as [HYi HMi].
    assert (Hrest :
      (if 0 <? d then inr (A, Z.shiftr B d, f32_exp a, f32_exp a)
       else if d <? 0 then
              (if 24 <? - d then inl b
               else inr (Z.shiftr A (- d), B, f32_exp b, f32_exp b))
            else inr (A, B, f32_exp a, f32_exp b))
      = (inr (A, B / 2 ^ d, f32_exp a, f32_exp a) : Z + Z * Z * Z * Z)).
    { destruct (Z.ltb_spec 0 d).
      - rewrite Z.shiftr_div_pow2 by lia. reflexivity.
      - assert (d = 0) by (subst d; lia).
        destruct (Z.ltb_spec d 0); [lia|].
        replace d with 0 by lia. change (2 ^ 0) with 1. rewrite Z.div_1_r.
        do 2 f_equal. lia. }
    rewrite Hrest, <- Hs.
    pose proof (f32_add_rest_same (f32_sign a) A (B / 2 ^ d) (f32_exp a)) as Hadd.
    cbv zeta in Hadd. rewrite <- HYd in Hadd. fold inc in Hadd.
    rewrite Hadd by lia. clear Hadd.
    eexists. exists inc. split; [reflexivity|]. split; [exact Hi|].
    split; [exact HYi|].
    destruct (Z.leb_spec 255 (f32_exp a + inc)) as [Hov|Hok].
    + destruct (f32_sign_cases a) as [-> | ->];
        (split; [reflexivity|]); (split; [reflexivity|lia]).
    + rewrite HMi.
      assert (HM : 2 ^ 23 <= Y / 2 ^ (d + inc) < 2 ^ 24).
      { rewrite <- HMi. subst inc.
        destruct (Z.leb_spec (2 ^ 24) (Y / 2 ^ d)).
        - split; [apply Z.div_le_lower_bound|apply Z.div_lt_upper_bound]; lia.
        - change (2 ^ 0) with 1. rewrite Z.div_1_r. lia. }
      destruct (f32_pack_fields (f32_sign a) (f32_exp a + inc)
                  (Y / 2 ^ (d + inc) - 2 ^ 23))
        as (Hsign & Hexp & Hfr); [lia..|].
      cbv zeta in Hsign, Hexp, Hfr.
      split; [exact Hsign|]. split; [lia|]. intros _. split; assumption.
Qed.

Lemma addsf3_same_sign_ordered (a b : Z) :
  1 <= f32_exp a <= 254 -> 1 <= f32_exp b <= 254 ->
  f32_sign a = f32_sign b -> f32_exp b <= f32_exp a ->
  exists r, __addsf3 a b = Some r /\ f32_sign r = f32_sign a /\
    (2 ^ 277 <= Z.abs (f32_scaled a + f32_scaled b) -> f32_is_inf r = true) /\
    (Z.abs (f32_scaled a + f32_scaled b) < 2 ^ 277 ->
     1 <= f32_exp r <= 254 /\
     f32_scaled r
     = Z.sgn (f32_scaled a + f32_scaled b)
       * keep_leading 24 (Z.abs (f32_scaled a + f32_scaled b))).
Proof.
  intros Ha Hb Hs Hle.
  destruct (addsf3_ordered a b Ha Hb Hs Hle)
    as (r & inc & Hr & Hi & HY & Hsign & Hov & Hok).
  cbv zeta in HY, Hok.
  pose proof (f32_frac_range a) as Hfa. pose proof (f32_frac_range b) as Hfb.
  set (d := f32_exp a - f32_exp b) in *.
  set (Y := (2 ^ 23 + f32_frac a) * 2 ^ d + (2 ^ 23 + f32_frac b)) in *.
  set (j := f32_exp b - 1).
  destruct (product_truncated 23 Y j (d + inc - 23)) as (Hkeep & _ & Hrange);
    [lia|subst j; lia|subst d; lia
    |replace (2 * 23 + (d + inc - 23)) with (23 + d + inc) by lia; exact HY|].
  replace (23 + (d + inc - 23)) with (d + inc) in Hkeep by lia.
  replace (2 * 23 + (d + inc - 23) + j) with (22 + f32_exp a + inc) in Hrange
    by (subst d j; lia).
  change (23 + 1) with 24 in Hkeep.
  assert (Hsum : f32_scaled a + f32_scaled b
                 = (if f32_sign a =? 0 then 1 else -1) * (Y * 2 ^ j)).
  { unfold f32_scaled. rewrite <- Hs.
    destruct (Z.eqb_spec (f32_exp a) 0); [lia|].
    destruct (Z.eqb_spec (f32_exp b) 0); [lia|].
    subst Y j. replace (f32_exp a - 1) with (d + (f32_exp b - 1)) by (subst d; lia).
    rewrite Z.pow_add_r by (subst d; lia). ring. }
  assert (Hpos : 0 < Y * 2 ^ j).
  { assert (0 < 2 ^ (22 + f32_exp a + inc)) by (apply Z.pow_pos_nonneg; lia). lia. }
  destruct (abs_sgn_signed (f32_sign a) (Y * 2 ^ j) Hpos) as [Habs Hsgn].
  rewrite <- Hsum in Habs, Hsgn. rewrite Habs, Hsgn. clear Habs Hsgn Hsum.
  exists r. split; [exact Hr|]. split; [exact Hsign|]. split.
  - intros Hbig. apply Hov.
    assert (277 < 22 + f32_exp a + inc + 1) by (apply pow2_lt_inv; lia). lia.
  - intros Hsmall.
    assert (22 + f32_exp a + inc < 277) by (apply pow2_lt_inv; lia).
    destruct (Hok ltac:(lia)) as [Hexp Hfr]. split; [lia|].
    unfold f32_scaled. rewrite Hsign, Hexp, Hfr, Hkeep.
    destruct (Z.eqb_spec (f32_exp a + inc) 0); [lia|].
    replace (2 ^ 23 + (Y / 2 ^ (d + inc) - 2 ^ 23)) with (Y / 2 ^ (d + inc)) by lia.
    replace (f32_exp a + inc - 1) with (d + inc + j) by (subst d j; lia).
    reflexivity.
Qed.

Lemma f32_normal_not_tiny (a b : Z) :
  1 <= f32_exp a -> f32_both_tiny a b = true -> a = b.
Proof.
  intros Ha H. unfold f32_both_tiny in H.
  destruct (Z.eqb_spec (f32_exp a) 0); [lia|discriminate].
Qed.

Lemma addsf3_same_sign_all (a b : Z) :
  1 <= f32_exp a <= 254 -> 1 <= f32_exp b <= 254 -> f32_sign a = f32_sign b ->
  exists r, __addsf3 a b = Some r /\ f32_sign r = f32_sign a /\
    (2 ^ 277 <= Z.abs (f32_scaled a + f32_scaled b) -> f32_is_inf r = true) /\
    (Z.abs (f32_scaled a + f32_scaled b) < 2 ^ 277 ->
     1 <= f32_exp r <= 254 /\
     f32_scaled r
     = Z.sgn (f32_scaled a + f32_scaled b)
       * keep_leading 24 (Z.abs (f32_scaled a + f32_scaled b))).
Proof.
  intros Ha Hb Hs.
  destruct (Z.le_gt_cases (f32_exp b) (f32_exp a)) as [Hle|Hgt].
  - exact (addsf3_same_sign_ordered a b Ha Hb Hs Hle).
  - destruct (addsf3_same_sign_ordered b a Hb Ha (eq_sym Hs) ltac:(lia))
      as (r & Hr & Hsign & Hov & Hok).
    destruct (addsf3_comm a b (f32_normal_not_tiny a b ltac:(lia)))
      as (r' & Hab & Hba).
    rewrite Hr in Hba. injection Hba as <-.
    rewrite (Z.add_comm (f32_scaled b)) in Hov, Hok.
    exists r. split; [exact Hab|]. split; [congruence|]. split; assumption.
Qed.

(** X20. [__addsf3] on two normal operands of one sign returns a result
    of that sign: an infinity when the exact sum has magnitude 2^128 or
    more, and otherwise the normal number that is the exact sum rounded
    toward zero to 24 significant binary digits.  (Values are over the
    denominator 2^149.) *)
Theorem addsf3_same_sign (a b : Z) :
  1 <= f32_exp a <= 254 -> 1 <= f32_exp b <= 254 -> f32_sign a = f32_sign b ->
  exists r, __addsf3 a b = Some r /\ f32_sign r = f32_sign a /\
    (2 ^ 277 <= Z.abs (f32_scaled a + f32_scaled b) -> f32_is_inf r = true) /\
    (Z.abs (f32_scaled a + f32_scaled b) < 2 ^ 277 ->
     1 <= f32_exp r <= 254 /\
     f32_scaled r
     = Z.sgn (f32_scaled a + f32_scaled b)
       * keep_leading 24 (Z.abs (f32_scaled a + f32_scaled b))).
Proof. exact (addsf3_same_sign_all a b). Qed.

Lemma addsf3_same_sign_witness :
  1 <= f32_exp 0x3FFFFFFF <= 254 /\ 1 <= f32_exp 0x41000001 <= 254 /\
  f32_sign 0x3FFFFFFF = f32_sign 0x41000001 /\
  exists r, __addsf3 0x3FFFFFFF 0x41000001 = Some r /\
    f32_sign r = f32_sign 0x3FFFFFFF /\
    (2 ^ 277 <= Z.abs (f32_scaled 0x3FFFFFFF + f32_scaled 0x41000001) ->
     f32_is_inf r = true) /\
    (Z.abs (f32_scaled 0x3FFFFFFF + f32_scaled 0x41000001) < 2 ^ 277 ->
     1 <= f32_exp r <= 254 /\
     f32_scaled r
     = Z.sgn (f32_scaled 0x3FFFFFFF + f32_scaled 0x41000001)
       * keep_leading 24 (Z.abs (f32_scaled 0x3FFFFFFF + f32_scaled 0x41000001))).
Proof.
  assert (H1 : 1 <= f32_exp 0x3FFFFFFF <= 254)
    by (change (f32_exp 0x3FFFFFFF) with 127; lia).
  assert (H2 : 1 <= f32_exp 0x41000001 <= 254)
    by (change (f32_exp 0x41000001) with 130; lia).
  split; [exact H1|]. split; [exact H2|]. split; [reflexivity|].
  exact (addsf3_same_sign 0x3FFFFFFF 0x41000001 H1 H2 eq_refl).
Defined.

Lemma f64_shift_down_once (fr er : Z) :
  2 ^ 52 <= fr < 2 ^ 54 ->
  f64_shift_down fr er
  = Some (if 2 ^ 53 <=? fr then (fr / 2 ^ 1, er + 1) else (fr, er)).
Proof.
  intros Hfr. unfold f64_shift_down. change (shl64 1 53) with (2 ^ 53).
  destruct (Z.leb_spec (2 ^ 53) fr) as [H|H].
  - change 64%nat with (S (S 62)). cbn [while fst snd].
    rewrite Z.shiftr_div_pow2 by lia.
    assert (fr / 2 ^ 1 < 2 ^ 53) by (apply Z.div_lt_upper_bound; lia).
    destruct (Z.leb_spec (2 ^ 53) fr); [|lia].
    destruct (Z.leb_spec (2 ^ 53) (fr / 2 ^ 1)); [lia|reflexivity].
  - change 64%nat with (S 63). cbn [while fst snd].
    destruct (Z.leb_spec (2 ^ 53) fr); [lia|reflexivity].
Qed.

Lemma f64_add_rest_same (s fa fb ea : Z) :
  2 ^ 52 <= fa + fb < 2 ^ 54 -> 1 <= ea <= 2046 ->
  let fr := fa + fb in
  let inc := if 2 ^ 53 <=? fr then 1 else 0 in
  f64_add_rest s s fa fb ea
  = Some (if 2047 <=? ea + inc
          then Z.lor (shl64 s 63) (shl64 0x7FF 52)
          else Z.lor (Z.lor (shl64 s 63) (shl64 (ea + inc) 52))
                     (fr / 2 ^ inc - 2 ^ 52)).
Proof.
  intros Hfr Hea fr inc. unfold f64_add_rest, bits_to_f64.
  rewrite Z.eqb_refl.
  replace (wrap64 (fa + fb)) with fr by (unfold wrap64; rewrite Z.mod_small; lia).
  destruct (Z.eqb_spec fr 0); [lia|].
  rewrite (f64_shift_down_once fr ea Hfr).
  assert (HM : 2 ^ 52 <= fr / 2 ^ inc < 2 ^ 53).
  { subst inc. destruct (Z.leb_spec (2 ^ 53) fr).
    - split; [apply Z.div_le_lower_bound|apply Z.div_lt_upper_bound]; lia.
    - change (2 ^ 0) with 1. rewrite Z.div_1_r. lia. }
  assert (Hpair : (if 2 ^ 53 <=? fr then (fr / 2 ^ 1, ea + 1) else (fr, ea))
                  = (fr / 2 ^ inc, ea + inc)).
  { subst inc. destruct (2 ^ 53 <=? fr); [reflexivity|].
    change (2 ^ 0) with 1. rewrite Z.div_1_r, Z.add_0_r. reflexivity. }
  rewrite Hpair. unfold f64_shift_up.
  rewrite (shift_up_none (shl64 1 52) _ _ (fun x => shl64 x 1))
    by (change (shl64 1 52) with (2 ^ 52); lia).
  destruct (Z.leb_spec 0x7FF (ea + inc)) as [H|H];
    destruct (Z.leb_spec 2047 (ea + inc)); try lia; [reflexivity|].
  destruct (Z.leb_spec (ea + inc) 0);
    [subst inc; destruct (2 ^ 53 <=? fr); lia|].
  assert (Hland : Z.land (fr / 2 ^ inc) 0xFFFFFFFFFFFFF = fr / 2 ^ inc - 2 ^ 52).
  { change 0xFFFFFFFFFFFFF with (Z.ones 52). rewrite Z.land_ones by lia.
    symmetry. apply Z.mod_unique with 1; lia. }
  rewrite Hland. reflexivity.
Qed.

Lemma adddf3_ordered (a b : Z) :
  1 <= f64_exp a <= 2046 -> 1 <= f64_exp b <= 2046 ->
  f64_sign a = f64_sign b -> f64_exp b <= f64_exp a ->
  let d := f64_exp a - f64_exp b in
  let Y := (2 ^ 52 + f64_frac a) * 2 ^ d + (2 ^ 52 + f64_frac b) in
  exists r inc,
    __adddf3 a b = Some r /\ 0 <= inc <= 1 /\
    2 ^ (52 + d + inc) <= Y < 2 ^ (52 + d + inc + 1) /\
    f64_sign r = f64_sign a /\
    (2047 <= f64_exp a + inc -> f64_is_inf r = true) /\
    (f64_exp a + inc < 2047 ->
     f64_exp r = f64_exp a + inc /\ f64_frac r = Y / 2 ^ (d + inc) - 2 ^ 52).
Proof.
  intros Ha Hb Hs Hle d Y.
  pose proof (f64_frac_range a) as Hfa. pose proof (f64_frac_range b) as Hfb.
  set (A := 2 ^ 52 + f64_frac a) in *. set (B := 2 ^ 52 + f64_frac b) in *.
  destruct (aligned_sum 52 A B d) as (HYd & HBd & HYr & Hfar & Hinc);
    [lia|subst d; lia|change (2 ^ (52 + 1)) with (2 ^ 53); lia
    |change (2 ^ (52 + 1)) with (2 ^ 53); lia|].
  fold Y in HYd, HYr, Hinc.
  change (52 + 1) with 53 in *. change (2 ^ (52 + 2)) with (2 ^ 54) in HYr.
  rewrite adddf3_unfold. unfold f64_is_zero.
  rewrite (f64_mag_normal a), (f64_mag_normal b) by lia.
  destruct (Z.eqb_spec (f64_exp a) 0); [lia|].
  destruct (Z.eqb_spec (f64_exp b) 0); [lia|].
  destruct (Z.eqb_spec (f64_exp a) 0x7FF); [lia|].
  destruct (Z.eqb_spec (f64_exp b) 0x7FF); [lia|].
  rewrite !f64_implicit_bit. fold A B. unfold f64_align. cbv zeta. fold d.
  assert (Hs01 : 0 <= f64_sign a < 2) by (destruct (f64_sign_cases a); lia).
  destruct (Z.ltb_spec 60 d) as [Hfar'|Hnear].
  - destruct (Z.ltb_spec 0 d); [|lia].
    destruct (Hinc 0 ltac:(lia)) as [HY0 HM0];
      [rewrite HYd, Hfar by lia; change (52 + 0) with 52; change (52 + 0 + 1) with 53; lia|].
    exists a, 0. split; [reflexivity|]. split; [lia|]. split; [exact HY0|].
    split; [reflexivity|]. split; [lia|]. intros _. split; [lia|].
    rewrite <- HM0, HYd, Hfar by lia. change (2 ^ 0) with 1.
    rewrite Z.div_1_r. subst A. lia.
  - set (inc := if 2 ^ 53 <=? Y / 2 ^ d then 1 else 0).
    assert (Hi : 0 <= inc <= 1) by (subst inc; destruct (2 ^ 53 <=? Y / 2 ^ d); lia).
    assert (Hrange : 2 ^ (52 + inc) <= Y / 2 ^ d < 2 ^ (52 + inc + 1)).
    { subst inc. destruct (Z.leb_spec (2 ^ 53) (Y / 2 ^ d)); cbn; lia. }
    destruct (Hinc inc ltac:(lia) Hrange) as [HYi HMi].
    assert (Hrest :
      (if 0 <? d then inr (A, Z.shiftr B d, f64_exp a, f64_exp a)
       else if d <? 0 then
              (if 60 <? - d then inl b
               else inr (Z.shiftr A (- d), B, f64_exp b, f64_exp b))
            else inr (A, B, f64_exp a, f64_exp b))
      = (inr (A, B / 2 ^ d, f64_exp a, f64_exp a) : Z + Z * Z * Z * Z)).
    { destruct (Z.ltb_spec 0 d).
      - rewrite Z.shiftr_div_pow2 by lia. reflexivity.
      - assert (d = 0) by (subst d; lia).
        destruct (Z.ltb_spec d 0); [lia|].
        replace d with 0 by lia. change (2 ^ 0) with 1. rewrite Z.div_1_r.
        do 2 f_equal. lia. }
    rewrite Hrest, <- Hs.
    pose proof (f64_add_rest_same (f64_sign a) A (B / 2 ^ d) (f64_exp a)) as Hadd.
    cbv zeta in Hadd. rewrite <- HYd in Hadd. fold inc in Hadd.
    rewrite Hadd by lia. clear Hadd.
    eexists. exists inc. split; [reflexivity|]. split; [exact Hi|].
    split; [exact HYi|].
    destruct (Z.leb_spec 2047 (f64_exp a + inc)) as [Hov|Hok].
    + destruct (f64_sign_cases a) as [-> | ->];
        (split; [reflexivity|]); (split; [reflexivity|lia]).
    + rewrite HMi.
      assert (HM : 2 ^ 52 <= Y / 2 ^ (d + inc) < 2 ^ 53).
      { rewrite <- HMi. subst inc.
        destruct (Z.leb_spec (2 ^ 53) (Y / 2 ^ d)).
        - split; [apply Z.div_le_lower_bound|apply Z.div_lt_upper_bound]; lia.
        - change (2 ^ 0) with 1. rewrite Z.div_1_r. lia. }
      destruct (f64_pack_fields (f64_sign a) (f64_exp a + inc)
                  (Y / 2 ^ (d + inc) - 2 ^ 52))
        as (Hsign & Hexp & Hfr); [lia..|].
      cbv zeta in Hsign, Hexp, Hfr.
      split; [exact Hsign|]. split; [lia|]. intros _. split; assumption.
Qed.

Lemma adddf3_same_sign_ordered (a b : Z) :
  1 <= f64_exp a <= 2046 -> 1 <= f64_exp b <= 2046 ->
  f64_sign a = f64_sign b -> f64_exp b <= f64_exp a ->
  exists r, __adddf3 a b = Some r /\ f64_sign r = f64_sign a /\
    (2 ^ 2098 <= Z.abs (f64_scaled a + f64_scaled b) -> f64_is_inf r = true) /\
    (Z.abs (f64_scaled a + f64_scaled b) < 2 ^ 2098 ->
     1 <= f64_exp r <= 2046 /\
     f64_scaled r
     = Z.sgn (f64_scaled a + f64_scaled b)
       * keep_leading 53 (Z.abs (f64_scaled a + f64_scaled b))).
Proof.
  intros Ha Hb Hs Hle.
  destruct (adddf3_ordered a b Ha Hb Hs Hle)
    as (r & inc & Hr & Hi & HY & Hsign & Hov & Hok).
  cbv zeta in HY, Hok.
  pose proof (f64_frac_range a) as Hfa. pose proof (f64_frac_range b) as Hfb.
  set (d := f64_exp a - f64_exp b) in *.
  set (Y := (2 ^ 52 + f64_frac a) * 2 ^ d + (2 ^ 52 + f64_frac b)) in *.
  set (j := f64_exp b - 1).
  destruct (product_truncated 52 Y j (d + inc - 52)) as (Hkeep & _ & Hrange);
    [lia|subst j; lia|subst d; lia
    |replace (2 * 52 + (d + inc - 52)) with (52 + d + inc) by lia; exact HY|].
  replace (52 + (d + inc - 52)) with (d + inc) in Hkeep by lia.
  replace (2 * 52 + (d + inc - 52) + j) with (51 + f64_exp a + inc) in Hrange
    by (subst d j; lia).
  change (52 + 1) with 53 in Hkeep.
  assert (Hsum : f64_scaled a + f64_scaled b
                 = (if f64_sign a =? 0 then 1 else -1) * (Y * 2 ^ j)).
  { unfold f64_scaled. rewrite <- Hs.
    destruct (Z.eqb_spec (f64_exp a) 0); [lia|].
    destruct (Z.eqb_spec (f64_exp b) 0); [lia|].
    subst Y j. replace (f64_exp a - 1) with (d + (f64_exp b - 1)) by (subst d; lia).
    rewrite Z.pow_add_r by (subst d; lia). ring. }
  assert (Hpos : 0 < Y * 2 ^ j).
  { assert (0 < 2 ^ (51 + f64_exp a + inc)) by (apply Z.pow_pos_nonneg; lia). lia. }
  destruct (abs_sgn_signed (f64_sign a) (Y * 2 ^ j) Hpos) as [Habs Hsgn].
  rewrite <- Hsum in Habs, Hsgn. rewrite Habs, Hsgn. clear Habs Hsgn Hsum.
  exists r. split; [exact Hr|]. split; [exact Hsign|]. split.
  - intros Hbig. apply Hov.
    assert (2098 < 51 + f64_exp a + inc + 1) by (apply pow2_lt_inv; lia). lia.
  - intros Hsmall.
    assert (51 + f64_exp a + inc < 2098) by (apply pow2_lt_inv; lia).
    destruct (Hok ltac:(lia)) as [Hexp Hfr]. split; [lia|].
    unfold f64_scaled. rewrite Hsign, Hexp, Hfr, Hkeep.
    destruct (Z.eqb_spec (f64_exp a + inc) 0); [lia|].
    replace (2 ^ 52 + (Y / 2 ^ (d + inc) - 2 ^ 52)) with (Y / 2 ^ (d + inc)) by lia.
    replace (f64_exp a + inc - 1) with (d + inc + j) by (subst d j; lia).
    reflexivity.
Qed.

Lemma f64_normal_not_tiny (a b : Z) :
  1 <= f64_exp a -> f64_both_tiny a b = true -> a = b.
Proof.
  intros Ha H. unfold f64_both_tiny in H.
  destruct (Z.eqb_spec (f64_exp a) 0); [lia|discriminate].
Qed.

Lemma adddf3_same_sign_all (a b : Z) :
  1 <= f64_exp a <= 2046 -> 1 <= f64_exp b <= 2046 -> f64_sign a = f64_sign b ->
  exists r, __adddf3 a b = Some r /\ f64_sign r = f64_sign a /\
    (2 ^ 2098 <= Z.abs (f64_scaled a + f64_scaled b) -> f64_is_inf r = true) /\
    (Z.abs (f64_scaled a + f64_scaled b) < 2 ^ 2098 ->
     1 <= f64_exp r <= 2046 /\
     f64_scaled r
     = Z.sgn (f64_scaled a + f64_scaled b)
       * keep_leading 53 (Z.abs (f64_scaled a + f64_scaled b))).
Proof.
  intros Ha Hb Hs.
  destruct (Z.le_gt_cases (f64_exp b) (f64_exp a)) as [Hle|Hgt].
  - exact (adddf3_same_sign_ordered a b Ha Hb Hs Hle).
  - destruct (adddf3_same_sign_ordered b a Hb Ha (eq_sym Hs) ltac:(lia))
      as (r & Hr & Hsign & Hov & Hok).
    destruct (adddf3_comm a b (f64_finite_of_exp a ltac:(lia))
                (f64_finite_of_exp b ltac:(lia))
                (f64_normal_not_tiny a b ltac:(lia)))
      as (r' & Hab & Hba).
    rewrite Hr in Hba. injection Hba as <-.
    rewrite (Z.add_comm (f64_scaled b)) in Hov, Hok.
    exists r. split; [exact Hab|]. split; [congruence|]. split; assumption.
Qed.

(** X21. [__adddf3] on two normal operands of one sign returns a result
    of that sign: an infinity when the exact sum has magnitude 2^1024
    or more, and otherwise the normal number that is the exact sum
    rounded toward zero to 53 significant binary digits.  (Values are
    over the denominator 2^1074.) *)
Theorem adddf3_same_sign (a b : Z) :
  1 <= f64_exp a <= 2046 -> 1 <= f64_exp b <= 2046 -> f64_sign a = f64_sign b ->
  exists r, __adddf3 a b = Some r /\ f64_sign r = f64_sign a /\
    (2 ^ 2098 <= Z.abs (f64_scaled a + f64_scaled b) -> f64_is_inf r = true) /\
    (Z.abs (f64_scaled a + f64_scaled b) < 2 ^ 2098 ->
     1 <= f64_exp r <= 2046 /\
     f64_scaled r
     = Z.sgn (f64_scaled a + f64_scaled b)
       * keep_leading 53 (Z.abs (f64_scaled a + f64_scaled b))).
Proof. exact (adddf3_same_sign_all a b). Qed.

Lemma adddf3_same_sign_witness :
  1 <= f64_exp 0x3FFFFFFFFFFFFFFF <= 2046 /\
  1 <= f64_exp 0x4020000000000001 <= 2046 /\
  f64_sign 0x3FFFFFFFFFFFFFFF = f64_sign 0x4020000000000001 /\
  exists r, __adddf3 0x3FFFFFFFFFFFFFFF 0x4020000000000001 = Some r /\
    f64_sign r = f64_sign 0x3FFFFFFFFFFFFFFF /\
    (2 ^ 2098
     <= Z.abs (f64_scaled 0x3FFFFFFFFFFFFFFF + f64_scaled 0x4020000000000001) ->
     f64_is_inf r = true) /\
    (Z.abs (f64_scaled 0x3FFFFFFFFFFFFFFF + f64_scaled 0x4020000000000001)
     < 2 ^ 2098 ->
     1 <= f64_exp r <= 2046 /\
     f64_scaled r
     = Z.sgn (f64_scaled 0x3FFFFFFFFFFFFFFF + f64_scaled 0x4020000000000001)
       * keep_leading 53
           (Z.abs (f64_scaled 0x3FFFFFFFFFFFFFFF + f64_scaled 0x4020000000000001))).
Proof.
  assert (H1 : 1 <= f64_exp 0x3FFFFFFFFFFFFFFF <= 2046)
    by (change (f64_exp 0x3FFFFFFFFFFFFFFF) with 1023; lia).
  assert (H2 : 1 <= f64_exp 0x4020000000000001 <= 2046)
    by (change (f64_exp 0x4020000000000001) with 1026; lia).
  split; [exact H1|]. split; [exact H2|]. split; [reflexivity|].
  exact (adddf3_same_sign 0x3FFFFFFFFFFFFFFF 0x4020000000000001 H1 H2 eq_refl).
Defined.

(** *** Negation and subtraction *)

(** A field below bit [n] does not see a flip of bit [n]. *)
Lemma field_ignores_flip (a n lo mask w : Z) :
  0 <= lo -> 0 <= w -> lo + w <= n -> 0 <= mask < 2 ^ w ->
  Z.land (Z.shiftr (Z.lxor a (2 ^ n)) lo) mask = Z.land (Z.shiftr a lo) mask.
Proof.
  intros Hlo Hw Hn Hmask. apply Z.bits_inj'. intros i Hi.
  rewrite !Z.land_spec, !Z.shiftr_spec, Z.lxor_spec by lia.
  destruct (Z.lt_ge_cases i w).
  - rewrite Z.pow2_bits_false by lia. rewrite Bool.xorb_false_r. reflexivity.
  - rewrite (testbit_high mask w i) by lia. rewrite !Bool.andb_false_r. reflexivity.
Qed.

Lemma f32_negated_fields (a : Z) :
  f32_sign (Z.lxor a 0x80000000) = 1 - f32_sign a /\
  f32_exp (Z.lxor a 0x80000000) = f32_exp a /\
  f32_frac (Z.lxor a 0x80000000) = f32_frac a.
Proof.
  unfold f32_sign, f32_exp, f32_frac. split; [|split].
  - rewrite !sign_of_testbit by lia. rewrite Z.lxor_spec.
    change (Z.testbit 0x80000000 31) with true.
    destruct (Z.testbit a 31); reflexivity.
  - exact (field_ignores_flip a 31 23 0xFF 8 ltac:(lia) ltac:(lia) ltac:(lia)
             ltac:(lia)).
  - pose proof (field_ignores_flip a 31 0 0x7FFFFF 23 ltac:(lia) ltac:(lia)
                  ltac:(lia) ltac:(lia)) as H.
    rewrite !Z.shiftr_0_r in H. exact H.
Qed.

Lemma f64_negated_fields (a : Z) :
  f64_sign (Z.lxor a (shl64 1 63)) = 1 - f64_sign a /\
  f64_exp (Z.lxor a (shl64 1 63)) = f64_exp a /\
  f64_frac (Z.lxor a (shl64 1 63)) = f64_frac a.
Proof.
  change (shl64 1 63) with 0x8000000000000000.
  unfold f64_sign, f64_exp, f64_frac. split; [|split].
  - rewrite !sign_of_testbit by lia. rewrite Z.lxor_spec.
    change (Z.testbit 0x8000000000000000 63) with true.
    destruct (Z.testbit a 63); reflexivity.
  - exact (field_ignores_flip a 63 52 0x7FF 11 ltac:(lia) ltac:(lia) ltac:(lia)
             ltac:(lia)).
  - pose proof (field_ignores_flip a 63 0 0xFFFFFFFFFFFFF 52 ltac:(lia) ltac:(lia)
                  ltac:(lia) ltac:(lia)) as H.
    rewrite !Z.shiftr_0_r in H. exact H.
Qed.

Lemma f32_negated_scaled (a : Z) :
  f32_scaled (Z.lxor a 0x80000000) = - f32_scaled a.
Proof.
  unfold f32_scaled. destruct (f32_negated_fields a) as (-> & -> & ->).
  set (X := if f32_exp a =? 0 then _ else _). clearbody X.
  destruct (f32_sign_cases a) as [-> | ->].
  - change (1 - 0 =? 0) with false. change (0 =? 0) with true. cbv iota. lia.
  - change (1 - 1 =? 0) with true. change (1 =? 0) with false. cbv iota. lia.
Qed.

Lemma f64_negated_scaled (a : Z) :
  f64_scaled (Z.lxor a (shl64 1 63)) = - f64_scaled a.
Proof.
  unfold f64_scaled. destruct (f64_negated_fields a) as (-> & -> & ->).
  set (X := if f64_exp a =? 0 then _ else _). clearbody X.
  destruct (f64_sign_cases a) as [-> | ->].
  - change (1 - 0 =? 0) with false. change (0 =? 0) with true. cbv iota. lia.
  - change (1 - 1 =? 0) with true. change (1 =? 0) with false. cbv iota. lia.
Qed.

(** X22. [__negsf2] and [__negdf2] negate the value exactly (a zero
    becomes the other zero, an infinity the other infinity), and
    negating twice gives the pattern back. *)
Theorem negation_exact (a x : Z) :
  f32_scaled (__negsf2 a) = - f32_scaled a /\ __negsf2 (__negsf2 a) = a /\
  f32_exp (__negsf2 a) = f32_exp a /\ f32_frac (__negsf2 a) = f32_frac a /\
  f64_scaled (__negdf2 x) = - f64_scaled x /\ __negdf2 (__negdf2 x) = x /\
  f64_exp (__negdf2 x) = f64_exp x /\ f64_frac (__negdf2 x) = f64_frac x.
Proof.
  unfold __negsf2, __negdf2, f32_to_bits, bits_to_f32, f64_to_bits, bits_to_f64.
  destruct (f32_negated_fields a) as (_ & He & Hf).
  destruct (f64_negated_fields x) as (_ & He' & Hf').
  rewrite !lxor_twice, f32_negated_scaled, f64_negated_scaled. auto 8.
Qed.

Lemma subsf3_opposite (a b : Z) :
  1 <= f32_exp a <= 254 -> 1 <= f32_exp b <= 254 -> f32_sign a <> f32_sign b ->
  exists r, __subsf3 a b = Some r /\ f32_sign r = f32_sign a /\
    (2 ^ 277 <= Z.abs (f32_scaled a - f32_scaled b) -> f32_is_inf r = true) /\
    (Z.abs (f32_scaled a - f32_scaled b) < 2 ^ 277 ->
     1 <= f32_exp r <= 254 /\
     f32_scaled r
     = Z.sgn (f32_scaled a - f32_scaled b)
       * keep_leading 24 (Z.abs (f32_scaled a - f32_scaled b))).
Proof.
  intros Ha Hb Hs. unfold __subsf3, f32_to_bits, bits_to_f32.
  destruct (f32_negated_fields b) as (Hsign & Hexp & _).
  pose proof (f32_negated_scaled b) as Hsc.
  set (b' := Z.lxor b 0x80000000) in *.
  replace (f32_scaled a - f32_scaled b) with (f32_scaled a + f32_scaled b') by lia.
  apply addsf3_same_sign_all; [exact Ha|rewrite Hexp; exact Hb|].
  rewrite Hsign. destruct (f32_sign_cases a), (f32_sign_cases b); lia.
Qed.

Lemma subdf3_opposite (a b : Z) :
  1 <= f64_exp a <= 2046 -> 1 <= f64_exp b <= 2046 -> f64_sign a <> f64_sign b ->
  exists r, __subdf3 a b = Some r /\ f64_sign r = f64_sign a /\
    (2 ^ 2098 <= Z.abs (f64_scaled a - f64_scaled b) -> f64_is_inf r = true) /\
    (Z.abs (f64_scaled a - f64_scaled b) < 2 ^ 2098 ->
     1 <= f64_exp r <= 2046 /\
     f64_scaled r
     = Z.sgn (f64_scaled a - f64_scaled b)
       * keep_leading 53 (Z.abs (f64_scaled a - f64_scaled b))).
Proof.
  intros Ha Hb Hs. unfold __subdf3, f64_to_bits, bits_to_f64.
  destruct (f64_negated_fields b) as (Hsign & Hexp & _).
  pose proof (f64_negated_scaled b) as Hsc.
  set (b' := Z.lxor b (shl64 1 63)) in *.
  replace (f64_scaled a - f64_scaled b) with (f64_scaled a + f64_scaled b') by lia.
  apply adddf3_same_sign_all; [exact Ha|rewrite Hexp; exact Hb|].
  rewrite Hsign. destruct (f64_sign_cases a), (f64_sign_cases b); lia.
Qed.

(** X23. [__subsf3] and [__subdf3] on two normal operands of opposite
    signs return a result of the sign of the first operand: an infinity
    when the exact difference has magnitude 2^128 (2^1024) or more, and
    otherwise the normal number that is the exact difference rounded
    toward zero to 24 (53) significant binary digits. *)
Theorem subtraction_opposite_signs (a b x y : Z) :
  1 <= f32_exp a <= 254 -> 1 <= f32_exp b <= 254 -> f32_sign a <> f32_sign b ->
  1 <= f64_exp x <= 2046 -> 1 <= f64_exp y <= 2046 -> f64_sign x <> f64_sign y ->
  (exists r, __subsf3 a b = Some r /\ f32_sign r = f32_sign a /\
     (2 ^ 277 <= Z.abs (f32_scaled a - f32_scaled b) -> f32_is_inf r = true) /\
     (Z.abs (f32_scaled a - f32_scaled b) < 2 ^ 277 ->
      1 <= f32_exp r <= 254 /\
      f32_scaled r
      = Z.sgn (f32_scaled a - f32_scaled b)
        * keep_leading 24 (Z.abs (f32_scaled a - f32_scaled b)))) /\
  (exists r, __subdf3 x y = Some r /\ f64_sign r = f64_sign x /\
     (2 ^ 2098 <= Z.abs (f64_scaled x - f64_scaled y) -> f64_is_inf r = true) /\
     (Z.abs (f64_scaled x - f64_scaled y) < 2 ^ 2098 ->
      1 <= f64_exp r <= 2046 /\
      f64_scaled r
      = Z.sgn (f64_scaled x - f64_scaled y)
        * keep_leading 53 (Z.abs (f64_scaled x - f64_scaled y)))).
Proof.
  intros Ha Hb Hs Hx Hy Hs'. split.
  - exact (subsf3_opposite a b Ha Hb Hs).
  - exact (subdf3_opposite x y Hx Hy Hs').
Qed.

Lemma subtraction_opposite_signs_witness :
  1 <= f32_exp 0x3FFFFFFF <= 254 /\ 1 <= f32_exp 0xC1000001 <= 254 /\
  f32_sign 0x3FFFFFFF <> f32_sign 0xC1000001 /\
  1 <= f64_exp 0xBFFFFFFFFFFFFFFF <= 2046 /\
  1 <= f64_exp 0x4020000000000001 <= 2046 /\
  f64_sign 0xBFFFFFFFFFFFFFFF <> f64_sign 0x4020000000000001 /\
  (exists r, __subsf3 0x3FFFFFFF 0xC1000001 = Some r /\
     f32_sign r = f32_sign 0x3FFFFFFF /\
     (2 ^ 277 <= Z.abs (f32_scaled 0x3FFFFFFF - f32_scaled 0xC1000001) ->
      f32_is_inf r = true) /\
     (Z.abs (f32_scaled 0x3FFFFFFF - f32_scaled 0xC1000001) < 2 ^ 277 ->
      1 <= f32_exp r <= 254 /\
      f32_scaled r
      = Z.sgn (f32_scaled 0x3FFFFFFF - f32_scaled 0xC1000001)
        * keep_leading 24 (Z.abs (f32_scaled 0x3FFFFFFF - f32_scaled 0xC1000001)))) /\
  (exists r, __subdf3 0xBFFFFFFFFFFFFFFF 0x4020000000000001 = Some r /\
     f64_sign r = f64_sign 0xBFFFFFFFFFFFFFFF /\
     (2 ^ 2098
      <= Z.abs (f64_scaled 0xBFFFFFFFFFFFFFFF - f64_scaled 0x4020000000000001) ->
      f64_is_inf r = true) /\
     (Z.abs (f64_scaled 0xBFFFFFFFFFFFFFFF - f64_scaled 0x4020000000000001)
      < 2 ^ 2098 ->
      1 <= f64_exp r <= 2046 /\
      f64_scaled r
      = Z.sgn (f64_scaled 0xBFFFFFFFFFFFFFFF - f64_scaled 0x4020000000000001)
        * keep_leading 53
            (Z.abs (f64_scaled 0xBFFFFFFFFFFFFFFF
                    - f64_scaled 0x4020000000000001)))).
Proof.
  assert (H1 : 1 <= f32_exp 0x3FFFFFFF <= 254)
    by (change (f32_exp 0x3FFFFFFF) with 127; lia).
  assert (H2 : 1 <= f32_exp 0xC1000001 <= 254)
    by (change (f32_exp 0xC1000001) with 130; lia).
  assert (H3 : f32_sign 0x3FFFFFFF <> f32_sign 0xC1000001)
    by (change (f32_sign 0x3FFFFFFF) with 0; change (f32_sign 0xC1000001) with 1; lia).
  assert (H4 : 1 <= f64_exp 0xBFFFFFFFFFFFFFFF <= 2046)
    by (change (f64_exp 0xBFFFFFFFFFFFFFFF) with 1023; lia).
  assert (H5 : 1 <= f64_exp 0x4020000000000001 <= 2046)
    by (change (f64_exp 0x4020000000000001) with 1026; lia).
  assert (H6 : f64_sign 0xBFFFFFFFFFFFFFFF <> f64_sign 0x4020000000000001)
    by (change (f64_sign 0xBFFFFFFFFFFFFFFF) with 1;
        change (f64_sign 0x4020000000000001) with 0; lia).
  split; [exact H1|]. split; [exact H2|]. split; [exact H3|]. split; [exact H4|].
  split; [exact H5|]. split; [exact H6|].
  exact (subtraction_opposite_signs 0x3FFFFFFF 0xC1000001 0xBFFFFFFFFFFFFFFF
           0x4020000000000001 H1 H2 H3 H4 H5 H6).
Defined.

End SoftFloatExtra.

(** ** Further properties of the allocator and the memory helpers *)

Module AllocExtra.
Import Alloc AllocFacts.

(** *** Capacity *)

Lemma chain_granted_nonneg c h tr hf : chain c h tr hf -> 0 <= granted tr.
Proof.
  induction 1 as [|h a tr hf _ Hstep _ IH]; cbn [granted fold_right]; [lia|].
  fold (granted tr). pose proof (st_size _ _ _ _ _ Hstep) as Hsz. unfold NULL in *.
  destruct (Z.eqb_spec (a_ptr a) 0); [lia|]. specialize (Hsz ltac:(assumption)). lia.
Qed.

Lemma chain_within_capacity c h tr hf :
  well_formed c -> ready c h -> used c h = 0 -> chain c h tr hf ->
  0 <= granted tr <= capacity c.
Proof.
  intros WF Hr Hu Hch. split; [exact (chain_granted_nonneg _ _ _ _ Hch)|].
  pose proof (chain_used c _ _ _ Hch) as Hused. rewrite Hu in Hused.
  destruct (chain_ready c _ _ _ Hr Hch) as [HI|[Hc ->]].
  - pose proof (used_le_capacity c WF hf HI). lia.
  - change (used c heap_at_start) with 0 in Hused.
    destruct WF as (? & ? & ? & ? & ?). unfold capacity. nia.
Qed.

(** X24. The allocator never hands out more than it was given: in every
    run on a configuration that fits the address encoding, as on the
    default configuration, the rounded sizes of the calls that returned
    an address add up to at most the configured capacity (segment count
    times segment size, less the first offset). *)
Theorem granted_within_capacity (c : config) (h : heap) (sizes : list Z) :
  well_formed c -> Forall request_ok sizes ->
  (exists tr hf,
     (configure c ;;; fb_malloc_seq sizes) h = Done tr hf /\
     0 <= granted tr <= capacity c) /\
  (exists tr hf,
     fb_malloc_seq sizes heap_at_start = Done tr hf /\
     0 <= granted tr <= capacity default_config).
Proof.
  intros WF Hs. split.
  - destruct (run_spec c WF h sizes Hs) as (h0 & tr & hf & Hc & HI & Hrun & Hch).
    exists tr, hf. split; [exact Hrun|].
    apply (chain_within_capacity c h0 tr hf WF); [left; exact HI| |exact Hch].
    exact (used_configured c WF h h0 Hc).
  - destruct (default_run_spec sizes Hs) as (tr & hf & Hrun & Hch).
    exists tr, hf. split; [exact Hrun|].
    apply (chain_within_capacity default_config heap_at_start tr hf
             default_config_well_formed); [right; split; reflexivity| |exact Hch].
    reflexivity.
Qed.

Lemma granted_within_capacity_witness :
  well_formed two_small_segments /\ Forall request_ok [48; 16; 64; 1] /\
  (exists tr hf,
     (configure two_small_segments ;;; fb_malloc_seq [48; 16; 64; 1]) heap_at_start
     = Done tr hf /\
     0 <= granted tr <= capacity two_small_segments) /\
  (exists tr hf,
     fb_malloc_seq [48; 16; 64; 1] heap_at_start = Done tr hf /\
     0 <= granted tr <= capacity default_config).
Proof.
  assert (H1 : well_formed two_small_segments) by (unfold well_formed; cbn; lia).
  assert (H2 : Forall request_ok [48; 16; 64; 1])
    by (repeat constructor; unfold request_ok, max_request; lia).
  split; [exact H1|]. split; [exact H2|].
  exact (granted_within_capacity two_small_segments heap_at_start [48; 16; 64; 1] H1 H2).
Defined.

(** *** Alignment *)

Section Aligned.

Variable c : config.
Hypothesis WF : well_formed c.
Hypothesis Hoff : cfg_offset c mod 8 = 0.

Lemma segment_base_aligned k : 0 <= k < cfg_count c -> segment_base c k mod 8 = 0.
Proof.
  intros Hk. rewrite (segment_base_eq c WF k Hk). unfold segment_offset.
  change (2 ^ 28) with (2 ^ 25 * 8). rewrite Z.mul_assoc.
  rewrite Z.add_comm, Z.mod_add by lia.
  destruct (k =? 0); [exact Hoff|reflexivity].
Qed.

Lemma retry_aligned size fuel : forall h,
  Inv c h -> fb_heap_ptr h mod 8 = 0 ->
  8 <= size <= max_request -> size mod 8 = 0 ->
  cfg_count c - 1 - fb_heap_segment_index h <= Z.of_nat fuel ->
  exists p h', fb_malloc_retry fuel size h = Done p h' /\
               Inv c h' /\ fb_heap_ptr h' mod 8 = 0 /\ p mod 8 = 0.
Proof.
  assert (Hbump : forall h, Inv c h -> fb_heap_ptr h mod 8 = 0 ->
            8 <= size <= max_request -> size mod 8 = 0 ->
            fb_heap_ptr h + size <= fb_heap_end h ->
            exists p h', Done (fb_heap_ptr h)
                           (set_bounds (fb_heap_ptr h + size) (fb_heap_end h) h)
                         = Done p h' /\
                         Inv c h' /\ fb_heap_ptr h' mod 8 = 0 /\ p mod 8 = 0).
  { intros h HI Ha Hs Hm Hfit. do 2 eexists. split; [reflexivity|].
    split; [apply Inv_bump; assumption || lia|]. split; [|exact Ha].
    cbn [fb_heap_ptr set_bounds]. rewrite Z.add_mod, Ha, Hm by lia. reflexivity. }
  induction fuel as [|fuel IH]; intros h HI Ha Hs Hm Hfuel; pose proof HI as [].
  - destruct (Z.le_gt_cases (fb_heap_ptr h + size) (fb_heap_end h)) as [Hfit|Hfit].
    + rewrite (retry_fits c WF) by (assumption || lia). apply Hbump; assumption.
    + rewrite (retry_exhausted c WF) by (assumption || lia).
      exists NULL, h.
        split; [reflexivity|]. split; [exact HI|]. split; [exact Ha|reflexivity].
  - destruct (Z.le_gt_cases (fb_heap_ptr h + size) (fb_heap_end h)) as [Hfit|Hfit].
    + rewrite (retry_fits c WF) by (assumption || lia). apply Hbump; assumption.
    + destruct (Z.eq_dec (fb_heap_segment_index h + 1) (cfg_count c)) as [Hk|Hk].
      * rewrite (retry_exhausted c WF) by (assumption || lia).
        exists NULL, h.
        split; [reflexivity|]. split; [exact HI|]. split; [exact Ha|reflexivity].
      * assert (Hlt : fb_heap_segment_index h + 1 < cfg_count c) by lia.
        rewrite (retry_advance c WF) by (assumption || lia).
        apply IH; try assumption.
        -- apply (Inv_next_segment c WF); assumption.
        -- cbn. apply segment_base_aligned. lia.
        -- cbn. lia.
Qed.

Lemma fb_malloc_aligned size h :
  Inv c h -> fb_heap_ptr h mod 8 = 0 -> request_ok size ->
  exists p h', fb_malloc size h = Done p h' /\
               Inv c h' /\ fb_heap_ptr h' mod 8 = 0 /\ p mod 8 = 0.
Proof.
  intros HI Ha Hs. destruct (Z.eq_dec size 0) as [->|Hnz].
  - exists NULL, h.
    split; [reflexivity|]. split; [exact HI|]. split; [exact Ha|reflexivity].
  - assert (Hpos : 0 < size) by (unfold request_ok in Hs; lia).
    rewrite (fb_malloc_eq c WF) by assumption.
    pose proof (aligned_request size Hpos Hs).
    unfold request_ok, max_request in Hs.
    pose proof (fb_align_up_8_bounds size ltac:(lia)) as (_ & _ & Hm).
    apply retry_aligned; try assumption.
    rewrite (segments_left_eq c WF) by assumption. lia.
Qed.

Lemma seq_aligned sizes : forall h,
  Inv c h -> fb_heap_ptr h mod 8 = 0 -> Forall request_ok sizes ->
  exists tr hf, fb_malloc_seq sizes h = Done tr hf /\
                Forall (fun a => a_ptr a mod 8 = 0) tr.
Proof.
  induction sizes as [|size rest IH]; intros h HI Ha Hs.
  - exists [], h. split; [reflexivity|constructor].
  - inversion Hs as [|? ? Hsize Hrest]; subst.
    destruct (fb_malloc_aligned size h HI Ha Hsize) as (p & h' & Hm & HI' & Ha' & Hp).
    destruct (IH h' HI' Ha' Hrest) as (tr & hf & Hseq & Hall).
    exists (mkAlloc p (fb_align_up size 8) h h' :: tr), hf. split.
    + cbn [fb_malloc_seq]. unfold bind, get, ret. rewrite Hm, Hseq. reflexivity.
    + constructor; [exact Hp|exact Hall].
Qed.

End Aligned.

(** X25. When the first offset of the configuration is a multiple of 8
    (as the default 0 is), every address that [fb_malloc] returns is a
    multiple of 8, in whichever segment it lies. *)
Theorem fb_malloc_returns_aligned (c : config) (h : heap) (sizes : list Z) :
  well_formed c -> cfg_offset c mod 8 = 0 -> Forall request_ok sizes ->
  exists tr hf,
    (configure c ;;; fb_malloc_seq sizes) h = Done tr hf /\
    Forall (fun a => a_ptr a mod 8 = 0) tr.
Proof.
  intros WF Hoff Hs.
  destruct (configure_ok c WF h) as (h0 & Hc & HI & Hidx & Hptr).
  destruct (seq_aligned c WF Hoff sizes h0 HI) as (tr & hf & Hseq & Hall);
    [|exact Hs|].
  { rewrite Hptr. apply segment_base_aligned; try assumption.
    destruct WF as (? & ? & ? & ? & ?). lia. }
  exists tr, hf. split; [|exact Hall].
  unfold bind. rewrite Hc. exact Hseq.
Qed.

Lemma fb_malloc_returns_aligned_witness :
  well_formed (mkConfig 3 2 16 64) /\ cfg_offset (mkConfig 3 2 16 64) mod 8 = 0 /\
  Forall request_ok [5; 40; 9; 100] /\
  exists tr hf,
    (configure (mkConfig 3 2 16 64) ;;; fb_malloc_seq [5; 40; 9; 100]) heap_at_start
    = Done tr hf /\
    Forall (fun a => a_ptr a mod 8 = 0) tr.
Proof.
  assert (H1 : well_formed (mkConfig 3 2 16 64)) by (unfold well_formed; cbn; lia).
  assert (H2 : cfg_offset (mkConfig 3 2 16 64) mod 8 = 0) by reflexivity.
  assert (H3 : Forall request_ok [5; 40; 9; 100])
    by (repeat constructor; unfold request_ok, max_request; lia).
  split; [exact H1|]. split; [exact H2|]. split; [exact H3|].
  exact (fb_malloc_returns_aligned (mkConfig 3 2 16 64) heap_at_start
           [5; 40; 9; 100] H1 H2 H3).
Defined.

(** *** A heap given by [fb_heap_init] *)











(** *** Return to the unconfigured heap *)

(** On a heap whose cursor is [NULL] a nonzero request first applies the
    default configuration, whatever else the heap holds. *)
Lemma malloc_unconfigured (size : Z) (h : heap) :
  fb_heap_ptr h = NULL -> size <> 0 ->
  fb_malloc size h = fb_malloc size heap_at_start.
Proof.
  intros Hp Hnz. unfold fb_malloc. destruct (Z.eqb_spec size 0); [contradiction|].
  unfold bind at 1 3. unfold fb_heap_init_default, fb_heap_set_segment. run.
  rewrite Hp. reflexivity.
Qed.

Lemma unconfigured_seq (sizes : list Z) : forall h,
  fb_heap_ptr h = NULL -> Forall request_ok sizes ->
  exists tr hf tr0 hf0,
    fb_malloc_seq sizes h = Done tr hf /\
    fb_malloc_seq sizes heap_at_start = Done tr0 hf0 /\
    map a_ptr tr = map a_ptr tr0 /\ map a_size tr = map a_size tr0.
Proof.
  induction sizes as [|size rest IH]; intros h Hp Hs.
  - exists [], h, [], heap_at_start. repeat split; reflexivity.
  - inversion Hs as [|? ? Hsize Hrest]; subst.
    destruct (Z.eq_dec size 0) as [->|Hnz].
    + destruct (IH h Hp Hrest) as (tr & hf & tr0 & hf0 & H1 & H0 & Hptr & Hsz).
      exists (mkAlloc NULL (fb_align_up 0 8) h h :: tr), hf,
             (mkAlloc NULL (fb_align_up 0 8) heap_at_start heap_at_start :: tr0), hf0.
      cbn [fb_malloc_seq]. unfold bind, get, ret. cbn [fb_malloc Z.eqb].
      unfold ret. rewrite H1, H0. cbn [map a_ptr a_size]. rewrite Hptr, Hsz.
      repeat split; reflexivity.
    + destruct (fb_malloc_ready default_config default_config_well_formed size
                  heap_at_start (or_intror (conj eq_refl eq_refl)) Hsize)
        as (p & h' & Hm & Hstep).
      destruct (seq_spec default_config default_config_well_formed rest h'
                  (st_ready _ _ _ _ _ Hstep) Hrest) as (tr & hf & Hseq & _).
      exists (mkAlloc p (fb_align_up size 8) h h' :: tr), hf,
             (mkAlloc p (fb_align_up size 8) heap_at_start h' :: tr), hf.
      cbn [fb_malloc_seq]. unfold bind, get, ret.
      rewrite (malloc_unconfigured size h Hp Hnz), Hm, Hseq.
      repeat split; reflexivity.
Qed.

(** X27. [fb_heap_init] with a [NULL] base or a zero size puts the
    allocator back to its state at program start, whatever was
    configured before: the requests that follow are given the addresses
    that the same requests get in a fresh program (the default
    configuration, applied by the first nonzero request). *)
Theorem fb_heap_init_resets (base size : Z) (h : heap) (sizes : list Z) :
  base = NULL \/ size = 0 -> Forall request_ok sizes ->
  exists tr hf tr0 hf0,
    (fb_heap_init base size ;;; fb_malloc_seq sizes) h = Done tr hf /\
    fb_malloc_seq sizes heap_at_start = Done tr0 hf0 /\
    map a_ptr tr = map a_ptr tr0 /\ map a_size tr = map a_size tr0.
Proof.
  intros Hz Hs.
  assert (Hinit : fb_heap_init base size h
                  = Done tt (set_bounds NULL NULL (set_use_segments true h))).
  { unfold fb_heap_init.
    assert (E : negb (base =? NULL) && negb (size =? 0) = false).
    { destruct Hz as [-> | ->]; [reflexivity|]. apply Bool.andb_false_r. }
    rewrite E. reflexivity. }
  destruct (unconfigured_seq sizes (set_bounds NULL NULL (set_use_segments true h))
              eq_refl Hs) as (tr & hf & tr0 & hf0 & H1 & H0 & Hptr & Hsz).
  exists tr, hf, tr0, hf0. split; [unfold bind; rewrite Hinit; exact H1|].
  split; [exact H0|]. split; assumption.
Qed.

Lemma fb_heap_init_resets_witness :
  (NULL = NULL \/ 4096 = 0) /\ Forall request_ok [0; 24; 100] /\
  exists tr hf tr0 hf0,
    (fb_heap_init NULL 4096 ;;; fb_malloc_seq [0; 24; 100])
      (mkHeap 805306432 805306496 3 2 1 64 16 false) = Done tr hf /\
    fb_malloc_seq [0; 24; 100] heap_at_start = Done tr0 hf0 /\
    map a_ptr tr = map a_ptr tr0 /\ map a_size tr = map a_size tr0.
Proof.
  assert (H1 : NULL = NULL \/ 4096 = 0) by (left; reflexivity).
  assert (H2 : Forall request_ok [0; 24; 100])
    by (repeat constructor; unfold request_ok, max_request; lia).
  split; [exact H1|]. split; [exact H2|].
  exact (fb_heap_init_resets NULL 4096 (mkHeap 805306432 805306496 3 2 1 64 16 false)
           [0; 24; 100] H1 H2).
Defined.

(** *** Memory helpers *)

Lemma fb_memset_loop_spec (v : Z) (m0 : memory) (d : Z) :
  forall left i m,
    0 <= d -> 0 <= i -> d + i + Z.of_nat left < 2 ^ 64 ->
    (forall x, m x = if (d <=? x) && (x <? d + i) then v else m0 x) ->
    forall x, fb_memset_loop left i d v m x
              = if (d <=? x) && (x <? d + i + Z.of_nat left) then v else m0 x.
Proof.
  induction left as [|left IH]; intros i m Hd Hi Hb Hm x.
  - cbn [fb_memset_loop]. rewrite Hm. change (Z.of_nat 0) with 0.
    rewrite Z.add_0_r. reflexivity.
  - cbn [fb_memset_loop]. rewrite Nat2Z.inj_succ in *. unfold Z.succ in *.
    unfold wrap64. rewrite !Z.mod_small by lia.
    rewrite (IH (i + 1) (store m (d + i) v)); try lia.
    + replace (d + (i + 1) + Z.of_nat left) with (d + i + (Z.of_nat left + 1)) by lia.
      reflexivity.
    + intros y. unfold store. rewrite Hm.
      destruct (Z.eqb_spec y (d + i)), (Z.leb_spec d y), (Z.ltb_spec y (d + i)),
        (Z.ltb_spec y (d + (i + 1))); cbn [andb]; try lia; reflexivity.
Qed.

(** X28. [fb_memset] returns [dst] and sets exactly the [n] bytes from
    [dst] on to the low eight bits of [c]; every other byte is left as
    it was. *)
Theorem fb_memset_sets (dst c n : Z) (m : memory) :
  0 <= dst -> 0 <= n -> dst + n < 2 ^ 64 ->
  fst (fb_memset dst c n m) = dst /\
  forall x, snd (fb_memset dst c n m) x
            = if (dst <=? x) && (x <? dst + n) then c mod 2 ^ 8 else m x.
Proof.
  intros Hd Hn Hb. split; [reflexivity|]. intros x. unfold fb_memset.
  cbv zeta. cbn [snd].
  rewrite (fb_memset_loop_spec (c mod 2 ^ 8) m dst (Z.to_nat n) 0 m);
    try lia; rewrite ?Z2Nat.id by lia; try lia.
  - rewrite Z.add_0_r. reflexivity.
  - intros y. rewrite Z.add_0_r.
    destruct (Z.leb_spec dst y), (Z.ltb_spec y dst); cbn [andb]; try lia; reflexivity.
Qed.

Lemma fb_memset_sets_witness :
  0 <= 4096 /\ 0 <= 16 /\ 4096 + 16 < 2 ^ 64 /\
  fst (fb_memset 4096 (-1) 16 (fun _ => 0)) = 4096 /\
  forall x, snd (fb_memset 4096 (-1) 16 (fun _ => 0)) x
            = if (4096 <=? x) && (x <? 4096 + 16) then (-1) mod 2 ^ 8
              else (fun _ => 0) x.
Proof.
  assert (H1 : 0 <= 4096) by lia.
  assert (H2 : 0 <= 16) by lia.
  assert (H3 : 4096 + 16 < 2 ^ 64) by lia.
  split; [exact H1|]. split; [exact H2|]. split; [exact H3|].
  exact (fb_memset_sets 4096 (-1) 16 (fun _ => 0) H1 H2 H3).
Defined.

Lemma fb_memcpy_loop_spec (m0 : memory) (d s n : Z) :
  0 <= d -> 0 <= s -> d + n < 2 ^ 64 -> s + n < 2 ^ 64 ->
  d <= s \/ s + n <= d ->
  forall left i m,
    0 <= i -> i + Z.of_nat left <= n ->
    (forall x, m x = if (d <=? x) && (x <? d + i) then m0 (s + (x - d)) else m0 x) ->
    forall x, fb_memcpy_loop left i d s m x
              = if (d <=? x) && (x <? d + i + Z.of_nat left)
                then m0 (s + (x - d)) else m0 x.
Proof.
  intros Hd Hs Hbd Hbs Hdir.
  induction left as [|left IH]; intros i m Hi Hn Hm x.
  - cbn [fb_memcpy_loop]. rewrite Hm. change (Z.of_nat 0) with 0.
    rewrite Z.add_0_r. reflexivity.
  - cbn [fb_memcpy_loop]. rewrite Nat2Z.inj_succ in *. unfold Z.succ in *.
    unfold wrap64. rewrite !Z.mod_small by lia.
    rewrite (IH (i + 1) (store m (d + i) (m (s + i)))); try lia.
    + replace (d + (i + 1) + Z.of_nat left) with (d + i + (Z.of_nat left + 1)) by lia.
      reflexivity.
    + intros y. unfold store.
      assert (Hsrc : m (s + i) = m0 (s + i)).
      { rewrite Hm.
        destruct (Z.leb_spec d (s + i)), (Z.ltb_spec (s + i) (d + i));
          cbn [andb]; try reflexivity; lia. }
      rewrite Hsrc, Hm.
      destruct (Z.eqb_spec y (d + i)) as [->|Hne].
      * destruct (Z.leb_spec d (d + i)), (Z.ltb_spec (d + i) (d + (i + 1)));
          cbn [andb]; try lia. f_equal. lia.
      * destruct (Z.leb_spec d y), (Z.ltb_spec y (d + i)),
          (Z.ltb_spec y (d + (i + 1))); cbn [andb]; try lia; reflexivity.
Qed.

(** X29. [fb_memcpy] returns [dst]; when the destination starts at or
    below the source, or at or after its end, the [n] bytes from [dst]
    on become the [n] bytes that were at [src], and every other byte is
    left as it was. *)
Theorem fb_memcpy_copies (dst src n : Z) (m : memory) :
  0 <= dst -> 0 <= src -> 0 <= n -> dst + n < 2 ^ 64 -> src + n < 2 ^ 64 ->
  dst <= src \/ src + n <= dst ->
  fst (fb_memcpy dst src n m) = dst /\
  forall x, snd (fb_memcpy dst src n m) x
            = if (dst <=? x) && (x <? dst + n) then m (src + (x - dst)) else m x.
Proof.
  intros Hd Hs Hn Hbd Hbs Hdir. split; [reflexivity|]. intros x.
  unfold fb_memcpy. cbn [snd].
  rewrite (fb_memcpy_loop_spec m dst src n Hd Hs Hbd Hbs Hdir (Z.to_nat n) 0 m);
    rewrite ?Z2Nat.id by lia; try lia.
  - rewrite Z.add_0_r. reflexivity.
  - intros y. rewrite Z.add_0_r.
    destruct (Z.leb_spec dst y), (Z.ltb_spec y dst); cbn [andb]; try lia; reflexivity.
Qed.

Lemma fb_memcpy_copies_witness :
  0 <= 4096 /\ 0 <= 4100 /\ 0 <= 16 /\ 4096 + 16 < 2 ^ 64 /\ 4100 + 16 < 2 ^ 64 /\
  (4096 <= 4100 \/ 4100 + 16 <= 4096) /\
  fst (fb_memcpy 4096 4100 16 (fun x => x mod 256)) = 4096 /\
  forall x, snd (fb_memcpy 4096 4100 16 (fun x => x mod 256)) x
            = if (4096 <=? x) && (x <? 4096 + 16)
              then (fun x => x mod 256) (4100 + (x - 4096))
              else (fun x => x mod 256) x.
Proof.
  assert (H1 : 0 <= 4096) by lia.
  assert (H2 : 0 <= 4100) by lia.
  assert (H3 : 0 <= 16) by lia.
  assert (H4 : 4096 + 16 < 2 ^ 64) by lia.
  assert (H5 : 4100 + 16 < 2 ^ 64) by lia.
  assert (H6 : 4096 <= 4100 \/ 4100 + 16 <= 4096) by (left; lia).
  split; [exact H1|]. split; [exact H2|]. split; [exact H3|]. split; [exact H4|].
  split; [exact H5|]. split; [exact H6|].
  exact (fb_memcpy_copies 4096 4100 16 (fun x => x mod 256) H1 H2 H3 H4 H5 H6).
Defined.

(** *** Rounding up to an alignment *)

Lemma fb_align_up_eq (value k : Z) :
  0 <= k < 64 -> 0 <= value -> value + 2 ^ k <= 2 ^ 64 ->
  fb_align_up value (2 ^ k) = (value + 2 ^ k - 1) / 2 ^ k * 2 ^ k.
Proof.
  intros Hk Hv Hb.
  assert (Hpk : 0 < 2 ^ k) by (apply Z.pow_pos_nonneg; lia).
  assert (Hlt : 2 ^ k < 2 ^ 64) by (apply Z.pow_lt_mono_r; lia).
  unfold fb_align_up.
  set (X := value + 2 ^ k - 1).
  assert (HX : 0 <= X < 2 ^ 64) by (subst X; lia).
  unfold wrap64 at 1 3. rewrite (Z.mod_small X), (Z.mod_small (2 ^ k - 1)) by lia.
  replace (2 ^ k - 1) with (Z.ones k) by (rewrite Z.ones_equiv; lia).
  unfold wrap64. rewrite <- (Z.land_ones (Z.lnot (Z.ones k)) 64) by lia.
  rewrite (Z.land_comm (Z.lnot (Z.ones k))), Z.land_assoc.
  rewrite (Z.land_ones X 64), (Z.mod_small X) by lia.
  rewrite <- Z.ldiff_land, Z.ldiff_ones_r by lia.
  rewrite Z.shiftl_mul_pow2, Z.shiftr_div_pow2 by lia. reflexivity.
Qed.

(** X30. [fb_align_up] with a power of two as alignment returns the
    least multiple of the alignment that is not below the value, as
    long as the value plus the alignment fits in 64 bits. *)
Theorem fb_align_up_least_multiple (value k : Z) :
  0 <= k < 64 -> 0 <= value -> value + 2 ^ k <= 2 ^ 64 ->
  fb_align_up value (2 ^ k) mod 2 ^ k = 0 /\
  value <= fb_align_up value (2 ^ k) < value + 2 ^ k /\
  forall r, r mod 2 ^ k = 0 -> value <= r -> fb_align_up value (2 ^ k) <= r.
Proof.
  intros Hk Hv Hb. rewrite (fb_align_up_eq value k Hk Hv Hb).
  assert (Hpk : 0 < 2 ^ k) by (apply Z.pow_pos_nonneg; lia).
  pose proof (Z.div_mod (value + 2 ^ k - 1) (2 ^ k) ltac:(lia)) as Hd.
  pose proof (Z.mod_pos_bound (value + 2 ^ k - 1) (2 ^ k) ltac:(lia)) as Hm.
  set (q := (value + 2 ^ k - 1) / 2 ^ k) in *.
  split; [apply Z.mod_mul; lia|]. split; [lia|].
  intros r Hr Hle.
  pose proof (Z.div_mod r (2 ^ k) ltac:(lia)) as Hdr. rewrite Hr in Hdr.
  assert (q <= r / 2 ^ k); [|nia].
  destruct (Z.le_gt_cases q (r / 2 ^ k)); [assumption|exfalso]. nia.
Qed.

Lemma fb_align_up_least_multiple_witness :
  0 <= 3 < 64 /\ 0 <= 13 /\ 13 + 2 ^ 3 <= 2 ^ 64 /\
  fb_align_up 13 (2 ^ 3) mod 2 ^ 3 = 0 /\
  13 <= fb_align_up 13 (2 ^ 3) < 13 + 2 ^ 3 /\
  forall r, r mod 2 ^ 3 = 0 -> 13 <= r -> fb_align_up 13 (2 ^ 3) <= r.
Proof.
  assert (H1 : 0 <= 3 < 64) by lia.
  assert (H2 : 0 <= 13) by lia.
  assert (H3 : 13 + 2 ^ 3 <= 2 ^ 64) by lia.
  split; [exact H1|]. split; [exact H2|]. split; [exact H3|].
  exact (fb_align_up_least_multiple 13 3 H1 H2 H3).
Defined.

End AllocExtra.
